(** * Sales bonus report: a model of [src/main.js] and its properties

    The program is one JavaScript file with three functions:
    [calculateSimpleRevenue], [calculateBonusByProfit] and
    [analyzeSalesData].  This development embeds them in Rocq and states
    the properties of the report they compute.

    Conventions of the embedding.
    - A JavaScript number is an IEEE 754 binary64 value: Rocq's primitive
      [float].  Decimal literals such as [0.15] denote the nearest binary64
      value, as they do in JavaScript.
    - Array indices, array lengths and the sales counter are integers far
      below 2^53, where binary64 arithmetic is exact; they are [nat] or [Z].
    - Identifiers ([id], [seller_id], [sku]) and names are strings.
    - A plain object used as a dictionary is a finite map of its own
      properties together with the properties every plain object inherits
      from [Object.prototype].
    - A thrown exception is a value of type [error]. *)

From Stdlib Require Import ZArith List Ascii String Floats Bool Lia.
From Stdlib Require Import Sorting.Sorted Sorting.Permutation.
From stdpp Require Import gmap strings list.

Set Warnings "-inexact-float".
Local Open Scope float_scope.

(** ** JavaScript numbers *)

Module Num.

(** [isNaN(x)] on a number. *)
Definition isNaN (x : float) : bool := PrimFloat.is_nan x.

(** [x < 0] as the sort routine tests a comparator's result: a NaN result
    counts as [+0], hence is not negative. *)
Definition negative (x : float) : bool := x <? 0.

(** [!x] on a number: zero of either sign and NaN are falsy. *)
Definition falsy (x : float) : bool := (x =? 0) || isNaN x.

(** [x >= y] *)
Definition geb (x y : float) : bool := y <=? x.

Definition is_finite (x : float) : bool := PrimFloat.is_finite x.

(** [Number(x.toFixed(2))], written [+x.toFixed(2)] in the program.

    [toFixed(2)] prints a non-finite [x], or one with [|x| >= 1e21], as
    [String(x)], which reads back as [x].  Otherwise it prints the sign of
    [x] and the integer [n] closest to [|x| * 100] (the larger one of two
    equally close) with a point before its last two digits; the unary [+]
    reads the literal back as the binary64 value nearest to [n / 100].
    [|x| = m * 2^e] is exact, so [n] is computed in [Z]. *)
Definition hundredths (m : positive) (e : Z) : Z :=
  if (0 <=? e)%Z then Z.shiftl (100 * Z.pos m) e
  else Z.shiftr (200 * Z.pos m + Z.shiftl 1 (- e)) (1 - e).

Definition nearest_ratio (s : bool) (n : Z) (d : positive) : spec_float :=
  match n with
  | Zpos p => SFdiv prec emax (S754_finite s p 0) (S754_finite false d 0)
  | _ => S754_zero s
  end.

Definition toFixed2 (x : float) : float :=
  match Prim2SF x with
  | S754_finite s m e =>
      if 1e21 <=? abs x then x
      else SF2Prim (nearest_ratio s (hundredths m e) 100)
  | S754_zero _ => 0
  | _ => x
  end.

End Num.

(** ** Data model *)

(** Input records, with the fields the program reads. *)
Record Seller := mkSeller {
  seller_ident : string;       (* id *)
  first_name : string;
  last_name : string }.

Record Product := mkProduct {
  product_sku : string;        (* sku *)
  purchase_price : float }.

Record Item := mkItem {
  item_sku : string;           (* sku *)
  quantity : float;
  discount : float;
  sale_price : float }.

Record PurchaseRecord := mkRecord {
  seller_id : string;
  total_amount : float;
  items : list Item }.

(** A property of the [data] object that is expected to hold an array:
    either it is one, or it is anything else (absent, a number, ...). *)
Inductive field (A : Type) : Type :=
  | NotArray
  | IsArray (l : list A).
Arguments NotArray {A}.
Arguments IsArray {A} l.

Record Data := mkData {
  sellers : field Seller;
  products : field Product;
  purchase_records : field PurchaseRecord }.

(** The value of a per-SKU counter in [products_sold].  It is a number,
    except for one case: when the SKU names a function inherited from
    [Object.prototype], [+=] concatenates the function's source text with
    the quantity and the counter is a string, which [QText] stands for
    (a non-empty string that is not a numeric literal). *)
Inductive counter : Type :=
  | QNum (q : float)
  | QText.

(** [products_sold]: the own properties of the object in creation order. *)
Definition sold := list (string * counter).

(** The working entity, one object per seller. *)
Record SellerStat := mkStat {
  id : string;
  name : string;
  revenue : float;
  profit : float;
  sales_count : nat;
  products_sold : sold }.

(** What [productIndex[item.sku]] evaluates to when it is truthy: a product
    of the input, or an object inherited from [Object.prototype]. *)
Inductive productArg : Type :=
  | ProductObj (p : Product)
  | BuiltinObj (key : string).

(** The options object: each strategy is present (a function) or absent. *)
Record Options := mkOptions {
  calculateRevenue : option (Item -> productArg -> float);
  calculateBonus : option (Z -> Z -> SellerStat -> float) }.

(** A row of the report. *)
Record ReportRow := mkRow {
  row_seller_id : string;
  row_name : string;
  row_revenue : float;
  row_profit : float;
  row_sales_count : nat;
  row_top_products : list (string * counter);
  row_bonus : float }.

(** The exceptions of the program.  Both [throw] statements raise a plain
    [Error]; they differ by their message, and are named here as the
    specification names them.  [TypeError] is what the language raises on a
    property read of [undefined]. *)
Inductive error : Type :=
  | InvalidInputError
  | MissingStrategyError
  | TypeError.

Inductive result (A : Type) : Type :=
  | Ok (a : A)
  | Throw (e : error).
Arguments Ok {A} a.
Arguments Throw {A} e.

(** ** The two reference strategies *)

(** [calculateSimpleRevenue(purchase, _product)] *)
Definition calculateSimpleRevenue (purchase : Item) (_product : productArg) : float :=
  let discountCoefficient := 1 - (discount purchase / 100) in
  sale_price purchase * quantity purchase * discountCoefficient.

(** [calculateBonusByProfit(index, total, seller)] *)
Definition calculateBonusByProfit (index total : Z) (seller : SellerStat) : float :=
  if (index =? 0)%Z then profit seller * 0.15
  else if ((index =? 1) || (index =? 2))%Z then profit seller * 0.10
  else if (index =? total - 1)%Z then 0
  else profit seller * 0.05.

(** ** Plain objects used as dictionaries *)

(** The property names every plain object inherits from [Object.prototype].
    All of them are functions, except the accessor [__proto__], whose value
    is [Object.prototype] itself. *)
Definition objectPrototypeKeys : list string :=
  [ "constructor"; "__defineGetter__"; "__defineSetter__"; "hasOwnProperty";
    "__lookupGetter__"; "__lookupSetter__"; "isPrototypeOf";
    "propertyIsEnumerable"; "toString"; "valueOf"; "toLocaleString";
    "__proto__" ]%string.

Definition inherited (key : string) : bool :=
  bool_decide (key ∈ objectPrototypeKeys).

(** The value of [o[key]]: an own property, an inherited one, or
    [undefined]. *)
Inductive found (A : Type) : Type :=
  | Own (a : A)
  | Inherited (key : string)
  | Undefined.
Arguments Own {A} a.
Arguments Inherited {A} key.
Arguments Undefined {A}.

Definition getProp {A : Type} (o : gmap string A) (key : string) : found A :=
  match o !! key with
  | Some a => Own a
  | None => if inherited key then Inherited key else Undefined
  end.

(** [Object.fromEntries(entries)]: a later entry replaces an earlier one
    with the same key. *)
Definition fromEntries {A : Type} (entries : list (string * A)) : gmap string A :=
  foldl (fun o kv => <[kv.1 := kv.2]> o) ∅ entries.

(** *** [products_sold] *)

Fixpoint sold_get (ps : sold) (sku : string) : option counter :=
  match ps with
  | [] => None
  | (k, v) :: ps' => if String.eqb k sku then Some v else sold_get ps' sku
  end.

(** An assignment keeps the place of an existing property and puts a new
    one last. *)
Fixpoint sold_set (ps : sold) (sku : string) (v : counter) : sold :=
  match ps with
  | [] => [(sku, v)]
  | (k, w) :: ps' =>
      if String.eqb k sku then (k, v) :: ps' else (k, w) :: sold_set ps' sku v
  end.

(** [c += q] on a counter. *)
Definition counter_add (c : counter) (q : float) : counter :=
  match c with
  | QNum v => QNum (v + q)
  | QText => QText
  end.

(** [!c] on a counter. *)
Definition counter_falsy (c : counter) : bool :=
  match c with
  | QNum v => Num.falsy v
  | QText => false
  end.

(** The two statements that count a sold quantity:
    [if (!ps[sku]) ps[sku] = 0;  ps[sku] += q]. *)
Definition countSold (ps : sold) (sku : string) (q : float) : sold :=
  match sold_get ps sku with
  | Some c =>
      let c0 := if counter_falsy c then QNum 0 else c in
      sold_set ps sku (counter_add c0 q)
  | None =>
      if inherited sku then
        (* the inherited value is truthy: no initialisation; [+=] makes a
           string, which the setter of [__proto__] ignores *)
        if String.eqb sku "__proto__" then ps else sold_set ps sku QText
      else sold_set ps sku (QNum (0 + q))
  end.

(** *** [Object.entries] *)

(** An array index is the canonical decimal form of an integer below
    [2^32 - 1]. *)
Definition digit (c : ascii) : option N :=
  let n := N_of_ascii c in
  if ((48 <=? n) && (n <=? 57))%N then Some (n - 48)%N else None.

Fixpoint decimal (s : string) (acc : N) : option N :=
  match s with
  | EmptyString => Some acc
  | String c s' =>
      match digit c with
      | Some d => decimal s' (10 * acc + d)%N
      | None => None
      end
  end.

Definition arrayIndex (s : string) : option N :=
  match s with
  | EmptyString => None
  | String "0" EmptyString => Some 0%N
  | String "0" _ => None
  | _ =>
      match decimal s 0 with
      | Some n => if (n <? 2 ^ 32 - 1)%N then Some n else None
      | None => None
      end
  end.

Definition key_index {A : Type} (kv : string * A) : option N := arrayIndex kv.1.

Fixpoint insert_by_index {A : Type} (n : N) (kv : string * A)
    (l : list (N * (string * A))) : list (N * (string * A)) :=
  match l with
  | [] => [(n, kv)]
  | (m, kv') :: l' =>
      if (n <? m)%N then (n, kv) :: l else (m, kv') :: insert_by_index n kv l'
  end.

(** The own properties whose key is an array index, in ascending order of
    the index. *)
Fixpoint indexed {A : Type} (ps : list (string * A)) : list (N * (string * A)) :=
  match ps with
  | [] => []
  | kv :: ps' =>
      match key_index kv with
      | Some n => insert_by_index n kv (indexed ps')
      | None => indexed ps'
      end
  end.

Definition named {A : Type} (ps : list (string * A)) : list (string * A) :=
  filter (fun kv => key_index kv = None) ps.

(** [Object.entries(o)]: array indices first, in ascending order; then the
    other keys in the order of their creation. *)
Definition entries {A : Type} (ps : list (string * A)) : list (string * A) :=
  map snd (indexed ps) ++ named ps.

(** ** [Array.prototype.sort] with a comparator

    The sort is stable.  [a] is placed before [b] when [compareFn a b] is
    negative; a NaN result counts as zero.  For a comparator that orders
    the elements consistently, as [b.profit - a.profit] does on profits
    that are not NaN, this is the order every engine gives.  For another
    comparator the language leaves the order to the engine; the model then
    has the order of an insertion sort. *)
Section Sort.
Context {A : Type} (compareFn : A -> A -> float).

Definition before (a b : A) : bool := Num.negative (compareFn a b).

Fixpoint place (x : A) (l : list A) : list A :=
  match l with
  | [] => [x]
  | y :: l' => if before y x then y :: place x l' else x :: y :: l'
  end.

Definition sort (l : list A) : list A := foldr place [] l.
End Sort.

(** ** [analyzeSalesData] *)

(** *** Check of the input data *)

Definition isArray {A : Type} (f : field A) : bool :=
  match f with IsArray _ => true | NotArray => false end.

Definition elements {A : Type} (f : field A) : list A :=
  match f with IsArray l => l | NotArray => [] end.

(** The condition of the first [if]; [None] is a falsy [data]. *)
Definition invalidInput (data : option Data) : bool :=
  match data with
  | None => true
  | Some d =>
      negb (isArray (sellers d))
      || negb (isArray (products d))
      || negb (isArray (purchase_records d))
      || (length (elements (sellers d)) =? 0)%nat
      || (length (elements (products d)) =? 0)%nat
      || (length (elements (purchase_records d)) =? 0)%nat
  end.

(** *** Intermediate data *)

Definition newStat (seller : Seller) : SellerStat :=
  {| id := seller_ident seller;
     name := first_name seller +:+ " " +:+ last_name seller;
     revenue := 0;
     profit := 0;
     sales_count := 0;
     products_sold := [] |}.

(** [sellerIndex] maps an id to a seller's object in [sellerStats]; the
    object is named by its position in that array. *)
Definition indexSellers (sellerStats : list SellerStat) : gmap string nat :=
  fromEntries (imap (fun i seller => (id seller, i)) sellerStats).

Definition indexProducts (products : list Product) : gmap string Product :=
  fromEntries (map (fun product => (product_sku product, product)) products).

(** *** Revenue and profit of every seller *)

Definition truthy {A : Type} (v : found A) : bool :=
  match v with Undefined => false | _ => true end.

(** [product.purchase_price]; it is [undefined] on an inherited object, and
    [undefined] is NaN in a product. *)
Definition priceOf (product : productArg) : float :=
  match product with
  | ProductObj p => purchase_price p
  | BuiltinObj _ => nan
  end.

Section Aggregate.
Variable calcRevenue : Item -> productArg -> float.
Variable sellerIndex : gmap string nat.
Variable productIndex : gmap string Product.

(** The body of the inner [forEach], once the product is found. *)
Definition account (seller : SellerStat) (item : Item) (product : productArg)
    : SellerStat :=
  let cost := priceOf product * quantity item in
  let revenue' := calcRevenue item product in
  let profit' := revenue' - cost in
  {| id := id seller;
     name := name seller;
     revenue := revenue seller;
     profit := profit seller + profit';
     sales_count := sales_count seller;
     products_sold := countSold (products_sold seller) (item_sku item) (quantity item) |}.

(** The inner [forEach] callback on a seller's object. *)
Definition sellItem (seller : SellerStat) (item : Item) : SellerStat :=
  match getProp productIndex (item_sku item) with
  | Undefined => seller
  | Own p => account seller item (ProductObj p)
  | Inherited key => account seller item (BuiltinObj key)
  end.

(** [seller.sales_count += 1; seller.revenue += record.total_amount] *)
Definition countSale (seller : SellerStat) (record : PurchaseRecord) : SellerStat :=
  {| id := id seller;
     name := name seller;
     revenue := revenue seller + total_amount record;
     profit := profit seller;
     sales_count := sales_count seller + 1;
     products_sold := products_sold seller |}.

(** The outer [forEach] callback.  When [sellerIndex[record.seller_id]] is an
    inherited object, the two counters are written on that object, and the
    first item with a truthy product reads a property of its
    [products_sold], which is [undefined]. *)
Definition sellRecord (sellerStats : list SellerStat) (record : PurchaseRecord)
    : result (list SellerStat) :=
  match getProp sellerIndex (seller_id record) with
  | Undefined => Ok sellerStats
  | Own i =>
      Ok (alter (fun seller => foldl sellItem (countSale seller record) (items record))
                i sellerStats)
  | Inherited _ =>
      if existsb (fun item => truthy (getProp productIndex (item_sku item)))
                 (items record)
      then Throw TypeError
      else Ok sellerStats
  end.

Fixpoint sellRecords (sellerStats : list SellerStat) (records : list PurchaseRecord)
    : result (list SellerStat) :=
  match records with
  | [] => Ok sellerStats
  | record :: records' =>
      match sellRecord sellerStats record with
      | Ok sellerStats' => sellRecords sellerStats' records'
      | Throw e => Throw e
      end
  end.
End Aggregate.

(** *** Ranking *)

(** A seller's object after the second [forEach]. *)
Record Ranked := mkRanked {
  stat : SellerStat;
  bonus : float;
  top_products : list (string * counter) }.

(** [(a, b) => b.profit - a.profit] *)
Definition byProfit (a b : SellerStat) : float := profit b - profit a.

(** A counter as an operand of [-]. *)
Definition toNumber (c : counter) : float :=
  match c with
  | QNum v => v
  | QText => nan
  end.

(** [(a, b) => b.quantity - a.quantity] *)
Definition byQuantity (a b : string * counter) : float := toNumber b.2 - toNumber a.2.

Definition topProducts (ps : sold) : list (string * counter) :=
  take 10 (sort byQuantity (entries ps)).

Definition rank (calcBonus : Z -> Z -> SellerStat -> float) (sellerStats : list SellerStat)
    : list Ranked :=
  imap (fun index seller =>
          {| stat := seller;
             bonus := calcBonus (Z.of_nat index) (Z.of_nat (length sellerStats)) seller;
             top_products := topProducts (products_sold seller) |})
       sellerStats.

(** *** The report *)

(** [isNaN(x) ? 0 : +x.toFixed(2)] *)
Definition normalize (x : float) : float :=
  if Num.isNaN x then 0 else Num.toFixed2 x.

(** [String(s || '')] on a string. *)
Definition orEmpty (s : string) : string :=
  match s with EmptyString => EmptyString | _ => s end.

(** [Number(n || 0)] on a count. *)
Definition orZero (n : nat) : nat :=
  match n with O => O | _ => n end.

Definition toRow (seller : Ranked) : ReportRow :=
  {| row_seller_id := orEmpty (id (stat seller));
     row_name := orEmpty (name (stat seller));
     row_revenue := normalize (revenue (stat seller));
     row_profit := normalize (profit (stat seller));
     row_sales_count := orZero (sales_count (stat seller));
     row_top_products := top_products seller;
     row_bonus := normalize (bonus seller) |}.

(** The sellers' objects after the first [forEach] (the aggregation). *)
Definition aggregate (calcRevenue : Item -> productArg -> float) (d : Data)
    : result (list SellerStat) :=
  let sellerStats := map newStat (elements (sellers d)) in
  let sellerIndex := indexSellers sellerStats in
  let productIndex := indexProducts (elements (products d)) in
  sellRecords calcRevenue sellerIndex productIndex sellerStats
              (elements (purchase_records d)).

(** The rest of the function: sort, bonus and top products, rows. *)
Definition report (calcBonus : Z -> Z -> SellerStat -> float)
    (sellerStats : list SellerStat) : list ReportRow :=
  map toRow (rank calcBonus (sort byProfit sellerStats)).

(** The function.  [options = None] is an [undefined] or [null] options
    argument, which cannot be destructured. *)
Definition analyzeSalesData (data : option Data) (options : option Options)
    : result (list ReportRow) :=
  if invalidInput data then Throw InvalidInputError
  else
    match data, options with
    | None, _ => Throw InvalidInputError
    | Some d, None => Throw TypeError
    | Some d, Some o =>
        match calculateRevenue o, calculateBonus o with
        | Some calcRevenue, Some calcBonus =>
            match aggregate calcRevenue d with
            | Throw e => Throw e
            | Ok sellerStats => Ok (report calcBonus sellerStats)
            end
        | _, _ => Throw MissingStrategyError
        end
    end.

(** The options with the two reference strategies. *)
Definition referenceOptions : Options :=
  {| calculateRevenue := Some calculateSimpleRevenue;
     calculateBonus := Some calculateBonusByProfit |}.

(** ** The store

    The arguments of [analyzeSalesData] are references to objects, and the
    function creates and updates objects of its own.  This second model of
    the function runs on a store of objects: a location is a position in
    the store, a new object takes the next position, and every assignment
    of the program is an update of the object at a location. *)

Module Store.

Abbreviation loc := nat.

(** A seller's object of [sellerStats]; [products_sold], and later
    [top_products], are references. *)
Record StatObject := mkStatObject {
  st_id : string;
  st_name : string;
  st_revenue : float;
  st_profit : float;
  st_sales_count : nat;
  st_products_sold : loc;
  st_bonus : option float;
  st_top_products : option loc }.

(** A row of the result; [top_products] is a reference to an array. *)
Record RowObject := mkRowObject {
  ro_seller_id : string;
  ro_name : string;
  ro_revenue : float;
  ro_profit : float;
  ro_sales_count : nat;
  ro_top_products : list loc;
  ro_bonus : float }.

(** The contents of an object, by the role of the object. *)
Inductive cell : Type :=
  | CData (sellers products purchase_records : option loc)
  | CArray (elems : list loc)
  | CSeller (seller : Seller)
  | CProduct (product : Product)
  | CItem (item : Item)
  | CRecord (seller_id : string) (total_amount : float) (items : loc)
  | COptions (options : Options)
  | CStat (stat : StatObject)
  | CSold (ps : sold)
  | CIndex (index : gmap string loc)
  | CEntry (sku : string) (quantity : counter)
  | CRow (row : RowObject).

(** An object: its contents, and the names of the properties assigned to
    it that its role does not have. *)
Abbreviation object := (cell * list string)%type.

(** The store, and the assignments made to the objects inherited from
    [Object.prototype], each as the name of the object and the name of the
    property. *)
Record state := mkState {
  heap : list object;
  realm : list (string * string) }.

(** Computations on the store that may throw. *)
Definition M (A : Type) : Type := state -> result A * state.

Definition ret {A : Type} (a : A) : M A := fun st => (Ok a, st).

Definition throw {A : Type} (e : error) : M A := fun st => (Throw e, st).

Definition bind {A B : Type} (c : M A) (k : A -> M B) : M B :=
  fun st =>
    match c st with
    | (Ok a, st') => k a st'
    | (Throw e, st') => (Throw e, st')
    end.

Declare Scope store_scope.
Delimit Scope store_scope with store.
Notation "x <- c ;; k" := (bind c (fun x => k))
  (at level 100, c at next level, right associativity) : store_scope.
Notation "c ;;; k" := (bind c (fun _ => k))
  (at level 100, right associativity) : store_scope.
Local Open Scope store_scope.

(** A new object. *)
Definition alloc (c : cell) : M loc :=
  fun st => (Ok (length (heap st)),
             {| heap := heap st ++ [(c, [])]; realm := realm st |}).

(** The contents of the object at a location. *)
Definition read (l : loc) : M cell :=
  fun st =>
    match heap st !! l with
    | Some (c, _) => (Ok c, st)
    | None => (Throw TypeError, st)
    end.

(** An update of the object at a location. *)
Definition modify (l : loc) (f : object -> object) : M unit :=
  fun st => (Ok tt, {| heap := alter f l (heap st); realm := realm st |}).

(** An assignment to a property of an inherited object. *)
Definition taint (key property : string) : M unit :=
  fun st => (Ok tt, {| heap := heap st; realm := (key, property) :: realm st |}).

Fixpoint forEach {A : Type} (l : list A) (f : A -> M unit) : M unit :=
  match l with
  | [] => ret tt
  | x :: l' => f x ;;; forEach l' f
  end.

Fixpoint forEachIndexed {A : Type} (l : list A) (index : nat) (f : A -> nat -> M unit)
    : M unit :=
  match l with
  | [] => ret tt
  | x :: l' => f x index ;;; forEachIndexed l' (S index) f
  end.

Fixpoint mapM {A B : Type} (l : list A) (f : A -> M B) : M (list B) :=
  match l with
  | [] => ret []
  | x :: l' => y <- f x ;; ys <- mapM l' f ;; ret (y :: ys)
  end.

(** Reads of an object in an expected role.  The model stops with a
    [TypeError] at an object in another role. *)
Definition readData (l : loc) : M (option loc * option loc * option loc) :=
  c <- read l ;;
  match c with CData s p r => ret (s, p, r) | _ => throw TypeError end.

Definition readArray (l : loc) : M (list loc) :=
  c <- read l ;;
  match c with CArray elems => ret elems | _ => throw TypeError end.

Definition readSeller (l : loc) : M Seller :=
  c <- read l ;;
  match c with CSeller s => ret s | _ => throw TypeError end.

Definition readProduct (l : loc) : M Product :=
  c <- read l ;;
  match c with CProduct p => ret p | _ => throw TypeError end.

Definition readItem (l : loc) : M Item :=
  c <- read l ;;
  match c with CItem i => ret i | _ => throw TypeError end.

Definition readRecord (l : loc) : M (string * float * loc) :=
  c <- read l ;;
  match c with CRecord s t i => ret (s, t, i) | _ => throw TypeError end.

Definition readOptions (l : loc) : M Options :=
  c <- read l ;;
  match c with COptions o => ret o | _ => throw TypeError end.

Definition readStat (l : loc) : M StatObject :=
  c <- read l ;;
  match c with CStat s => ret s | _ => throw TypeError end.

Definition readSold (l : loc) : M sold :=
  c <- read l ;;
  match c with CSold ps => ret ps | _ => throw TypeError end.

Definition readIndex (l : loc) : M (gmap string loc) :=
  c <- read l ;;
  match c with CIndex m => ret m | _ => throw TypeError end.

(** [Array.isArray(data.field)] *)
Definition isArrayAt (field : option loc) : M bool :=
  match field with
  | None => ret false
  | Some l => c <- read l ;; ret (match c with CArray _ => true | _ => false end)
  end.

(** The object that [sellerIndex[key]] or [productIndex[key]] evaluates
    to. *)
Definition lookupIndex (index : loc) (key : string) : M (found loc) :=
  m <- readIndex index ;; ret (getProp m key).

(** [o.property = v] or [o.property += v] on the object at [l], for a
    property of a seller's object: [f] is the update of that object; on
    any other object the assignment adds the property. *)
Definition assign (l : loc) (property : string) (f : StatObject -> StatObject) : M unit :=
  modify l (fun o =>
    match o with
    | (CStat s, added) => (CStat (f s), added)
    | (c, added) => (c, property :: added)
    end).

(** The same assignment on what an index lookup found. *)
Definition assignFound (seller : found loc) (property : string)
    (f : StatObject -> StatObject) : M unit :=
  match seller with
  | Own l => assign l property f
  | Inherited key => taint key property
  | Undefined => throw TypeError
  end.

(** [seller.products_sold]; [undefined] on an inherited object. *)
Definition productsSoldOf (seller : found loc) : M (option loc) :=
  match seller with
  | Own l =>
      c <- read l ;;
      ret (match c with CStat s => Some (st_products_sold s) | _ => None end)
  | _ => ret None
  end.

(** The two statements that count a sold quantity, on the object that
    [seller.products_sold] refers to. *)
Definition countSoldAt (ps : option loc) (sku : string) (q : float) : M unit :=
  match ps with
  | None => throw TypeError
  | Some l =>
      modify l (fun o =>
        match o with
        | (CSold props, added) => (CSold (countSold props sku q), added)
        | (c, added) => (c, sku :: added)
        end)
  end.

Definition withRevenue (x : float) (s : StatObject) : StatObject :=
  {| st_id := st_id s; st_name := st_name s;
     st_revenue := st_revenue s + x;
     st_profit := st_profit s;
     st_sales_count := st_sales_count s;
     st_products_sold := st_products_sold s;
     st_bonus := st_bonus s; st_top_products := st_top_products s |}.

Definition withProfit (x : float) (s : StatObject) : StatObject :=
  {| st_id := st_id s; st_name := st_name s;
     st_revenue := st_revenue s;
     st_profit := st_profit s + x;
     st_sales_count := st_sales_count s;
     st_products_sold := st_products_sold s;
     st_bonus := st_bonus s; st_top_products := st_top_products s |}.

Definition withSale (s : StatObject) : StatObject :=
  {| st_id := st_id s; st_name := st_name s;
     st_revenue := st_revenue s;
     st_profit := st_profit s;
     st_sales_count := st_sales_count s + 1;
     st_products_sold := st_products_sold s;
     st_bonus := st_bonus s; st_top_products := st_top_products s |}.

Definition withBonus (x : float) (s : StatObject) : StatObject :=
  {| st_id := st_id s; st_name := st_name s;
     st_revenue := st_revenue s;
     st_profit := st_profit s;
     st_sales_count := st_sales_count s;
     st_products_sold := st_products_sold s;
     st_bonus := Some x; st_top_products := st_top_products s |}.

Definition withTopProducts (l : loc) (s : StatObject) : StatObject :=
  {| st_id := st_id s; st_name := st_name s;
     st_revenue := st_revenue s;
     st_profit := st_profit s;
     st_sales_count := st_sales_count s;
     st_products_sold := st_products_sold s;
     st_bonus := st_bonus s; st_top_products := Some l |}.

(** [seller => ({ id: seller.id, ..., products_sold: {} })] *)
Definition newStatObject (sellerLoc : loc) : M loc :=
  seller <- readSeller sellerLoc ;;
  ps <- alloc (CSold []) ;;
  alloc (CStat {| st_id := seller_ident seller;
                  st_name := first_name seller +:+ " " +:+ last_name seller;
                  st_revenue := 0; st_profit := 0; st_sales_count := 0;
                  st_products_sold := ps;
                  st_bonus := None; st_top_products := None |}).

(** The argument of a strategy: the product, or the inherited object. *)
Definition productArgOf (product : found loc) : M productArg :=
  match product with
  | Own l => p <- readProduct l ;; ret (ProductObj p)
  | Inherited key => ret (BuiltinObj key)
  | Undefined => throw TypeError
  end.

Section Aggregate.
Variable calcRevenue : Item -> productArg -> float.
Variable sellerIndex productIndex : loc.

(** The inner [forEach] callback. *)
Definition sellItem (seller : found loc) (itemLoc : loc) : M unit :=
  item <- readItem itemLoc ;;
  product <- lookupIndex productIndex (item_sku item) ;;
  if truthy product then
    arg <- productArgOf product ;;
    let cost := priceOf arg * quantity item in
    let revenue' := calcRevenue item arg in
    let profit' := revenue' - cost in
    assignFound seller "profit" (withProfit profit') ;;;
    ps <- productsSoldOf seller ;;
    countSoldAt ps (item_sku item) (quantity item)
  else ret tt.

(** The outer [forEach] callback. *)
Definition sellRecord (recordLoc : loc) : M unit :=
  record <- readRecord recordLoc ;;
  let '(seller_id, total_amount, itemsLoc) := record in
  seller <- lookupIndex sellerIndex seller_id ;;
  if truthy seller then
    assignFound seller "sales_count" withSale ;;;
    assignFound seller "revenue" (withRevenue total_amount) ;;;
    items <- readArray itemsLoc ;;
    forEach items (sellItem seller)
  else ret tt.

End Aggregate.

(** The seller's object at a location as the pure model has it; the
    bonus strategy is applied to it. *)
Definition statAt (h : list object) (l : loc) : SellerStat :=
  match h !! l with
  | Some (CStat s, _) =>
      {| id := st_id s; name := st_name s;
         revenue := st_revenue s; profit := st_profit s;
         sales_count := st_sales_count s;
         products_sold := match h !! st_products_sold s with
                          | Some (CSold ps, _) => ps
                          | _ => []
                          end |}
  | _ => {| id := ""; name := ""; revenue := nan; profit := nan;
            sales_count := 0; products_sold := [] |}
  end.

Definition snapshot (l : loc) : M SellerStat :=
  fun st => (Ok (statAt (heap st) l), st).

(** [sellerStats.sort((a, b) => b.profit - a.profit)]: the array is sorted
    in place. *)
Definition sortByProfit (array : loc) : M unit :=
  elems <- readArray array ;;
  fun st =>
    let sorted := sort (fun a b => byProfit (statAt (heap st) a) (statAt (heap st) b)) elems in
    modify array (fun o =>
      match o with
      | (CArray _, added) => (CArray sorted, added)
      | (c, added) => (c, "0"%string :: added)
      end) st.

(** The second [forEach] callback. *)
Definition assignBonus (calcBonus : Z -> Z -> SellerStat -> float) (total : nat)
    (sellerLoc : loc) (index : nat) : M unit :=
  seller <- snapshot sellerLoc ;;
  let bonus := calcBonus (Z.of_nat index) (Z.of_nat total) seller in
  assign sellerLoc "bonus" (withBonus bonus) ;;;
  entries <- mapM (topProducts (products_sold seller))
                  (fun kv => alloc (CEntry kv.1 kv.2)) ;;
  top <- alloc (CArray entries) ;;
  assign sellerLoc "top_products" (withTopProducts top).

(** The callback of the last [map]. *)
Definition formatRow (sellerLoc : loc) : M loc :=
  s <- readStat sellerLoc ;;
  top <- match st_top_products s with
         | Some l => readArray l
         | None => ret []
         end ;;
  let bonus := match st_bonus s with Some b => b | None => nan end in
  alloc (CRow {| ro_seller_id := orEmpty (st_id s);
                 ro_name := orEmpty (st_name s);
                 ro_revenue := normalize (st_revenue s);
                 ro_profit := normalize (st_profit s);
                 ro_sales_count := orZero (st_sales_count s);
                 ro_top_products := top;
                 ro_bonus := normalize bonus |}).

Definition isEmpty (l : list loc) : bool :=
  match l with [] => true | _ => false end.

(** The function from the creation of the array [sellerStats] on, given
    the locations of the seller's objects it holds. *)
Definition afterSellers (calcRevenue : Item -> productArg -> float)
    (calcBonus : Z -> Z -> SellerStat -> float)
    (products records statLocs : list loc) : M loc :=
  sellerStats <- alloc (CArray statLocs) ;;
  sellerEntries <- mapM statLocs (fun l => s <- readStat l ;; ret (st_id s, l)) ;;
  sellerIndex <- alloc (CIndex (fromEntries sellerEntries)) ;;
  productEntries <- mapM products (fun l =>
                      p <- readProduct l ;; ret (product_sku p, l)) ;;
  productIndex <- alloc (CIndex (fromEntries productEntries)) ;;
  forEach records (sellRecord calcRevenue sellerIndex productIndex) ;;;
  sortByProfit sellerStats ;;;
  ranked <- readArray sellerStats ;;
  forEachIndexed ranked 0%nat (assignBonus calcBonus (length ranked)) ;;;
  rows <- mapM ranked formatRow ;;
  alloc (CArray rows).

(** The function on the store.  The arguments are references; [None] is a
    falsy argument. *)
Definition analyzeSalesData (data options : option loc) : M loc :=
  match data with
  | None => throw InvalidInputError
  | Some dataLoc =>
      fields <- readData dataLoc ;;
      let '(sellersField, productsField, recordsField) := fields in
      a1 <- isArrayAt sellersField ;;
      a2 <- isArrayAt productsField ;;
      a3 <- isArrayAt recordsField ;;
      match sellersField, productsField, recordsField with
      | Some sellersLoc, Some productsLoc, Some recordsLoc =>
          if negb a1 || negb a2 || negb a3 then throw InvalidInputError
          else
            sellers <- readArray sellersLoc ;;
            products <- readArray productsLoc ;;
            records <- readArray recordsLoc ;;
            if isEmpty sellers || isEmpty products || isEmpty records
            then throw InvalidInputError
            else
              match options with
              | None => throw TypeError
              | Some optionsLoc =>
                  o <- readOptions optionsLoc ;;
                  match calculateRevenue o, calculateBonus o with
                  | Some calcRevenue, Some calcBonus =>
                      statLocs <- mapM sellers newStatObject ;;
                      afterSellers calcRevenue calcBonus products records statLocs
                  | _, _ => throw MissingStrategyError
                  end
              end
      | _, _, _ => throw InvalidInputError
      end
  end.

(** *** Storing the input of the pure model *)

Definition storeArray {A : Type} (store1 : A -> M loc) (l : list A) : M loc :=
  elems <- mapM l store1 ;; alloc (CArray elems).

Definition storeField {A : Type} (store1 : A -> M loc) (f : field A) : M (option loc) :=
  match f with
  | NotArray => ret None
  | IsArray l => a <- storeArray store1 l ;; ret (Some a)
  end.

Definition storeRecord (r : PurchaseRecord) : M loc :=
  itemsLoc <- storeArray (fun i => alloc (CItem i)) (items r) ;;
  alloc (CRecord (seller_id r) (total_amount r) itemsLoc).

Definition storeData (d : Data) : M loc :=
  s <- storeField (fun x => alloc (CSeller x)) (sellers d) ;;
  p <- storeField (fun x => alloc (CProduct x)) (products d) ;;
  r <- storeField storeRecord (purchase_records d) ;;
  alloc (CData s p r).

Definition storeOptional {A : Type} (store1 : A -> M loc) (a : option A) : M (option loc) :=
  match a with
  | None => ret None
  | Some x => l <- store1 x ;; ret (Some l)
  end.

(** *** Reading the result back *)

Definition entryAt (h : list object) (l : loc) : string * counter :=
  match h !! l with
  | Some (CEntry sku q, _) => (sku, q)
  | _ => (""%string, QText)
  end.

Definition rowAt (h : list object) (l : loc) : option ReportRow :=
  match h !! l with
  | Some (CRow r, _) =>
      Some {| row_seller_id := ro_seller_id r;
              row_name := ro_name r;
              row_revenue := ro_revenue r;
              row_profit := ro_profit r;
              row_sales_count := ro_sales_count r;
              row_top_products := map (entryAt h) (ro_top_products r);
              row_bonus := ro_bonus r |}
  | _ => None
  end.

Fixpoint collect {A B : Type} (f : A -> option B) (l : list A) : option (list B) :=
  match l with
  | [] => Some []
  | x :: l' =>
      match f x, collect f l' with
      | Some y, Some ys => Some (y :: ys)
      | _, _ => None
      end
  end.

Definition rowsAt (h : list object) (l : loc) : option (list ReportRow) :=
  match h !! l with
  | Some (CArray rows, _) => collect (rowAt h) rows
  | _ => None
  end.

(** A call on the stored arguments, from an empty store: the result as
    the pure model has it, and the store after the call. *)
Definition run (data : option Data) (options : option Options)
    : result (list ReportRow) * state * state :=
  let empty := {| heap := []; realm := [] |} in
  match (d <- storeOptional storeData data ;;
         o <- storeOptional (fun o => alloc (COptions o)) options ;;
         ret (d, o)) empty with
  | (Ok (d, o), st) =>
      match analyzeSalesData d o st with
      | (Ok l, st') =>
          (match rowsAt (heap st') l with
           | Some rows => Ok rows
           | None => Throw TypeError
           end, st, st')
      | (Throw e, st') => (Throw e, st, st')
      end
  | (Throw e, st) => (Throw e, st, st)
  end.

End Store.

(** ** Sample inputs *)

Module Sample.

(** A seller's object with a given profit. *)
Definition aSeller (p : float) : SellerStat :=
  {| id := "s1"; name := "Ann Lee"; revenue := 0; profit := p;
     sales_count := 0; products_sold := [] |}.

Definition ann : Seller := mkSeller "s1" "Ann" "Lee".
Definition bob : Seller := mkSeller "s2" "Bob" "Ray".

Definition pen : Product := mkProduct "pen" 10.
Definition ink : Product := mkProduct "ink" 4.

(** Two pens sold at 15 with no discount. *)
Definition twoPens : Item := mkItem "pen" 2 0 15.
Definition threeInks : Item := mkItem "ink" 3 10 6.
Definition onePen : Item := mkItem "pen" 1 0 9.

(** The scenario of the specification: one seller, one product, one
    record with one item. *)
Definition single : Data :=
  mkData (IsArray [ann]) (IsArray [pen]) (IsArray [mkRecord "s1" 30 [twoPens]]).

(** Two sellers and three records; the last record names no seller and its
    second item names no product. *)
Definition shop : Data :=
  mkData (IsArray [ann; bob]) (IsArray [pen; ink])
         (IsArray [ mkRecord "s1" 9 [onePen];
                    mkRecord "s2" 46.2 [twoPens; threeInks];
                    mkRecord "s3" 30 [twoPens; mkItem "cap" 1 0 1] ]).

(** A record whose seller id is the name of a method every object
    inherits. *)
Definition inheritedSeller : Data :=
  mkData (IsArray [ann]) (IsArray [pen]) (IsArray [mkRecord "toString" 30 [twoPens]]).

(** An item whose SKU is such a name; no product has this SKU. *)
Definition inheritedSku : Data :=
  mkData (IsArray [ann]) (IsArray [pen])
         (IsArray [mkRecord "s1" 30 [twoPens; mkItem "valueOf" 1 0 1]]).

(** A product whose SKU is such a name. *)
Definition inheritedProduct : Data :=
  mkData (IsArray [ann]) (IsArray [mkProduct "valueOf" 10])
         (IsArray [mkRecord "s1" 30 [mkItem "valueOf" 2 0 15]]).

(** A quantity that is NaN, followed by a quantity of 5, of the same
    product. *)
Definition restart : Data :=
  mkData (IsArray [ann]) (IsArray [pen])
         (IsArray [mkRecord "s1" 30 [mkItem "pen" nan 0 15; mkItem "pen" 5 0 15]]).

(** A seller with a loss, listed before a seller whose revenue and cost
    both overflow, so that the profit is [Infinity - Infinity]. *)
Definition overflow : Data :=
  mkData (IsArray [ann; bob])
         (IsArray [pen; mkProduct "gem" 1e308])
         (IsArray [ mkRecord "s1" 9 [onePen];
                    mkRecord "s2" 1e308 [mkItem "gem" 10 0 1e308] ]).

(** Two records whose amounts add up to more than the largest number. *)
Definition hugeAmounts : Data :=
  mkData (IsArray [ann]) (IsArray [pen])
         (IsArray [mkRecord "s1" 1e308 [twoPens]; mkRecord "s1" 1e308 []]).

(** SKUs that are array indices, sold in the order "2", "1". *)
Definition numberedSkus : Data :=
  mkData (IsArray [ann])
         (IsArray [mkProduct "2" 1; mkProduct "1" 1])
         (IsArray [mkRecord "s1" 4 [mkItem "2" 1 0 2; mkItem "1" 1 0 2]]).

End Sample.

(** * Properties *)

(** ** Numbers

    The primitive operations are specified by the functions of [SpecFloat]
    on the sign, mantissa and exponent of a number.  What the program needs
    of them is that the sign of a difference tells the order of its
    operands, which is how both comparators of the program sort. *)

Module SF.
Local Open Scope Z_scope.

Abbreviation fexp := (SpecFloat.fexp prec emax).

Lemma digits2_size (m : positive) : digits2_pos m = Pos.size m.
Proof. induction m; simpl; congruence. Qed.

Lemma digits2_bounds (m : positive) :
  2 ^ (Zpos (digits2_pos m) - 1) <= Zpos m < 2 ^ Zpos (digits2_pos m).
Proof.
  rewrite digits2_size. split.
  - pose proof (Pos.size_le m) as H.
    assert (Hp : (2 ^ Z.pos (Pos.size m) <= 2 * Z.pos m)).
    { rewrite <- Pos2Z.inj_pow. now apply Pos2Z.pos_le_pos. }
    replace (Z.pos (Pos.size m)) with (Z.succ (Z.pos (Pos.size m) - 1)) in Hp by lia.
    rewrite Z.pow_succ_r in Hp by lia. lia.
  - pose proof (Pos.size_gt m) as H.
    rewrite <- Pos2Z.inj_pow. now apply Pos2Z.pos_lt_pos.
Qed.

Lemma iter_xO (m d : positive) : Zpos (Pos.iter xO m d) = Zpos m * 2 ^ Zpos d.
Proof.
  induction d as [| d IH] using Pos.peano_ind.
  - simpl. lia.
  - rewrite Pos.iter_succ, Pos2Z.inj_succ, Z.pow_succ_r by lia.
    rewrite Pos2Z.inj_xO, IH. lia.
Qed.

Lemma shl_align_fst (m : positive) (e e' : Z) :
  e' <= e -> Zpos (fst (shl_align m e e')) = Zpos m * 2 ^ (e - e').
Proof.
  intros H. unfold shl_align.
  destruct (e' - e) as [| d | d] eqn:Hd; cbn [fst]; try lia.
  - replace (e - e') with 0 by lia. rewrite Z.pow_0_r. lia.
  - rewrite iter_xO. f_equal. f_equal. lia.
Qed.

Lemma shl_align_snd (m : positive) (e e' : Z) :
  snd (shl_align m e e') = Z.min e e'.
Proof.
  unfold shl_align. destruct (e' - e) as [| d | d] eqn:Hd; simpl; lia.
Qed.


(** Canonical mantissas. *)
Lemma canonical_bounds (m : positive) (e : Z) :
  canonical_mantissa prec emax m e = true ->
  emin <= e /\ Zpos (digits2_pos m) <= prec
  /\ (emin < e -> Zpos (digits2_pos m) = prec).
Proof.
  unfold canonical_mantissa, SpecFloat.fexp. intros H. apply Z.eqb_eq in H.
  unfold SpecFloat.emin, prec, emax in *. lia.
Qed.

Definition aligned (s : bool) (m : positive) (e ez : Z) : Z :=
  cond_Zopp s (Zpos (fst (shl_align m e ez))).

Lemma aligned_eq s m e ez : ez <= e -> aligned s m e ez = cond_Zopp s (Zpos m * 2 ^ (e - ez)).
Proof. intros H. unfold aligned. now rewrite shl_align_fst. Qed.

Lemma compare_cont_Eq (m1 m2 : positive) : Pos.compare_cont Eq m1 m2 = (Zpos m1 ?= Zpos m2).
Proof. reflexivity. Qed.

Lemma lt_of_exponents (m1 m2 : positive) (e1 e2 : Z) :
  canonical_mantissa prec emax m1 e1 = true ->
  canonical_mantissa prec emax m2 e2 = true ->
  e1 < e2 -> Zpos m1 < Zpos m2 * 2 ^ (e2 - e1).
Proof.
  intros H1 H2 He.
  apply canonical_bounds in H1 as (Hm1 & Hd1 & _).
  apply canonical_bounds in H2 as (Hm2 & _ & Hd2).
  specialize (Hd2 ltac:(lia)).
  pose proof (digits2_bounds m1) as [_ B1].
  pose proof (digits2_bounds m2) as [B2 _].
  rewrite Hd2 in B2.
  assert (Zpos m1 < 2 ^ prec).
  { eapply Z.lt_le_trans; [ exact B1 | ]. apply Z.pow_le_mono_r; lia. }
  assert (2 ^ 1 <= 2 ^ (e2 - e1)) by (apply Z.pow_le_mono_r; lia).
  assert (2 ^ prec = 2 ^ (prec - 1) * 2 ^ 1).
  { reflexivity. }
  nia.
Qed.

(** The order of two valid finite numbers is the order of their mantissas
    once they are brought to the same exponent. *)
Lemma SFcompare_finite (s1 s2 : bool) (m1 m2 : positive) (e1 e2 : Z) :
  canonical_mantissa prec emax m1 e1 = true ->
  canonical_mantissa prec emax m2 e2 = true ->
  SFcompare (S754_finite s1 m1 e1) (S754_finite s2 m2 e2)
  = Some (aligned s1 m1 e1 (Z.min e1 e2) ?= aligned s2 m2 e2 (Z.min e1 e2)).
Proof.
  intros H1 H2. rewrite !aligned_eq by lia.
  assert (P1 : 0 < Zpos m1 * 2 ^ (e1 - Z.min e1 e2)) by (apply Z.mul_pos_pos; [ lia | apply Z.pow_pos_nonneg; lia ]).
  assert (P2 : 0 < Zpos m2 * 2 ^ (e2 - Z.min e1 e2)) by (apply Z.mul_pos_pos; [ lia | apply Z.pow_pos_nonneg; lia ]).
  unfold SFcompare. f_equal.
  destruct s1, s2; unfold cond_Zopp.
  - (* both negative *)
    destruct (Z.compare_spec e1 e2) as [-> | He | He].
    + rewrite Z.min_id, Z.sub_diag, Z.pow_0_r, !Z.mul_1_r, compare_cont_Eq.
      rewrite Z.compare_opp. now rewrite <- Z.compare_antisym.
    + pose proof (lt_of_exponents _ _ _ _ H1 H2 He).
      rewrite Z.min_l, Z.sub_diag, Z.pow_0_r, Z.mul_1_r by lia.
      symmetry. apply Z.compare_gt_iff. lia.
    + pose proof (lt_of_exponents _ _ _ _ H2 H1 He).
      rewrite Z.min_r, Z.sub_diag, Z.pow_0_r, Z.mul_1_r by lia.
      symmetry. apply Z.compare_lt_iff. lia.
  - symmetry. apply Z.compare_lt_iff. lia.
  - symmetry. apply Z.compare_gt_iff. lia.
  - destruct (Z.compare_spec e1 e2) as [-> | He | He].
    + now rewrite Z.min_id, Z.sub_diag, Z.pow_0_r, !Z.mul_1_r, compare_cont_Eq.
    + pose proof (lt_of_exponents _ _ _ _ H1 H2 He).
      rewrite Z.min_l, Z.sub_diag, Z.pow_0_r, Z.mul_1_r by lia.
      symmetry. apply Z.compare_lt_iff. lia.
    + pose proof (lt_of_exponents _ _ _ _ H2 H1 He).
      rewrite Z.min_r, Z.sub_diag, Z.pow_0_r, Z.mul_1_r by lia.
      symmetry. apply Z.compare_gt_iff. lia.
Qed.


(** Right shifts of a mantissa. *)
Lemma shr_1_m (mrs : shr_record) :
  0 <= shr_m mrs -> shr_m (shr_1 mrs) = Z.div2 (shr_m mrs).
Proof. destruct mrs as [[| [p | p |] | p] r s]; simpl; intros H; try reflexivity; lia. Qed.

Lemma iter_shr_m (p : positive) (mrs : shr_record) :
  0 <= shr_m mrs -> shr_m (SpecFloat.iter_pos shr_1 p mrs) = Z.shiftr (shr_m mrs) (Zpos p).
Proof.
  revert mrs. induction p as [p IH | p IH |]; intros mrs Hm; cbn [SpecFloat.iter_pos].
  - assert (H1 : 0 <= shr_m (shr_1 mrs)).
    { rewrite shr_1_m by exact Hm. rewrite Z.div2_spec. now apply Z.shiftr_nonneg. }
    assert (H2 : 0 <= shr_m (SpecFloat.iter_pos shr_1 p (shr_1 mrs))).
    { rewrite IH by exact H1. now apply Z.shiftr_nonneg. }
    rewrite IH, IH, shr_1_m, Z.div2_spec, !Z.shiftr_shiftr by (assumption || lia).
    f_equal. lia.
  - assert (H2 : 0 <= shr_m (SpecFloat.iter_pos shr_1 p mrs)).
    { rewrite IH by exact Hm. now apply Z.shiftr_nonneg. }
    rewrite IH, IH, !Z.shiftr_shiftr by (assumption || lia).
    f_equal. lia.
  - rewrite shr_1_m by exact Hm. apply Z.div2_spec.
Qed.

Lemma shr_record_of_loc_m (m : Z) (l : location) : shr_m (shr_record_of_loc m l) = m.
Proof. destruct l as [| []]; reflexivity. Qed.

(** Above the least exponent a shift never drops the whole mantissa. *)
Lemma shr_fexp_pos (m : positive) (e : Z) (l : location) :
  emin <= e ->
  0 < shr_m (fst (shr_fexp prec emax (Zpos m) e l))
  /\ emin <= snd (shr_fexp prec emax (Zpos m) e l).
Proof.
  intros He. unfold shr_fexp, shr.
  destruct (fexp (Zdigits2 (Zpos m) + e) - e) as [| p | p] eqn:Hn; cbn [fst snd];
    rewrite ?shr_record_of_loc_m; try lia.
  rewrite iter_shr_m by (rewrite shr_record_of_loc_m; lia).
  rewrite shr_record_of_loc_m. split; [ | lia ].
  rewrite Z.shiftr_div_pow2 by lia.
  pose proof (digits2_bounds m) as [B _].
  assert (Hp : Zpos p <= Zpos (digits2_pos m) - 1).
  { revert Hn He. unfold SpecFloat.fexp, SpecFloat.emin, Zdigits2, prec, emax. lia. }
  assert (2 ^ Zpos p <= 2 ^ (Zpos (digits2_pos m) - 1)) by (apply Z.pow_le_mono_r; lia).
  apply Z.div_str_pos. split; [ apply Z.pow_pos_nonneg; lia | lia ].
Qed.

(** A result with the sign [s] that is neither zero nor NaN. *)
Definition signed (s : bool) (r : spec_float) : Prop :=
  match r with
  | S754_finite s' _ _ | S754_infinity s' => s' = s
  | _ => False
  end.

Lemma round_nearest_even_pos (m : Z) (l : location) : 0 < m -> 0 < round_nearest_even m l.
Proof.
  intros H. unfold round_nearest_even. destruct l as [| []]; try lia.
  destruct (Z.even m); lia.
Qed.

Lemma binary_round_aux_signed (s : bool) (m : positive) (e : Z) (l : location) :
  emin <= e -> signed s (binary_round_aux prec emax s (Zpos m) e l).
Proof.
  intros He. unfold binary_round_aux.
  pose proof (shr_fexp_pos m e l He) as [M1 E1].
  destruct (shr_fexp prec emax (Zpos m) e l) as [mrs1 e1]. cbn [fst snd] in M1, E1.
  pose proof (round_nearest_even_pos _ (loc_of_shr_record mrs1) M1) as M2.
  destruct (round_nearest_even (shr_m mrs1) (loc_of_shr_record mrs1)) as [| m2 | m2]; try lia.
  pose proof (shr_fexp_pos m2 e1 loc_Exact E1) as [M3 _].
  destruct (shr_fexp prec emax (Zpos m2) e1 loc_Exact) as [mrs3 e3]. cbn [fst] in M3.
  destruct (shr_m mrs3) as [| m3 | m3]; try lia.
  destruct (e3 <=? emax - prec); reflexivity.
Qed.

Lemma binary_round_signed (s : bool) (m : positive) (e : Z) :
  emin <= e -> signed s (binary_round prec emax s m e).
Proof.
  intros He. unfold binary_round.
  pose proof (shl_align_snd m e (fexp (Zpos (digits2_pos m) + e))) as Hs.
  destruct (shl_align m e (fexp (Zpos (digits2_pos m) + e))) as [mz ez]. cbn [snd] in Hs.
  apply binary_round_aux_signed. subst ez. unfold SpecFloat.fexp. lia.
Qed.

(** The sign of any rounded result is the sign given, if it has one. *)
Lemma binary_round_aux_not_negative (m e : Z) (l : location) (s0 : bool) :
  SFltb (binary_round_aux prec emax false m e l) (S754_zero s0) = false.
Proof.
  unfold binary_round_aux.
  destruct (shr_fexp prec emax m e l) as [mrs1 e1].
  destruct (shr_fexp prec emax _ e1 loc_Exact) as [mrs3 e3].
  destruct (shr_m mrs3); try reflexivity.
  destruct (e3 <=? emax - prec); reflexivity.
Qed.

Lemma binary_normalize_negative (d ez : Z) :
  emin <= ez ->
  SFltb (binary_normalize prec emax d ez false) (S754_zero false) = (d <? 0).
Proof.
  intros He. destruct d as [| m | m]; cbn [binary_normalize].
  - reflexivity.
  - unfold binary_round. destruct (shl_align _ _ _). apply binary_round_aux_not_negative.
  - pose proof (binary_round_signed true m ez He) as H.
    destruct (binary_round prec emax true m ez); cbn in H; try contradiction; now subst.
Qed.

Definition nonNaN (x : spec_float) : Prop := x <> S754_nan.

(** The sign of a difference tells the order of its operands. *)
Theorem SFsub_negative (x y : spec_float) :
  valid_binary x = true -> valid_binary y = true -> nonNaN x -> nonNaN y ->
  SFltb (SFsub prec emax x y) (S754_zero false) = SFltb x y.
Proof.
  intros Vx Vy Nx Ny.
  destruct x as [sx | sx | | sx mx ex], y as [sy | sy | | sy my ey];
    try (now destruct sx, sy); try (now destruct sx); try (now destruct sy);
    try (exfalso; now (apply Nx || apply Ny)).
  cbn [valid_binary] in Vx, Vy. unfold bounded in Vx, Vy.
  apply andb_true_iff in Vx as [Cx _], Vy as [Cy _].
  unfold SFltb at 2. rewrite (SFcompare_finite _ _ _ _ _ _ Cx Cy).
  cbn [SFsub]. fold (aligned sx mx ex (Z.min ex ey)). fold (aligned sy my ey (Z.min ex ey)).
  rewrite binary_normalize_negative.
  - unfold Z.ltb. rewrite <- Z.compare_sub. reflexivity.
  - apply canonical_bounds in Cx as [? _], Cy as [? _]. lia.
Qed.


Lemma SFcompare_refl (x : spec_float) : nonNaN x -> SFcompare x x = Some Eq.
Proof.
  intros N. destruct x as [s | s | | s m e]; try (now destruct s); [ now elim N | ].
  cbn. rewrite Z.compare_refl, Pos.compare_cont_refl. now destruct s.
Qed.

Lemma SFcompare_antisym (x y : spec_float) :
  SFcompare y x = option_map CompOpp (SFcompare x y).
Proof.
  destruct x as [sx | sx | | sx mx ex], y as [sy | sy | | sy my ey];
    try (now destruct sx, sy); try (now destruct sx); try (now destruct sy); try reflexivity.
  assert (H : Pos.compare_cont Eq my mx = CompOpp (Pos.compare_cont Eq mx my))
    by (symmetry; apply (Pos.compare_cont_antisym mx my Eq)).
  cbn. rewrite H, (Z.compare_antisym ex ey).
  destruct sx, sy; cbn; try reflexivity;
    destruct (ex ?= ey); cbn; try reflexivity;
    now destruct (Pos.compare_cont Eq mx my).
Qed.

Lemma SFltb_SFleb (x y : spec_float) : SFltb x y = true -> SFleb x y = true.
Proof. unfold SFltb, SFleb. now destruct (SFcompare x y) as [[] |]. Qed.

Lemma SFltb_false_SFleb (x y : spec_float) :
  nonNaN x -> nonNaN y -> SFltb x y = false -> SFleb y x = true.
Proof.
  intros Nx Ny. unfold SFltb, SFleb. rewrite (SFcompare_antisym x y).
  destruct (SFcompare x y) as [[] |] eqn:H; cbn; try easy.
  destruct x as [sx | sx | | sx mx ex], y as [sy | sy | | sy my ey]; try discriminate;
    now (elim Nx || elim Ny).
Qed.

Lemma SFeqb_SFltb (x y : spec_float) : SFeqb x y = true -> SFltb y x = false.
Proof.
  unfold SFeqb, SFltb. rewrite (SFcompare_antisym x y).
  now destruct (SFcompare x y) as [[] |].
Qed.


Lemma Some_compare_Eq (a b : Z) : Some (a ?= b) = Some Eq -> a = b.
Proof. intros [= H]. now apply Z.compare_eq. Qed.

Lemma SFeqb_trans_sym (x y v : spec_float) :
  SFeqb x v = true -> SFeqb y v = true -> SFeqb y x = true.
Proof.
  unfold SFeqb.
  destruct x as [sx | sx | | sx mx ex], y as [sy | sy | | sy my ey],
           v as [sv | sv | | sv mv ev]; cbn;
    try (destruct sx); try (destruct sy); try (destruct sv); try easy;
    destruct (ex ?= ev) eqn:E1; try easy; destruct (ey ?= ev) eqn:E2; try easy;
    apply Z.compare_eq in E1, E2; subst; rewrite Z.compare_refl;
    destruct (Pos.compare_cont Eq mx mv) eqn:C1; try easy;
    destruct (Pos.compare_cont Eq my mv) eqn:C2; try easy;
    apply Pos.compare_eq in C1, C2; subst;
    now rewrite Pos.compare_cont_refl.
Qed.


End SF.

(** ** Rounding to nearest *)

Module Rounding.
Import SF.
Local Open Scope Z_scope.

(** The position of [N / D] between two integers, as a shift record has
    it: the mantissa is the integer part; the round bit tells whether the
    rest is at least a half; the sticky bit tells whether the rest is
    neither zero nor a half. *)
Definition located (mrs : shr_record) (N D : Z) : Prop :=
  shr_m mrs = N / D
  /\ (shr_r mrs = true <-> D <= 2 * (N mod D))
  /\ (shr_s mrs = true <-> N mod D <> 0 /\ 2 * (N mod D) <> D).

Lemma div_mod_double (N D : Z) :
  0 <= N -> 0 < D ->
  N / (2 * D) = (N / D) / 2
  /\ N mod (2 * D) = N mod D + ((N / D) mod 2) * D.
Proof.
  intros HN HD.
  pose proof (Z.div_mod N D ltac:(lia)) as E1.
  pose proof (Z.mod_pos_bound N D HD) as B1.
  pose proof (Z.div_mod (N / D) 2 ltac:(lia)) as E2.
  pose proof (Z.mod_pos_bound (N / D) 2 ltac:(lia)) as B2.
  assert (E : N = (2 * D) * ((N / D) / 2) + (N mod D + ((N / D) mod 2) * D)) by nia.
  assert (B : 0 <= N mod D + ((N / D) mod 2) * D < 2 * D) by nia.
  split.
  - symmetry. apply (Z.div_unique_pos _ _ _ _ B E).
  - symmetry. apply (Z.mod_unique_pos _ _ _ _ B E).
Qed.

Lemma shr_1_parity (mrs : shr_record) :
  0 <= shr_m mrs ->
  shr_m (shr_1 mrs) = shr_m mrs / 2
  /\ (shr_r (shr_1 mrs) = true <-> shr_m mrs mod 2 = 1)
  /\ shr_s (shr_1 mrs) = shr_r mrs || shr_s mrs.
Proof.
  destruct mrs as [[| [p | p |] | p] r s]; intros H; cbn in H;
    cbn [shr_1 shr_m shr_r shr_s]; try (exfalso; pose proof (Pos2Z.neg_is_neg p); lia).
  - repeat split; auto; discriminate.
  - rewrite Pos2Z.inj_xI. replace (2 * Z.pos p + 1) with (1 + Z.pos p * 2) by lia.
    rewrite Z.div_add, Z.mod_add by lia. repeat split; auto.
  - rewrite Pos2Z.inj_xO. replace (2 * Z.pos p) with (0 + Z.pos p * 2) by lia.
    rewrite Z.div_add, Z.mod_add by lia. repeat split; auto; discriminate.
  - repeat split; auto.
Qed.

Lemma located_shr_1 (mrs : shr_record) (N D : Z) :
  0 <= N -> 0 < D -> located mrs N D -> located (shr_1 mrs) N (2 * D).
Proof.
  intros HN HD (Hm & Hr & Hs).
  assert (Hm0 : 0 <= shr_m mrs) by (rewrite Hm; apply Z.div_pos; lia).
  destruct (shr_1_parity mrs Hm0) as (Pm & Pr & Ps).
  destruct (div_mod_double N D HN HD) as (Ed & Em).
  pose proof (Z.mod_pos_bound N D HD) as B1.
  pose proof (Z.mod_pos_bound (N / D) 2 ltac:(lia)) as B2.
  unfold located. rewrite Pm, Pr, Ps, Ed, Em, Hm. split; [ reflexivity | ].
  set (R := N mod D) in *. set (b := (N / D) mod 2) in *.
  assert (Hb : b = 0 \/ b = 1) by lia.
  split.
  - destruct Hb as [-> | ->]; split; intros H; lia.
  - rewrite orb_true_iff, Hr, Hs.
    destruct Hb as [-> | ->]; split; intros H; lia.
Qed.

Lemma located_iter (p : positive) (mrs : shr_record) (N D : Z) :
  0 <= N -> 0 < D -> located mrs N D ->
  located (SpecFloat.iter_pos shr_1 p mrs) N (D * 2 ^ Zpos p).
Proof.
  intros HN. revert mrs D.
  induction p as [p IH | p IH |]; intros mrs D HD H; cbn [iter_pos].
  - apply located_shr_1 in H; try assumption.
    apply IH in H; [ | lia ].
    apply IH in H; [ | apply Z.mul_pos_pos; [ lia | apply Z.pow_pos_nonneg; lia ] ].
    replace (D * 2 ^ Z.pos p~1) with (2 * D * 2 ^ Z.pos p * 2 ^ Z.pos p); [ exact H | ].
    rewrite Pos2Z.inj_xI, Z.pow_add_r, Z.pow_mul_r, Z.pow_2_r by lia.
    replace (2 * 2) with (2 ^ 2) by reflexivity.
    rewrite <- !Z.pow_mul_r by lia. rewrite (Z.mul_comm 2 (Z.pos p)), Z.pow_mul_r by lia.
    nia.
  - apply IH in H; [ | lia ].
    apply IH in H; [ | apply Z.mul_pos_pos; [ lia | apply Z.pow_pos_nonneg; lia ] ].
    replace (D * 2 ^ Z.pos p~0) with (D * 2 ^ Z.pos p * 2 ^ Z.pos p); [ exact H | ].
    rewrite Pos2Z.inj_xO, <- Z.mul_assoc, <- Z.pow_add_r by lia. do 2 f_equal. lia.
  - apply located_shr_1 in H; try assumption.
    now rewrite Z.pow_1_r, Z.mul_comm.
Qed.


Lemma located_shift (n : Z) (mrs : shr_record) (e : Z) (N D : Z) :
  0 <= N -> 0 < D -> 0 <= n -> located mrs N D ->
  located (fst (shr mrs e n)) N (D * 2 ^ n) /\ snd (shr mrs e n) = e + n.
Proof.
  intros HN HD Hn H. unfold shr. destruct n as [| p | p]; cbn [fst snd]; try lia.
  - rewrite Z.pow_0_r, Z.mul_1_r, Z.add_0_r. now split.
  - split; [ now apply located_iter | reflexivity ].
Qed.

(** The record made from the quotient and the rest of a division by an
    even number. *)
Lemma located_division (q r D : Z) :
  0 < D -> Z.even D = true -> 0 <= q -> 0 <= r < D ->
  located (shr_record_of_loc q (new_location D r)) (D * q + r) D.
Proof.
  intros HD Heven Hq Hr.
  assert (Ediv : (D * q + r) / D = q) by (symmetry; apply (Z.div_unique_pos _ _ _ r); lia).
  assert (Emod : (D * q + r) mod D = r) by (symmetry; apply (Z.mod_unique_pos _ _ q); lia).
  unfold located, new_location, new_location_even. rewrite Heven, Ediv, Emod.
  destruct (Z.eqb_spec r 0) as [-> | Hr0]; cbn [shr_record_of_loc shr_m shr_r shr_s].
  - repeat split; try discriminate; try lia; try (intros [H _]; now elim H).
  - destruct (Z.compare_spec (2 * r) D) as [H | H | H];
      cbn [shr_record_of_loc shr_m shr_r shr_s];
      repeat split; try discriminate; try lia; try (intros; lia).
Qed.

(** Rounding to nearest: the result is one of the two integers around
    [N / D], at most a half away from it. *)
Lemma round_located (mrs : shr_record) (N D : Z) :
  0 <= N -> 0 < D -> located mrs N D ->
  let m := round_nearest_even (shr_m mrs) (loc_of_shr_record mrs) in
  (m = N / D \/ m = N / D + 1) /\ 2 * Z.abs (D * m - N) <= D.
Proof.
  intros HN HD (Hm & Hr & Hs).
  pose proof (Z.div_mod N D ltac:(lia)) as E.
  pose proof (Z.mod_pos_bound N D HD) as B.
  destruct mrs as [m r s]. cbn [shr_m shr_r shr_s] in *. subst m.
  set (Q := N / D) in *. set (R := N mod D) in *.
  destruct r, s; cbn [loc_of_shr_record round_nearest_even].
  - assert (D <= 2 * R) by now apply Hr. split; [ now right | nia ].
  - assert (D <= 2 * R) by now apply Hr.
    assert (~ (R <> 0 /\ 2 * R <> D)) by (rewrite <- Hs; discriminate).
    assert (2 * R = D) by lia.
    destruct (Z.even Q); (split; [ auto | nia ]).
  - assert (~ D <= 2 * R) by (rewrite <- Hr; discriminate). split; [ now left | nia ].
  - assert (~ D <= 2 * R) by (rewrite <- Hr; discriminate). split; [ now left | nia ].
Qed.

(** The number of digits of a number between two powers of two. *)
Lemma digits2_unique (m : positive) (d : Z) :
  2 ^ (d - 1) <= Zpos m < 2 ^ d -> Zpos (digits2_pos m) = d.
Proof.
  intros [L U]. pose proof (digits2_bounds m) as [L' U'].
  assert (Hd : 0 < d).
  { destruct (Z.ltb_spec 0 d) as [H | H]; [ exact H | ].
    rewrite (Z.pow_neg_r 2 d) in U; [ lia | ].
    destruct (Z.eq_dec d 0) as [-> | Hne]; [ cbn in U; lia | lia ]. }
  destruct (Z.lt_trichotomy (Zpos (digits2_pos m)) d) as [H | [H | H]]; [ | exact H | ].
  - assert (2 ^ Zpos (digits2_pos m) <= 2 ^ (d - 1)) by (apply Z.pow_le_mono_r; lia). lia.
  - assert (2 ^ d <= 2 ^ (Zpos (digits2_pos m) - 1)) by (apply Z.pow_le_mono_r; lia). lia.
Qed.


Abbreviation emin := (SpecFloat.emin prec emax).

Lemma fexp_normal (d : Z) : emin <= d - prec -> fexp d = d - prec.
Proof. unfold SpecFloat.fexp. lia. Qed.

(** A mantissa of [prec] digits or one more, as rounding leaves it, is
    brought back to [prec] digits without loss. *)
Lemma shr_fexp_rounded (m2 er : Z) :
  2 ^ (prec - 1) <= m2 <= 2 ^ prec -> emin <= er ->
  exists (m : positive) (e : Z),
    shr_fexp prec emax m2 er loc_Exact
    = ({| shr_m := Zpos m; shr_r := false; shr_s := false |}, e)
    /\ canonical_mantissa prec emax m e = true
    /\ er <= e <= er + 1 /\ Zpos m * 2 ^ (e - er) = m2.
Proof.
  intros [L U] He.
  assert (P : 0 < 2 ^ (prec - 1)) by (apply Z.pow_pos_nonneg; unfold prec; lia).
  destruct m2 as [| p | p]; try lia.
  destruct (Z.eq_dec (Zpos p) (2 ^ prec)) as [E | NE].
  - (* one digit too many *)
    assert (Hd : Zpos (digits2_pos p) = prec + 1).
    { apply digits2_unique. rewrite E. replace (prec + 1 - 1) with prec by lia.
      split; [ lia | ]. apply Z.pow_lt_mono_r; unfold prec; lia. }
    exists (Z.to_pos (2 ^ (prec - 1))), (er + 1).
    unfold shr_fexp, Zdigits2. rewrite Hd, fexp_normal by lia.
    replace (prec + 1 + er - prec - er) with 1 by lia.
    cbn [shr SpecFloat.iter_pos shr_record_of_loc]. rewrite E.
    repeat split; try lia.
    + unfold canonical_mantissa.
      rewrite (digits2_unique _ prec).
      * rewrite fexp_normal by lia. apply Z.eqb_eq. lia.
      * rewrite Z2Pos.id by lia. split; [ lia | ].
        apply Z.pow_lt_mono_r; unfold prec; lia.
    + rewrite Z2Pos.id by lia. replace (er + 1 - er) with 1 by lia. reflexivity.
  - assert (Hd : Zpos (digits2_pos p) = prec) by (apply digits2_unique; lia).
    exists p, er.
    unfold shr_fexp, Zdigits2. rewrite Hd, fexp_normal by lia.
    replace (prec + er - prec - er) with 0 by lia.
    cbn [shr shr_record_of_loc].
    repeat split; try lia.
    + unfold canonical_mantissa. rewrite Hd, fexp_normal by lia. apply Z.eqb_eq. lia.
    + rewrite Z.sub_diag, Z.pow_0_r. lia.
Qed.


(** Rounding a quotient of at least [prec] digits, away from the ends of
    the exponent range: the result is finite and canonical, and it is the
    multiple of the unit that is nearest to [N / D]. *)
Lemma binary_round_aux_normal (q : positive) (e' : Z) (loc : location) (N D : Z) :
  0 <= N -> 0 < D ->
  located (shr_record_of_loc (Zpos q) loc) N D ->
  let k := Zpos (digits2_pos q) - prec in
  0 <= k -> emin <= e' + k -> e' + k + 1 <= emax - prec ->
  exists (m : positive) (e m2 : Z),
    (forall s, binary_round_aux prec emax s (Zpos q) e' loc = S754_finite s m e)
    /\ canonical_mantissa prec emax m e = true /\ e <= emax - prec
    /\ e' + k <= e /\ Zpos m * 2 ^ (e - (e' + k)) = m2
    /\ 2 ^ (prec - 1) <= m2 <= 2 ^ prec
    /\ 2 * Z.abs (D * 2 ^ k * m2 - N) <= D * 2 ^ k
    /\ 2 ^ (prec - 1) * (D * 2 ^ k) <= N < 2 ^ prec * (D * 2 ^ k).
Proof.
  intros HN HD Hloc k Hk Hmin Hmax.
  assert (Hq : Zpos q = N / D).
  { destruct Hloc as [Hm _]. now rewrite shr_record_of_loc_m in Hm. }
  destruct (located_shift k _ e' N D HN HD Hk Hloc) as [Hloc1 He1].
  pose proof (digits2_bounds q) as [Lq Uq].
  assert (Pk : 0 < 2 ^ k) by (apply Z.pow_pos_nonneg; lia).
  assert (Ek : 2 ^ Zpos (digits2_pos q) = 2 ^ prec * 2 ^ k).
  { rewrite <- Z.pow_add_r by (unfold prec; lia). f_equal. lia. }
  assert (Ek' : 2 ^ (Zpos (digits2_pos q) - 1) = 2 ^ (prec - 1) * 2 ^ k).
  { rewrite <- Z.pow_add_r by (unfold prec; lia). f_equal. lia. }
  rewrite Ek in Uq. rewrite Ek' in Lq.
  assert (PD : 0 < D * 2 ^ k) by lia.
  set (Dk := D * 2 ^ k) in *.
  (* the magnitude of N *)
  assert (Hmag : 2 ^ (prec - 1) * Dk <= N < 2 ^ prec * Dk).
  { pose proof (Z.mul_div_le N D HD). pose proof (Z.mul_succ_div_gt N D HD).
    rewrite <- Hq in *. unfold Dk. nia. }
  (* the first shift *)
  assert (Hm1 : 2 ^ (prec - 1) <= N / Dk < 2 ^ prec).
  { split.
    - apply Z.div_le_lower_bound; lia.
    - apply Z.div_lt_upper_bound; lia. }
  pose proof (round_located _ N Dk HN PD Hloc1) as [Hnear Hdist].
  cbv zeta in Hnear, Hdist.
  set (m2 := round_nearest_even _ _) in *.
  assert (Hm2 : 2 ^ (prec - 1) <= m2 <= 2 ^ prec) by lia.
  destruct (shr_fexp_rounded m2 (e' + k) Hm2 Hmin) as (m & e & Hsh & Hcan & He & Hval).
  exists m, e, m2. repeat split; try lia; try assumption.
  intros s. unfold binary_round_aux.
  assert (Hfirst : shr_fexp prec emax (Zpos q) e' loc
                   = shr (shr_record_of_loc (Zpos q) loc) e' k).
  { unfold shr_fexp, Zdigits2. rewrite fexp_normal by (unfold k in Hmin; lia).
    f_equal. unfold k. lia. }
  rewrite Hfirst.
  rewrite (surjective_pairing (shr (shr_record_of_loc (Zpos q) loc) e' k)).
  rewrite He1. fold m2. rewrite Hsh. cbn [shr_m].
  destruct (Z.leb_spec e (emax - prec)); [ reflexivity | lia ].
Qed.


(** The shift that the division applies to the numerator [n] of [n / 100]. *)
Definition numeratorShift (n : positive) : Z := Z.max (60 - Zpos (digits2_pos n)) 0.

Lemma SFdiv_core_binary_100 (n : positive) :
  let N := Zpos n * 2 ^ numeratorShift n in
  SFdiv_core_binary prec emax (Zpos n) 0 100 0
  = (N / 100, - numeratorShift n, new_location 100 (N mod 100)).
Proof.
  intros N. unfold SFdiv_core_binary.
  change (Zdigits2 (Zpos n)) with (Zpos (digits2_pos n)).
  change (Zdigits2 100) with 7.
  assert (E : Z.min (fexp (Zpos (digits2_pos n) + 0 - (7 + 0))) (0 - 0) = - numeratorShift n).
  { unfold numeratorShift, SpecFloat.fexp, SpecFloat.emin, prec, emax.
    pose proof (Pos2Z.is_pos (digits2_pos n)). lia. }
  cbv zeta. rewrite E.
  replace (0 - 0 - - numeratorShift n) with (numeratorShift n) by lia.
  assert (EN : match numeratorShift n with
               | 0 => Zpos n
               | Zpos _ => Z.shiftl (Zpos n) (numeratorShift n)
               | Zneg _ => 0
               end = N).
  { unfold N. assert (H : 0 <= numeratorShift n) by (unfold numeratorShift; lia).
    destruct (numeratorShift n) as [| p | p] eqn:Es.
    - rewrite Z.pow_0_r. lia.
    - now rewrite Z.shiftl_mul_pow2.
    - lia. }
  rewrite EN. unfold Z.div, Z.modulo.
  now destruct (Z.div_eucl N 100) as [q r].
Qed.


(** The value of a number, in units of [2 ^ emin]; the infinities stand
    beyond every finite number. *)
Definition val (x : spec_float) : Z :=
  match x with
  | S754_finite s m e => cond_Zopp s (Zpos m * 2 ^ (e - emin))
  | S754_infinity s => cond_Zopp s (2 ^ (emax - emin))
  | _ => 0
  end.

Definition one : Z := 2 ^ (- emin).

(** [m2 * g] is a number of [prec] digits with unit [g] nearest to
    [n / 100]. *)
Definition nearest (n m2 g : Z) : Prop :=
  2 ^ (prec - 1) <= m2 <= 2 ^ prec
  /\ (exists j, 0 <= j /\ g = 2 ^ j)
  /\ 2 * Z.abs (100 * g * m2 - n * one) <= 100 * g
  /\ 2 ^ (prec - 1) * (100 * g) <= n * one < 2 ^ prec * (100 * g).

Lemma nearest_ratio_100 (n : positive) :
  Zpos n <= 10 ^ 23 ->
  exists (m : positive) (e m2 g : Z),
    (forall s, Num.nearest_ratio s (Zpos n) 100 = S754_finite s m e)
    /\ canonical_mantissa prec emax m e = true /\ e <= emax - prec
    /\ Zpos m * 2 ^ (e - emin) = m2 * g
    /\ nearest (Zpos n) m2 g.
Proof.
  intros Hn. unfold Num.nearest_ratio, SFdiv.
  pose proof (SFdiv_core_binary_100 n) as Hcore. cbv zeta in Hcore.
  set (sft := numeratorShift n) in *.
  set (N := Zpos n * 2 ^ sft) in *.
  assert (Hsft : 0 <= sft) by (unfold sft, numeratorShift; lia).
  assert (Psft : 0 < 2 ^ sft) by (apply Z.pow_pos_nonneg; lia).
  pose proof (digits2_bounds n) as [Ln Un].
  (* the numerator has 60 digits or more, and 77 at most *)
  assert (Hd : Zpos (digits2_pos n) <= 77).
  { destruct (Z.le_gt_cases (Zpos (digits2_pos n)) 77) as [H | H]; [ exact H | ].
    assert (2 ^ 77 <= 2 ^ (Zpos (digits2_pos n) - 1)) by (apply Z.pow_le_mono_r; lia).
    assert (10 ^ 23 < 2 ^ 77) by reflexivity. lia. }
  assert (LN : 2 ^ 59 <= N).
  { unfold N. destruct (Z.le_gt_cases 60 (Zpos (digits2_pos n))) as [H | H].
    - assert (2 ^ 59 <= 2 ^ (Zpos (digits2_pos n) - 1)) by (apply Z.pow_le_mono_r; lia).
      nia.
    - assert (Es : sft = 60 - Zpos (digits2_pos n)) by (unfold sft, numeratorShift; lia).
      assert (E : 2 ^ 59 = 2 ^ (Zpos (digits2_pos n) - 1) * 2 ^ sft).
      { rewrite <- Z.pow_add_r by lia. f_equal. lia. }
      rewrite E. apply Z.mul_le_mono_nonneg_r; lia. }
  assert (UN : N < 2 ^ 77).
  { unfold N. destruct (Z.le_gt_cases 60 (Zpos (digits2_pos n))) as [H | H].
    - assert (Es : sft = 0) by (unfold sft, numeratorShift; lia).
      rewrite Es, Z.pow_0_r. assert (10 ^ 23 < 2 ^ 77) by reflexivity. lia.
    - assert (Es : sft = 60 - Zpos (digits2_pos n)) by (unfold sft, numeratorShift; lia).
      assert (E : 2 ^ 60 = 2 ^ Zpos (digits2_pos n) * 2 ^ sft).
      { rewrite <- Z.pow_add_r by lia. f_equal. lia. }
      assert (2 ^ 60 < 2 ^ 77) by reflexivity. nia. }
  (* the quotient *)
  pose proof (Z.div_mod N 100 ltac:(lia)) as EN.
  pose proof (Z.mod_pos_bound N 100 ltac:(lia)) as BN.
  assert (Lq : 2 ^ 52 <= N / 100).
  { apply Z.div_le_lower_bound; [ lia | ].
    assert (100 * 2 ^ 52 <= 2 ^ 59) by (vm_compute; discriminate). lia. }
  assert (Uq : N / 100 < 2 ^ 77).
  { apply Z.div_lt_upper_bound; lia. }
  assert (P52 : 0 < 2 ^ 52) by reflexivity.
  destruct (N / 100) as [| q | q] eqn:Eq; try lia.
  pose proof (digits2_bounds q) as [Ldq Udq].
  assert (Hdq : prec <= Zpos (digits2_pos q) <= 77).
  { split.
    - destruct (Z.le_gt_cases prec (Zpos (digits2_pos q))) as [H | H]; [ exact H | ].
      assert (2 ^ Zpos (digits2_pos q) <= 2 ^ 52) by (apply Z.pow_le_mono_r; unfold prec in H; lia).
      lia.
    - destruct (Z.le_gt_cases (Zpos (digits2_pos q)) 77) as [H | H]; [ exact H | ].
      assert (2 ^ 77 <= 2 ^ (Zpos (digits2_pos q) - 1)) by (apply Z.pow_le_mono_r; lia).
      lia. }
  assert (Hloc : located (shr_record_of_loc (Zpos q) (new_location 100 (N mod 100))) N 100).
  { rewrite EN at 2. apply located_division; try lia. reflexivity. }
  assert (Bs : sft <= 59).
  { unfold sft, numeratorShift. pose proof (Pos2Z.is_pos (digits2_pos n)). lia. }
  destruct (binary_round_aux_normal q (- sft) _ N 100 ltac:(lia) ltac:(lia) Hloc)
    as (m & e & m2 & Hres & Hcan & Hemax & Her & Hval & Hm2 & Hnear & Hmag);
    try (unfold SpecFloat.emin, prec, emax in *; lia).
  set (k := Zpos (digits2_pos q) - prec) in *.
  assert (Hk : 0 <= k) by (unfold k; lia).
  assert (Hj : 0 <= - sft + k - emin) by (unfold SpecFloat.emin, prec, emax; lia).
  exists m, e, m2, (2 ^ (- sft + k - emin)).
  split; [ | split; [ exact Hcan | split; [ exact Hemax | split ] ] ].
  - intros s. rewrite Hcore. cbv beta iota. rewrite xorb_false_r. apply Hres.
  - rewrite <- Hval, <- Z.mul_assoc, <- Z.pow_add_r by lia. f_equal. f_equal. lia.
  - (* the bounds, brought to the unit [2 ^ emin] *)
    set (c := 2 ^ (- emin - sft)).
    assert (Pc : 0 < c) by (apply Z.pow_pos_nonneg; unfold SpecFloat.emin, prec, emax; lia).
    assert (Eg : 100 * 2 ^ (- sft + k - emin) = 100 * 2 ^ k * c).
    { unfold c. rewrite <- Z.mul_assoc, <- Z.pow_add_r
        by (unfold SpecFloat.emin, prec, emax; lia).
      f_equal. f_equal. lia. }
    assert (En : Zpos n * one = N * c).
    { unfold N, c, one. rewrite <- Z.mul_assoc, <- Z.pow_add_r
        by (unfold SpecFloat.emin, prec, emax; lia).
      f_equal. f_equal. lia. }
    unfold nearest. rewrite Eg, En.
    split; [ exact Hm2 | split; [ exists (- sft + k - emin); split; [ exact Hj | reflexivity ] | split ] ].
    + replace (100 * 2 ^ k * c * m2 - N * c) with ((100 * 2 ^ k * m2 - N) * c) by ring.
      rewrite Z.abs_mul, (Z.abs_eq c) by lia.
      rewrite Z.mul_assoc. apply Z.mul_le_mono_nonneg_r; lia.
    + rewrite !Z.mul_assoc. split.
      * apply Z.mul_le_mono_nonneg_r; lia.
      * apply Z.mul_lt_mono_pos_r; lia.
Qed.

Lemma one_pos : 0 < one.
Proof. reflexivity. Qed.

Lemma pow2_double (i j : Z) : 0 <= i < j -> 2 * 2 ^ i <= 2 ^ j.
Proof.
  intros H. rewrite <- Z.pow_succ_r by lia. apply Z.pow_le_mono_r; lia.
Qed.

(** Rounding to nearest is monotone. *)
Lemma nearest_mono (n1 n2 m1 g1 m2 g2 : Z) :
  n1 < n2 -> nearest n1 m1 g1 -> nearest n2 m2 g2 -> m1 * g1 <= m2 * g2.
Proof.
  intros Hn (B1 & (j1 & Hj1 & ->) & D1 & M1) (B2 & (j2 & Hj2 & ->) & D2 & M2).
  pose proof one_pos as P1.
  assert (Hn' : n1 * one < n2 * one) by (apply Z.mul_lt_mono_pos_r; lia).
  assert (E : 2 ^ prec = 2 * 2 ^ (prec - 1)) by reflexivity.
  assert (P : 0 < 2 ^ (prec - 1)) by reflexivity.
  rewrite E in *. set (h := 2 ^ (prec - 1)) in *.
  assert (G1 : 0 < 2 ^ j1) by (apply Z.pow_pos_nonneg; lia).
  assert (G2 : 0 < 2 ^ j2) by (apply Z.pow_pos_nonneg; lia).
  set (a := n1 * one) in *. set (b := n2 * one) in *.
  destruct (Z.lt_trichotomy j1 j2) as [H | [H | H]].
  - pose proof (pow2_double j1 j2 ltac:(lia)) as Hg.
    set (g1 := 2 ^ j1) in *. set (g2 := 2 ^ j2) in *.
    transitivity (2 * h * g1); [ apply Z.mul_le_mono_nonneg_r; lia | ].
    transitivity (h * g2); [ | apply Z.mul_le_mono_nonneg_r; lia ].
    rewrite <- (Z.mul_comm h), <- Z.mul_assoc. apply Z.mul_le_mono_nonneg_l; lia.
  - subst j2. set (g := 2 ^ j1) in *.
    apply Z.mul_le_mono_nonneg_r; [ lia | ].
    assert (L : 100 * g * m1 < 100 * g * (m2 + 1)) by lia.
    apply Z.mul_lt_mono_pos_l in L; lia.
  - exfalso. pose proof (pow2_double j2 j1 ltac:(lia)) as Hg.
    set (g1 := 2 ^ j1) in *. set (g2 := 2 ^ j2) in *.
    assert (2 * h * (100 * g2) <= h * (100 * g1)).
    { replace (2 * h * (100 * g2)) with (h * (100 * (2 * g2))) by ring.
      apply Z.mul_le_mono_nonneg_l; lia. }
    lia.
Qed.

(** The value of the number that [n / 100] reads as. *)
Definition ratio (n : Z) : Z := val (Num.nearest_ratio false n 100).

Lemma ratio_finite (s : bool) (n : Z) :
  0 <= n <= 10 ^ 23 ->
  valid_binary (Num.nearest_ratio s n 100) = true
  /\ val (Num.nearest_ratio s n 100) = cond_Zopp s (ratio n)
  /\ 0 <= ratio n
  /\ match Num.nearest_ratio s n 100 with
     | S754_zero _ | S754_finite _ _ _ => True
     | _ => False
     end.
Proof.
  intros [L U]. destruct n as [| p | p]; try lia.
  - unfold ratio. cbn. destruct s; repeat split; reflexivity || lia.
  - destruct (nearest_ratio_100 p U) as (m & e & m2 & g & Hres & Hcan & He & Hval & Hnear).
    unfold ratio. rewrite !Hres. unfold valid_binary. cbn [val SpecFloat.valid_binary cond_Zopp].
    unfold bounded. rewrite Hcan. apply Z.leb_le in He. rewrite He.
    repeat split.
    assert (0 < 2 ^ (e - emin)).
    { apply Z.pow_pos_nonneg; [ lia | ]. apply canonical_bounds in Hcan.
      unfold SpecFloat.emin in *. lia. }
    lia.
Qed.

Lemma ratio_mono (n1 n2 : Z) : 0 <= n1 <= n2 -> n2 <= 10 ^ 23 -> ratio n1 <= ratio n2.
Proof.
  intros [L H] U.
  destruct (Z.eq_dec n1 n2) as [-> | Hne]; [ lia | ].
  destruct n1 as [| p1 | p1]; try lia.
  - now apply (ratio_finite false n2).
  - destruct n2 as [| p2 | p2]; try lia.
    destruct (nearest_ratio_100 p1 ltac:(lia)) as (m1 & e1 & a1 & g1 & Hres1 & _ & _ & Hval1 & Hnear1).
    destruct (nearest_ratio_100 p2 U) as (m2 & e2 & a2 & g2 & Hres2 & _ & _ & Hval2 & Hnear2).
    unfold ratio. rewrite Hres1, Hres2. cbn [val cond_Zopp]. rewrite Hval1, Hval2.
    apply (nearest_mono (Zpos p1) (Zpos p2)); [ lia | assumption | assumption ].
Qed.

(** ** The order of numbers, through their values *)

Lemma cond_Zopp_mul (s : bool) (a c : Z) : cond_Zopp s a * c = cond_Zopp s (a * c).
Proof. destruct s; cbn [cond_Zopp]; lia. Qed.

Lemma compare_scaled (a b c : Z) : 0 < c -> (a * c ?= b * c) = (a ?= b).
Proof.
  intros Hc. destruct (Z.compare_spec a b) as [-> | H | H].
  - apply Z.compare_refl.
  - apply Z.compare_lt_iff. now apply Z.mul_lt_mono_pos_r.
  - apply Z.compare_gt_iff. now apply Z.mul_lt_mono_pos_r.
Qed.

Lemma val_aligned (s : bool) (m : positive) (e ez : Z) :
  emin <= ez <= e -> val (S754_finite s m e) = aligned s m e ez * 2 ^ (ez - emin).
Proof.
  intros H. rewrite aligned_eq by lia. cbn [val].
  rewrite cond_Zopp_mul, <- Z.mul_assoc, <- Z.pow_add_r by lia.
  do 3 f_equal. lia.
Qed.

Definition beyond : Z := 2 ^ (emax - emin).

Lemma bounded_value (m : positive) (e : Z) :
  bounded prec emax m e = true -> 0 < Zpos m * 2 ^ (e - emin) < beyond.
Proof.
  unfold bounded. intros H. apply andb_true_iff in H as [Hcan He].
  apply Z.leb_le in He. apply canonical_bounds in Hcan as (Hmin & Hd & _).
  pose proof (digits2_bounds m) as [_ B].
  assert (P : 0 < 2 ^ (e - emin)) by (apply Z.pow_pos_nonneg; lia).
  split; [ lia | ].
  assert (Zpos m < 2 ^ prec).
  { eapply Z.lt_le_trans; [ exact B | ]. apply Z.pow_le_mono_r; lia. }
  assert (2 ^ prec * 2 ^ (e - emin) <= beyond).
  { unfold beyond. rewrite <- Z.pow_add_r by (unfold SpecFloat.emin, prec, emax in *; lia).
    apply Z.pow_le_mono_r; lia. }
  nia.
Qed.

Lemma SFcompare_val (x y : spec_float) :
  valid_binary x = true -> valid_binary y = true ->
  nonNaN x -> nonNaN y ->
  SFcompare x y = Some (val x ?= val y).
Proof.
  intros Vx Vy Nx Ny.
  destruct x as [sx | sx | | sx mx ex]; try (now elim Nx);
    destruct y as [sy | sy | | sy my ey]; try (now elim Ny);
    unfold valid_binary in Vx, Vy; cbn [SpecFloat.valid_binary] in Vx, Vy.
  9: { (* two finite numbers *)
    apply andb_true_iff in Vx as [Cx _]. apply andb_true_iff in Vy as [Cy _].
    rewrite (SFcompare_finite _ _ _ _ _ _ Cx Cy). f_equal.
    apply canonical_bounds in Cx as (Hx & _). apply canonical_bounds in Cy as (Hy & _).
    rewrite (val_aligned sx mx ex (Z.min ex ey)), (val_aligned sy my ey (Z.min ex ey)) by lia.
    symmetry. apply compare_scaled. apply Z.pow_pos_nonneg; lia. }
  all: try (pose proof (bounded_value _ _ Vx) as Bx);
    try (pose proof (bounded_value _ _ Vy) as By);
    assert (0 < beyond) by reflexivity;
    cbn [val SFcompare]; fold beyond;
    try destruct sx; try destruct sy; cbn [cond_Zopp]; f_equal; symmetry;
    first [ apply Z.compare_eq_iff; lia
          | apply Z.compare_lt_iff; lia
          | apply Z.compare_gt_iff; lia ].
Qed.

Lemma SFleb_val (x y : spec_float) :
  valid_binary x = true -> valid_binary y = true ->
  nonNaN x -> nonNaN y ->
  SFleb x y = (val x <=? val y).
Proof.
  intros Vx Vy Nx Ny. unfold SFleb, Z.leb. rewrite (SFcompare_val x y Vx Vy Nx Ny).
  now destruct (val x ?= val y).
Qed.

End Rounding.


(** The same facts on primitive numbers. *)
Module NumFacts.
Local Open Scope float_scope.

Lemma isNaN_spec (x : float) : PrimFloat.is_nan x = true <-> Prim2SF x = S754_nan.
Proof.
  unfold PrimFloat.is_nan. rewrite FloatAxioms.eqb_spec. unfold SFeqb. split.
  - intros H. destruct (Prim2SF x) eqn:E; try reflexivity;
      rewrite SF.SFcompare_refl in H by easy; discriminate.
  - now intros ->.
Qed.

Lemma isNaN_false (x : float) : PrimFloat.is_nan x = false <-> SF.nonNaN (Prim2SF x).
Proof.
  unfold SF.nonNaN. split.
  - intros H E. apply isNaN_spec in E. congruence.
  - intros H. destruct (PrimFloat.is_nan x) eqn:E; [ | reflexivity ].
    apply isNaN_spec in E. contradiction.
Qed.

Lemma sub_negative (x y : float) :
  PrimFloat.is_nan x = false -> PrimFloat.is_nan y = false ->
  (x - y <? 0) = (x <? y).
Proof.
  intros Nx Ny. rewrite !FloatAxioms.ltb_spec, FloatAxioms.sub_spec.
  apply SF.SFsub_negative; try apply Prim2SF_valid; now apply isNaN_false.
Qed.

Lemma ltb_leb (x y : float) : (x <? y) = true -> (x <=? y) = true.
Proof. rewrite FloatAxioms.ltb_spec, FloatAxioms.leb_spec. apply SF.SFltb_SFleb. Qed.

Lemma ltb_false_leb (x y : float) :
  PrimFloat.is_nan x = false -> PrimFloat.is_nan y = false ->
  (x <? y) = false -> (y <=? x) = true.
Proof.
  intros Nx Ny. rewrite FloatAxioms.ltb_spec, FloatAxioms.leb_spec.
  apply SF.SFltb_false_SFleb; now apply isNaN_false.
Qed.

Lemma eqb_ltb (x y : float) : (x =? y) = true -> (y <? x) = false.
Proof. rewrite FloatAxioms.eqb_spec, FloatAxioms.ltb_spec. apply SF.SFeqb_SFltb. Qed.

Lemma eqb_nonNaN_l (x y : float) : (x =? y) = true -> PrimFloat.is_nan x = false.
Proof.
  rewrite FloatAxioms.eqb_spec. intros H. apply isNaN_false. intros E.
  rewrite E in H. discriminate.
Qed.

(** Two numbers equal to a third are equal. *)
Lemma eqb_trans_sym (x y v : float) :
  (x =? v) = true -> (y =? v) = true -> (y =? x) = true.
Proof. rewrite !FloatAxioms.eqb_spec. apply SF.SFeqb_trans_sym. Qed.



(** *** [toFixed(2)] *)

(** The value of a number in units of [2 ^ emin]. *)
Definition value (x : float) : Z := Rounding.val (Prim2SF x).

Lemma leb_value (x y : float) :
  PrimFloat.is_nan x = false -> PrimFloat.is_nan y = false ->
  (x <=? y) = (value x <=? value y)%Z.
Proof.
  intros Nx Ny. rewrite FloatAxioms.leb_spec.
  apply Rounding.SFleb_val; try apply Prim2SF_valid; now apply isNaN_false.
Qed.

Lemma is_finite_spec (x : float) :
  PrimFloat.is_finite x = true
  <-> match Prim2SF x with
      | S754_zero _ | S754_finite _ _ _ => True
      | _ => False
      end.
Proof.
  unfold PrimFloat.is_finite, PrimFloat.is_infinity.
  destruct (PrimFloat.is_nan x) eqn:N.
  - apply isNaN_spec in N. rewrite N. cbn. split; [ discriminate | tauto ].
  - apply isNaN_false in N. rewrite FloatAxioms.eqb_spec, abs_spec.
    change (Prim2SF infinity) with (S754_infinity false).
    destruct (Prim2SF x) as [s | s | | s m e]; cbn; try tauto;
      try (split; [ discriminate | tauto ]).
    now elim N.
Qed.

Section Fixed.
Local Open Scope Z_scope.
Import Rounding.

(** The integer nearest to a hundred times a value [V / one], the larger
    one of two equally near. *)
Definition hundredthsOf (V : Z) : Z := (200 * V + one) / (2 * one).

Lemma hundredths_value (m : positive) (e : Z) :
  emin <= e -> Num.hundredths m e = hundredthsOf (Zpos m * 2 ^ (e - emin)).
Proof.
  intros He. unfold Num.hundredths, hundredthsOf. pose proof one_pos as P.
  destruct (Z.leb_spec 0 e) as [H | H].
  - rewrite Z.shiftl_mul_pow2 by lia.
    assert (E : 2 ^ (e - emin) = 2 ^ e * one).
    { unfold one. rewrite <- Z.pow_add_r by (unfold SpecFloat.emin, prec, emax; lia).
      f_equal; lia. }
    rewrite E. apply (Z.div_unique_pos _ _ _ one); [ lia | ring ].
  - rewrite Z.shiftr_div_pow2, Z.shiftl_mul_pow2, Z.mul_1_l by lia.
    assert (Pc : 0 < 2 ^ (e - emin)) by (apply Z.pow_pos_nonneg; lia).
    assert (E1 : one = 2 ^ (- e) * 2 ^ (e - emin)).
    { unfold one. rewrite <- Z.pow_add_r by lia. f_equal; lia. }
    assert (E2 : 2 * one = 2 ^ (1 - e) * 2 ^ (e - emin)).
    { unfold one. rewrite <- Z.pow_add_r, <- Z.pow_succ_r
        by (unfold SpecFloat.emin, prec, emax in *; lia).
      f_equal; lia. }
    rewrite E2. rewrite E1 at 1.
    replace (200 * (Zpos m * 2 ^ (e - emin)) + 2 ^ (- e) * 2 ^ (e - emin))
      with ((200 * Zpos m + 2 ^ (- e)) * 2 ^ (e - emin)) by ring.
    rewrite Z.div_mul_cancel_r; [ reflexivity | | lia ].
    apply Z.pow_nonzero; lia.
Qed.

Lemma hundredthsOf_mono (V1 V2 : Z) : V1 <= V2 -> hundredthsOf V1 <= hundredthsOf V2.
Proof.
  intros H. pose proof one_pos. unfold hundredthsOf. apply Z.div_le_mono; lia.
Qed.

Lemma hundredthsOf_nonneg (V : Z) : 0 <= V -> 0 <= hundredthsOf V.
Proof.
  intros H. pose proof one_pos. unfold hundredthsOf. apply Z.div_pos; lia.
Qed.

(** [1e21], from which on [toFixed] prints a number as [String] does. *)
Definition limit : Z := 10 ^ 21 * one.

Lemma limit_value : value 1e21 = limit.
Proof. vm_compute. reflexivity. Qed.

Lemma ratio_limit : ratio (10 ^ 23) = limit.
Proof. vm_compute. reflexivity. Qed.

Lemma limit_beyond : limit <= beyond.
Proof. vm_compute. discriminate. Qed.

Lemma hundredthsOf_limit (V : Z) : V < limit -> hundredthsOf V <= 10 ^ 23.
Proof.
  intros H. pose proof one_pos as P. unfold hundredthsOf, limit in *.
  assert (L : (200 * V + one) / (2 * one) < 10 ^ 23 + 1); [ | lia ].
  apply Z.div_lt_upper_bound; [ lia | ].
  set (t := 10 ^ 21) in *. replace (10 ^ 23) with (100 * t) by reflexivity. lia.
Qed.

(** What [+x.toFixed(2)] does to the value of a number that is not
    negative. *)
Definition fixed (V : Z) : Z := if limit <=? V then V else ratio (hundredthsOf V).

Lemma fixed_nonneg (V : Z) : 0 <= V -> 0 <= fixed V.
Proof.
  intros H. unfold fixed. destruct (Z.leb_spec limit V) as [L | L]; [ exact H | ].
  apply (ratio_finite false). split.
  - now apply hundredthsOf_nonneg.
  - now apply hundredthsOf_limit.
Qed.

Lemma fixed_mono (V1 V2 : Z) : 0 <= V1 <= V2 -> fixed V1 <= fixed V2.
Proof.
  intros [H0 H]. unfold fixed.
  destruct (Z.leb_spec limit V1) as [L1 | L1], (Z.leb_spec limit V2) as [L2 | L2];
    try lia.
  - rewrite <- ratio_limit in L2. etransitivity; [ | exact L2 ].
    apply ratio_mono; [ | lia ]. split.
    + now apply hundredthsOf_nonneg.
    + now apply hundredthsOf_limit.
  - apply ratio_mono.
    + split; [ now apply hundredthsOf_nonneg | now apply hundredthsOf_mono ].
    + now apply hundredthsOf_limit.
Qed.

(** ... and to the value of any number. *)
Definition rounded (v : Z) : Z := Z.sgn v * fixed (Z.abs v).

Lemma rounded_mono (v1 v2 : Z) : v1 <= v2 -> rounded v1 <= rounded v2.
Proof.
  intros H. unfold rounded.
  pose proof (fixed_nonneg (Z.abs v1) (Z.abs_nonneg v1)) as P1.
  pose proof (fixed_nonneg (Z.abs v2) (Z.abs_nonneg v2)) as P2.
  destruct (Z.sgn_spec v1) as [[S1 ->] | [[S1 ->] | [S1 ->]]],
           (Z.sgn_spec v2) as [[S2 ->] | [[S2 ->] | [S2 ->]]]; try lia.
  - pose proof (fixed_mono (Z.abs v1) (Z.abs v2) ltac:(lia)). lia.
  - pose proof (fixed_mono (Z.abs v2) (Z.abs v1) ltac:(lia)). lia.
Qed.

Lemma rounded_signed (s : bool) (V : Z) :
  0 < V -> rounded (cond_Zopp s V) = cond_Zopp s (fixed V).
Proof.
  intros H. unfold rounded. destruct s; cbn [cond_Zopp].
  - rewrite Z.sgn_neg, Z.abs_neq by lia. rewrite Z.opp_involutive. lia.
  - rewrite Z.sgn_pos, Z.abs_eq by lia. lia.
Qed.

End Fixed.

(** The result of [+x.toFixed(2)] is a number, of the value [rounded]
    gives, and finite when [x] is. *)
Lemma toFixed2_value (x : float) :
  PrimFloat.is_nan x = false ->
  PrimFloat.is_nan (Num.toFixed2 x) = false
  /\ value (Num.toFixed2 x) = rounded (value x)
  /\ (PrimFloat.is_finite x = true -> PrimFloat.is_finite (Num.toFixed2 x) = true).
Proof.
  intros N. pose proof (Prim2SF_valid x) as V. pose proof N as N'.
  apply isNaN_false in N'. unfold Num.toFixed2, value.
  destruct (Prim2SF x) as [s | s | | s m e] eqn:E.
  - repeat split.
  - rewrite E. repeat split; try assumption; try tauto.
    cbn [Rounding.val]. pose proof limit_beyond as L.
    assert (P : (0 < Rounding.beyond)%Z) by reflexivity.
    fold Rounding.beyond. rewrite rounded_signed by exact P.
    unfold fixed. destruct (Z.leb_spec limit Rounding.beyond); [ reflexivity | lia ].
  - now elim N'.
  - unfold valid_binary in V. cbn [SpecFloat.valid_binary] in V.
    pose proof (Rounding.bounded_value m e V) as [P B].
    apply andb_true_iff in V as [C _]. apply SF.canonical_bounds in C as (He & _).
    set (W := (Zpos m * 2 ^ (e - emin))%Z) in *.
    assert (T : (1e21 <=? abs x) = (limit <=? W)%Z).
    { rewrite FloatAxioms.leb_spec, abs_spec, E. cbn [SFabs].
      rewrite Rounding.SFleb_val.
      - change (Rounding.val (Prim2SF 1e21)) with (value 1e21).
        now rewrite limit_value.
      - apply Prim2SF_valid.
      - change (valid_binary (SFabs (S754_finite s m e)) = true).
        rewrite <- E, <- abs_spec. apply Prim2SF_valid.
      - apply isNaN_false. reflexivity.
      - discriminate. }
    rewrite T. cbn [Rounding.val]. fold W. rewrite rounded_signed by exact P.
    unfold fixed. destruct (Z.leb_spec limit W) as [L | L].
    + rewrite E. cbn [Rounding.val]. repeat split; try assumption; try tauto.
    + rewrite hundredths_value by exact He. fold W.
      destruct (Rounding.ratio_finite s (hundredthsOf W)) as (Hv & Hval & _ & Hfin).
      { split; [ apply hundredthsOf_nonneg; lia | now apply hundredthsOf_limit ]. }
      split; [ | split ].
      * apply isNaN_false. rewrite Prim2SF_SF2Prim by exact Hv.
        intros F. now rewrite F in Hfin.
      * now rewrite Prim2SF_SF2Prim by exact Hv.
      * intros _. apply is_finite_spec. now rewrite Prim2SF_SF2Prim by exact Hv.
Qed.

(** [+x.toFixed(2)] keeps the order of numbers. *)
Lemma toFixed2_mono (x y : float) :
  PrimFloat.is_nan x = false -> PrimFloat.is_nan y = false ->
  (x <=? y) = true -> (Num.toFixed2 x <=? Num.toFixed2 y) = true.
Proof.
  intros Nx Ny.
  destruct (toFixed2_value x Nx) as (Nx' & Vx & _).
  destruct (toFixed2_value y Ny) as (Ny' & Vy & _).
  rewrite !leb_value by assumption. rewrite Vx, Vy.
  intros H. apply Z.leb_le in H. apply Z.leb_le. now apply rounded_mono.
Qed.

End NumFacts.


(** ** The reference bonus strategy *)

(** Two numbers that [===] tells apart are different values. *)
Lemma float_neq (x y : float) : (x =? y) = false -> (y =? y) = true -> x <> y.
Proof. intros Hxy Hyy ->. congruence. Qed.

(** C1, as stated, fails: for a sole seller with profit 10 the strategy is
    called with index 0 and total 1 and returns 1.5, not 0. *)
Lemma calculateBonusByProfit_sole_seller_not_zero :
  calculateBonusByProfit 0 1 (Sample.aSeller 10) = 1.5
  /\ calculateBonusByProfit 0 1 (Sample.aSeller 10) <> 0.
Proof.
  split; [ reflexivity | ].
  apply float_neq; reflexivity.
Qed.

(** C1 (amended): when the total number of sellers is 1, the sole seller is
    at index 0 and the first-rank branch is taken before the last-rank one:
    the bonus is [0.15 * profit], for every seller. *)
Theorem calculateBonusByProfit_sole_seller (seller : SellerStat) :
  calculateBonusByProfit 0 1 seller = profit seller * 0.15.
Proof. reflexivity. Qed.

(** C4, as stated, fails: with two sellers the last rank is index 1, and
    the strategy returns 10% of the profit there, not 0. *)
Lemma calculateBonusByProfit_last_of_two :
  (1 = 2 - 1)%Z
  /\ calculateBonusByProfit 1 2 (Sample.aSeller 10) = 1
  /\ calculateBonusByProfit 1 2 (Sample.aSeller 10) <> 0.
Proof.
  split; [ reflexivity | ].
  split; [ reflexivity | ].
  apply float_neq; reflexivity.
Qed.

(** C4 (amended): the branches are tried in order, so the last-rank rule
    applies only to an index other than 0, 1 and 2. *)
Theorem calculateBonusByProfit_table (index total : Z) (seller : SellerStat) :
  (index = 0%Z -> calculateBonusByProfit index total seller = profit seller * 0.15)
  /\ (index = 1%Z \/ index = 2%Z ->
      calculateBonusByProfit index total seller = profit seller * 0.10)
  /\ (index = (total - 1)%Z -> index <> 0%Z -> index <> 1%Z -> index <> 2%Z ->
      calculateBonusByProfit index total seller = 0)
  /\ (index <> 0%Z -> index <> 1%Z -> index <> 2%Z -> index <> (total - 1)%Z ->
      calculateBonusByProfit index total seller = profit seller * 0.05).
Proof.
  unfold calculateBonusByProfit.
  repeat split.
  - intros ->. reflexivity.
  - intros [-> | ->]; reflexivity.
  - intros Hlast H0 H1 H2.
    apply Z.eqb_neq in H0, H1, H2. apply Z.eqb_eq in Hlast.
    rewrite H0, H1, H2, Hlast. reflexivity.
  - intros H0 H1 H2 Hlast.
    apply Z.eqb_neq in H0, H1, H2, Hlast.
    rewrite H0, H1, H2, Hlast. reflexivity.
Qed.

(** The four cases at concrete ranks of a ranking of six sellers. *)
Lemma calculateBonusByProfit_table_witness :
  calculateBonusByProfit 0 6 (Sample.aSeller 10) = 10 * 0.15
  /\ calculateBonusByProfit 2 6 (Sample.aSeller 10) = 10 * 0.10
  /\ calculateBonusByProfit 5 6 (Sample.aSeller 10) = 0
  /\ calculateBonusByProfit 4 6 (Sample.aSeller 10) = 10 * 0.05.
Proof.
  split; [ | split; [ | split ] ].
  - apply (proj1 (calculateBonusByProfit_table 0 6 (Sample.aSeller 10))). reflexivity.
  - apply (proj1 (proj2 (calculateBonusByProfit_table 2 6 (Sample.aSeller 10)))). right. reflexivity.
  - apply (proj1 (proj2 (proj2 (calculateBonusByProfit_table 5 6 (Sample.aSeller 10)))));
      [ reflexivity | lia | lia | lia ].
  - apply (proj2 (proj2 (proj2 (calculateBonusByProfit_table 4 6 (Sample.aSeller 10))))); lia.
Defined.

(** ** The sort routine *)

Section SortFacts.
Context {A : Type} (compareFn : A -> A -> float).

Lemma place_perm (x : A) (l : list A) : place compareFn x l ≡ₚ x :: l.
Proof.
  induction l as [| y l IH]; simpl; [ reflexivity | ].
  destruct (before compareFn y x); [ | reflexivity ].
  rewrite IH. apply perm_swap.
Qed.

Lemma sort_perm (l : list A) : sort compareFn l ≡ₚ l.
Proof.
  induction l as [| x l IH]; simpl; [ reflexivity | ].
  rewrite place_perm. now rewrite IH.
Qed.

Lemma sort_length (l : list A) : length (sort compareFn l) = length l.
Proof. apply Permutation_length, sort_perm. Qed.

(** What the sort guarantees of two neighbours [a], [b] of its result, for
    any comparator: it saw [a] before [b], or it did not see [b] before
    [a]. *)
Definition inOrder (a b : A) : Prop :=
  before compareFn a b = true \/ before compareFn b a = false.

Lemma place_HdRel (x y : A) (l : list A) :
  HdRel inOrder y l -> before compareFn y x = true -> HdRel inOrder y (place compareFn x l).
Proof.
  intros Hy Hyx. destruct l as [| z l]; simpl.
  - constructor. now left.
  - destruct (before compareFn z x).
    + constructor. now inversion Hy.
    + constructor. now left.
Qed.

Lemma place_sorted (x : A) (l : list A) :
  Sorted inOrder l -> Sorted inOrder (place compareFn x l).
Proof.
  induction 1 as [| y l Hl IH Hy]; simpl.
  - repeat constructor.
  - destruct (before compareFn y x) eqn:Hyx.
    + constructor; [ exact IH | now apply place_HdRel ].
    + constructor; [ now constructor | ]. constructor. now right.
Qed.

Lemma sort_sorted (l : list A) : Sorted inOrder (sort compareFn l).
Proof.
  induction l as [| x l IH]; simpl; [ constructor | now apply place_sorted ].
Qed.

(** Stability: the elements that satisfy [P] keep their order, provided
    the comparator never puts one of them before another. *)
Lemma place_filter (P : A -> bool) (x : A) (l : list A) :
  (P x = true -> forall y, In y l -> P y = true -> before compareFn y x = false) ->
  List.filter P (place compareFn x l) = List.filter P (x :: l).
Proof.
  induction l as [| y l IH]; intros Hx; [ reflexivity | ].
  simpl. destruct (before compareFn y x) eqn:Hyx; [ | reflexivity ].
  simpl. rewrite IH by (intros Px z Hz; apply Hx; [ exact Px | now right ]).
  simpl. destruct (P x) eqn:Px; [ | reflexivity ].
  destruct (P y) eqn:Py; [ | reflexivity ].
  rewrite (Hx eq_refl y (or_introl eq_refl) Py) in Hyx. discriminate.
Qed.

Lemma sort_filter (P : A -> bool) (l : list A) :
  (forall x y, P x = true -> P y = true -> before compareFn y x = false) ->
  List.filter P (sort compareFn l) = List.filter P l.
Proof.
  intros HP. induction l as [| x l IH]; [ reflexivity | ].
  simpl sort. rewrite place_filter by (intros Px y _ Py; now apply HP).
  simpl. now rewrite IH.
Qed.

End SortFacts.

(** ** Input validation *)

(** What the specification asks of the input: [data] is present and each
    of the three collections is a non-empty array. *)
Definition nonEmptyArray {A : Type} (f : field A) : Prop :=
  exists x l, f = IsArray (x :: l).

Definition validData (data : option Data) : Prop :=
  exists d, data = Some d
    /\ nonEmptyArray (sellers d)
    /\ nonEmptyArray (products d)
    /\ nonEmptyArray (purchase_records d).

Lemma nonEmptyArray_iff {A : Type} (f : field A) :
  nonEmptyArray f <-> isArray f = true /\ (length (elements f) =? 0)%nat = false.
Proof.
  split.
  - intros (x & l & ->). split; reflexivity.
  - intros [Ha Hl]. destruct f as [| [| x l]]; try discriminate. now exists x, l.
Qed.

Lemma invalidInput_iff (data : option Data) :
  invalidInput data = false <-> validData data.
Proof.
  unfold validData. destruct data as [d |]; simpl.
  - rewrite !orb_false_iff, !negb_false_iff. split.
    + intros (((((Hs & Hp) & Hr) & Ls) & Lp) & Lr).
      exists d. repeat split; try (apply nonEmptyArray_iff; now split).
    + intros (d' & [= <-] & Hs & Hp & Hr).
      apply nonEmptyArray_iff in Hs, Hp, Hr. tauto.
  - split; [ discriminate | intros (d & [=] & _) ].
Qed.

(** The aggregation raises nothing but the [TypeError]. *)
Lemma sellRecords_throws calcRevenue sellerIndex productIndex sellerStats records e :
  sellRecords calcRevenue sellerIndex productIndex sellerStats records = Throw e ->
  e = TypeError.
Proof.
  revert sellerStats. induction records as [| record records IH]; intros sellerStats; simpl.
  - discriminate.
  - unfold sellRecord.
    destruct (getProp sellerIndex (seller_id record)) as [i | key |].
    + apply IH.
    + destruct (existsb _ _); [ now intros [= <-] | apply IH ].
    + apply IH.
Qed.

(** The inputs the specification rejects: [data] is null or missing, or one
    of the three collections is not an array, or is an empty one. *)
Definition notArrayOrEmpty {A : Type} (f : field A) : Prop :=
  f = NotArray \/ f = IsArray [].

Definition rejected (data : option Data) : Prop :=
  data = None
  \/ exists d, data = Some d
       /\ (notArrayOrEmpty (sellers d)
           \/ notArrayOrEmpty (products d)
           \/ notArrayOrEmpty (purchase_records d)).

Lemma notArrayOrEmpty_iff {A : Type} (f : field A) :
  notArrayOrEmpty f <-> negb (isArray f) || (length (elements f) =? 0)%nat = true.
Proof.
  unfold notArrayOrEmpty. destruct f as [| [| x l]]; simpl; split; auto;
    try discriminate.
  intros [H | H]; discriminate.
Qed.

Lemma invalidInput_rejected (data : option Data) :
  invalidInput data = true <-> rejected data.
Proof.
  unfold rejected. destruct data as [d |]; simpl.
  - rewrite !orb_true_iff. split.
    + intros H. right. exists d. split; [ reflexivity | ].
      rewrite !notArrayOrEmpty_iff, !orb_true_iff. tauto.
    + intros [[=] | (d' & [= <-] & H)].
      rewrite !notArrayOrEmpty_iff, !orb_true_iff in H. tauto.
  - split; auto.
Qed.

(** C5: [analyzeSalesData] throws the invalid-input error exactly when the
    data is null or missing, or one of [sellers], [products],
    [purchase_records] is not an array, or one of them is empty.  The test
    comes first: a single failing condition gives the error whatever the
    options are, and before anything is computed. *)
Theorem analyzeSalesData_InvalidInputError (data : option Data) (options : option Options) :
  analyzeSalesData data options = Throw InvalidInputError <-> rejected data.
Proof.
  rewrite <- invalidInput_rejected. unfold analyzeSalesData.
  destruct (invalidInput data) eqn:Hinv.
  - split; reflexivity.
  - split; [ | discriminate ].
    intros H. exfalso. destruct data as [d |]; [ | discriminate ].
    destruct options as [o |]; [ | discriminate ].
    destruct (calculateRevenue o), (calculateBonus o); try discriminate.
    destruct (aggregate _ _) eqn:Hs; [ discriminate | ].
    apply sellRecords_throws in Hs. congruence.
Qed.

(** ** The sellers of the report *)

Section AggregateFacts.
Variable calcRevenue : Item -> productArg -> float.
Variable sellerIndex : gmap string nat.
Variable productIndex : gmap string Product.

Lemma sellItem_id (seller : SellerStat) (item : Item) :
  id (sellItem calcRevenue productIndex seller item) = id seller.
Proof. unfold sellItem. now destruct (getProp productIndex (item_sku item)). Qed.

Lemma sellItems_id (items : list Item) (seller : SellerStat) :
  id (foldl (sellItem calcRevenue productIndex) seller items) = id seller.
Proof.
  revert seller. induction items as [| item items IH]; intros seller; simpl.
  - reflexivity.
  - now rewrite IH, sellItem_id.
Qed.

Lemma map_alter_id (f : SellerStat -> SellerStat) (i : nat) (l : list SellerStat) :
  (forall s, id (f s) = id s) -> map id (alter f i l) = map id l.
Proof.
  intros Hf. revert i. induction l as [| s l IH]; intros [| i]; simpl; try reflexivity.
  - now rewrite Hf.
  - f_equal. apply IH.
Qed.

Lemma sellRecord_ids sellerStats record sellerStats' :
  sellRecord calcRevenue sellerIndex productIndex sellerStats record = Ok sellerStats' ->
  map id sellerStats' = map id sellerStats.
Proof.
  unfold sellRecord.
  destruct (getProp sellerIndex (seller_id record)) as [i | key |].
  - intros [= <-]. apply map_alter_id. intros s. now rewrite sellItems_id.
  - destruct (existsb _ _); [ discriminate | now intros [= <-] ].
  - now intros [= <-].
Qed.

Lemma sellRecords_ids records sellerStats sellerStats' :
  sellRecords calcRevenue sellerIndex productIndex sellerStats records = Ok sellerStats' ->
  map id sellerStats' = map id sellerStats.
Proof.
  revert sellerStats. induction records as [| record records IH]; intros sellerStats; simpl.
  - now intros [= <-].
  - destruct (sellRecord _ _ _ sellerStats record) as [s1 |] eqn:H1; [ | discriminate ].
    intros H. rewrite (IH _ H). exact (sellRecord_ids _ _ _ H1).
Qed.

End AggregateFacts.

Lemma imap_map_stat {B : Type} (f : nat -> SellerStat -> B) (g : B -> SellerStat)
    (l : list SellerStat) :
  (forall i s, g (f i s) = s) -> map g (imap f l) = l.
Proof.
  revert f. induction l as [| s l IH]; intros f Hf; simpl; [ reflexivity | ].
  rewrite Hf. f_equal. apply IH. intros i s'. apply Hf.
Qed.

Lemma rank_stat calcBonus (sellerStats : list SellerStat) :
  map stat (rank calcBonus sellerStats) = sellerStats.
Proof. unfold rank. now apply imap_map_stat. Qed.

Lemma orEmpty_id (s : string) : orEmpty s = s.
Proof. now destruct s. Qed.

Lemma orZero_id (n : nat) : orZero n = n.
Proof. now destruct n. Qed.

Lemma newStat_id (l : list Seller) : map id (map newStat l) = map seller_ident l.
Proof. rewrite map_map. reflexivity. Qed.

(** A report is returned for valid data and two strategies only, and
    consists of the aggregation followed by the ranking. *)
Lemma analyzeSalesData_Ok data options rows :
  analyzeSalesData data options = Ok rows <->
  exists d o calcRevenue calcBonus sellerStats,
    data = Some d /\ invalidInput data = false
    /\ options = Some o
    /\ calculateRevenue o = Some calcRevenue
    /\ calculateBonus o = Some calcBonus
    /\ aggregate calcRevenue d = Ok sellerStats
    /\ rows = report calcBonus sellerStats.
Proof.
  unfold analyzeSalesData. split.
  - destruct (invalidInput data) eqn:Hinv; [ discriminate | ].
    destruct data as [d |]; [ | discriminate ].
    destruct options as [o |]; [ | discriminate ].
    destruct (calculateRevenue o) as [calcRevenue |] eqn:Hr; [ | discriminate ].
    destruct (calculateBonus o) as [calcBonus |] eqn:Hb; [ | discriminate ].
    destruct (aggregate calcRevenue d) as [sellerStats |] eqn:Hs; [ | discriminate ].
    intros [= <-]. now exists d, o, calcRevenue, calcBonus, sellerStats.
  - intros (d & o & calcRevenue & calcBonus & sellerStats
            & -> & -> & -> & -> & -> & -> & ->). reflexivity.
Qed.

Lemma aggregate_ids calcRevenue d sellerStats :
  aggregate calcRevenue d = Ok sellerStats ->
  map id sellerStats = map seller_ident (elements (sellers d)).
Proof.
  intros H. apply sellRecords_ids in H. now rewrite newStat_id in H.
Qed.

Lemma report_seller_ids calcBonus sellerStats :
  map row_seller_id (report calcBonus sellerStats) ≡ₚ map id sellerStats.
Proof.
  unfold report.
  rewrite <- (Permutation_map id (sort_perm byProfit sellerStats)).
  rewrite <- (rank_stat calcBonus (sort byProfit sellerStats)) at 2.
  rewrite !map_map. erewrite map_ext; [ reflexivity | ].
  intros r. simpl. apply orEmpty_id.
Qed.

(** The rows of a report are the sellers of the input, rearranged. *)
Lemma analyzeSalesData_sellers data options rows :
  analyzeSalesData data options = Ok rows ->
  exists d, data = Some d
    /\ map row_seller_id rows ≡ₚ map seller_ident (elements (sellers d)).
Proof.
  intros (d & o & calcRevenue & calcBonus & sellerStats
          & -> & _ & _ & _ & _ & Hs & ->)%analyzeSalesData_Ok.
  exists d. split; [ reflexivity | ].
  rewrite report_seller_ids. now rewrite (aggregate_ids _ _ _ Hs).
Qed.

(** C9: the report has one row per input seller, and the seller ids of its
    rows are, as a set, the ids of the input sellers. *)
Theorem analyzeSalesData_rows_sellers data options rows :
  analyzeSalesData data options = Ok rows ->
  exists d, data = Some d
    /\ length rows = length (elements (sellers d))
    /\ (list_to_set (map row_seller_id rows) : gset string)
       = list_to_set (map seller_ident (elements (sellers d))).
Proof.
  intros H. destruct (analyzeSalesData_sellers _ _ _ H) as (d & -> & Hperm).
  exists d. split; [ reflexivity | ]. split.
  - apply Permutation_length in Hperm. now rewrite !length_map in Hperm.
  - apply set_eq. intros x. rewrite !elem_of_list_to_set. now rewrite Hperm.
Qed.

(** ** The ranking *)

Lemma HdRel_weaken {A : Type} (P : A -> Prop) (R R' : A -> A -> Prop) (a : A) (l : list A) :
  (forall a b, P a -> P b -> R a b -> R' a b) ->
  P a -> Forall P l -> HdRel R a l -> HdRel R' a l.
Proof.
  intros HR Pa Pl H. destruct H as [| b l Hab]; constructor.
  apply HR; [ exact Pa | now inversion Pl | exact Hab ].
Qed.

Lemma Sorted_weaken {A : Type} (P : A -> Prop) (R R' : A -> A -> Prop) (l : list A) :
  (forall a b, P a -> P b -> R a b -> R' a b) ->
  Forall P l -> Sorted R l -> Sorted R' l.
Proof.
  intros HR Pl H. induction H as [| a l Hl IH Ha]; constructor.
  - apply IH. now inversion Pl.
  - inversion Pl; subst. now apply (HdRel_weaken P R R').
Qed.


(** The order of the program's two sorts, on numbers that are not NaN. *)
Definition descending {A : Type} (key : A -> float) (a b : A) : Prop :=
  Num.geb (key a) (key b) = true.

Lemma difference_inOrder {A : Type} (key : A -> float) (a b : A) :
  Num.isNaN (key a) = false -> Num.isNaN (key b) = false ->
  inOrder (fun a b => key b - key a) a b -> descending key a b.
Proof.
  unfold inOrder, before, descending, Num.negative, Num.geb, Num.isNaN.
  intros Na Nb. rewrite !NumFacts.sub_negative by assumption.
  intros [H | H].
  - now apply NumFacts.ltb_leb.
  - now apply NumFacts.ltb_false_leb.
Qed.

Lemma sort_descending {A : Type} (key : A -> float) (l : list A) :
  Forall (fun a => Num.isNaN (key a) = false) l ->
  Sorted (descending key) (sort (fun a b => key b - key a) l).
Proof.
  intros Hl.
  apply (Sorted_weaken (fun a => Num.isNaN (key a) = false)
                       (inOrder (fun a b => key b - key a))).
  - intros a b. apply difference_inOrder.
  - now rewrite sort_perm.
  - apply sort_sorted.
Qed.

(** Elements with the same key keep their order. *)
Lemma sort_stable {A : Type} (key : A -> float) (v : float) (l : list A) :
  List.filter (fun a => key a =? v) (sort (fun a b => key b - key a) l)
  = List.filter (fun a => key a =? v) l.
Proof.
  apply sort_filter. intros x y Hx Hy. unfold before, Num.negative.
  assert (Nx : PrimFloat.is_nan (key x) = false).
  { apply NumFacts.eqb_nonNaN_l in Hx. exact Hx. }
  assert (Ny : PrimFloat.is_nan (key y) = false).
  { apply NumFacts.eqb_nonNaN_l in Hy. exact Hy. }
  rewrite NumFacts.sub_negative by assumption.
  apply NumFacts.eqb_ltb. now apply (NumFacts.eqb_trans_sym _ _ v).
Qed.

(** ** The order of [Object.entries] *)

Section Entries.
Context {A : Type}.
Implicit Types (ps : list (string * A)) (kv : string * A).

Lemma insert_by_index_perm n kv (l : list (N * (string * A))) :
  insert_by_index n kv l ≡ₚ (n, kv) :: l.
Proof.
  induction l as [| [m kv'] l IH]; simpl; [ reflexivity | ].
  destruct (n <? m)%N; [ reflexivity | ].
  rewrite IH. apply perm_swap.
Qed.

Lemma indexed_perm ps :
  map snd (indexed ps) ≡ₚ List.filter (fun kv => bool_decide (key_index kv <> None)) ps.
Proof.
  induction ps as [| kv ps IH]; simpl; [ reflexivity | ].
  destruct (key_index kv) as [n |] eqn:Hk; simpl.
  - rewrite insert_by_index_perm. simpl. now rewrite IH.
  - exact IH.
Qed.

Lemma named_filter ps :
  named ps = List.filter (fun kv => bool_decide (key_index kv = None)) ps.
Proof.
  unfold named. induction ps as [| kv ps IH]; [ reflexivity | ].
  rewrite filter_cons. simpl. rewrite <- IH.
  destruct (decide (key_index kv = None)) as [H | H].
  - now rewrite bool_decide_eq_true_2.
  - now rewrite bool_decide_eq_false_2.
Qed.

(** [Object.entries] lists every own property once. *)
Lemma entries_perm ps : entries ps ≡ₚ ps.
Proof.
  unfold entries. rewrite indexed_perm, named_filter.
  induction ps as [| kv ps IH]; simpl; [ reflexivity | ].
  destruct (key_index kv) as [n |]; simpl.
  - now rewrite IH.
  - rewrite <- Permutation_middle. now rewrite IH.
Qed.






End Entries.

(** ** The counters of sold quantities *)


Lemma sold_get_In (ps : sold) (sku : string) (c : counter) :
  sold_get ps sku = Some c -> In (sku, c) ps.
Proof.
  induction ps as [| [k w] ps IH]; simpl; [ discriminate | ].
  destruct (String.eqb_spec k sku) as [-> | Hne].
  - intros [= ->]. now left.
  - intros H. right. now apply IH.
Qed.

Lemma sold_get_set_eq (ps : sold) (sku : string) (v : counter) :
  sold_get (sold_set ps sku v) sku = Some v.
Proof.
  induction ps as [| [k w] ps IH]; simpl.
  - now rewrite String.eqb_refl.
  - destruct (String.eqb k sku) eqn:E; simpl; rewrite E; [ reflexivity | exact IH ].
Qed.

Lemma sold_get_set_ne (ps : sold) (sku sku' : string) (v : counter) :
  sku' <> sku -> sold_get (sold_set ps sku v) sku' = sold_get ps sku'.
Proof.
  intros Hne. induction ps as [| [k w] ps IH]; simpl.
  - destruct (String.eqb_spec sku sku'); congruence.
  - destruct (String.eqb_spec k sku) as [-> | Hk]; simpl.
    + destruct (String.eqb_spec sku sku'); congruence.
    + destruct (String.eqb k sku'); [ reflexivity | exact IH ].
Qed.

(** An assignment keeps the keys in the order of their creation: the key
    of a new property comes last. *)
Lemma sold_set_keys (ps : sold) (sku : string) (v : counter) :
  map fst (sold_set ps sku v)
  = match sold_get ps sku with
    | Some _ => map fst ps
    | None => map fst ps ++ [sku]
    end.
Proof.
  induction ps as [| [k w] ps IH]; simpl; [ reflexivity | ].
  destruct (String.eqb k sku); simpl; [ reflexivity | ].
  rewrite IH. now destruct (sold_get ps sku).
Qed.





Section NumericFacts.
Variable calcRevenue : Item -> productArg -> float.
Variable sellerIndex : gmap string nat.
Variable productIndex : gmap string Product.





End NumericFacts.



(** ** The rows of the report *)

(** The row of the seller at a given rank. *)
Definition rowAt (calcBonus : Z -> Z -> SellerStat -> float) (total index : nat)
    (seller : SellerStat) : ReportRow :=
  toRow {| stat := seller;
           bonus := calcBonus (Z.of_nat index) (Z.of_nat total) seller;
           top_products := topProducts (products_sold seller) |}.

Lemma lookup_map {A B : Type} (f : A -> B) (l : list A) (i : nat) :
  map f l !! i = f <$> (l !! i).
Proof.
  revert i. induction l as [| x l IH]; intros [| i]; simpl; try reflexivity. apply IH.
Qed.

(** The formatter keeps the order of the ranking: the row at a position is
    the row of the seller ranked there. *)
Lemma report_lookup calcBonus (sellerStats : list SellerStat) (i : nat) :
  report calcBonus sellerStats !! i
  = rowAt calcBonus (length sellerStats) i <$> (sort byProfit sellerStats !! i).
Proof.
  unfold report, rank. rewrite lookup_map, list_lookup_imap, sort_length.
  now destruct (sort byProfit sellerStats !! i).
Qed.

Lemma report_length calcBonus (sellerStats : list SellerStat) :
  length (report calcBonus sellerStats) = length sellerStats.
Proof.
  unfold report, rank. now rewrite length_map, length_imap, sort_length.
Qed.

(** ** Top products *)





(** For the data of a report, the rows and the ranked sellers. *)
Lemma analyzeSalesData_ranked (d : Data) (o : Options) calcRevenue calcBonus rows :
  analyzeSalesData (Some d) (Some o) = Ok rows ->
  calculateRevenue o = Some calcRevenue ->
  calculateBonus o = Some calcBonus ->
  exists sellerStats,
    aggregate calcRevenue d = Ok sellerStats
    /\ rows = report calcBonus sellerStats.
Proof.
  intros (d' & o' & calcRevenue' & calcBonus' & sellerStats
          & [= <-] & _ & [= <-] & Hr & Hb & Hs & ->)%analyzeSalesData_Ok Hr' Hb'.
  rewrite Hr in Hr'. rewrite Hb in Hb'. injection Hr' as <-. injection Hb' as <-.
  now exists sellerStats.
Qed.





(** ** Records and items that name no seller or no product *)

Section SkipFacts.
Variable calcRevenue : Item -> productArg -> float.
Variable sellerIndex : gmap string nat.
Variable productIndex : gmap string Product.

(** A record whose seller id is neither the id of a seller nor a name
    inherited from [Object.prototype] is skipped. *)
Lemma sellRecord_unknown_seller sellerStats record :
  getProp sellerIndex (seller_id record) = Undefined ->
  sellRecord calcRevenue sellerIndex productIndex sellerStats record = Ok sellerStats.
Proof. unfold sellRecord. now intros ->. Qed.

(** An item whose SKU is neither the SKU of a product nor an inherited
    name is skipped. *)
Lemma sellItem_unknown_product seller item :
  getProp productIndex (item_sku item) = Undefined ->
  sellItem calcRevenue productIndex seller item = seller.
Proof. unfold sellItem. now intros ->. Qed.

Lemma getProp_plain {A : Type} (o : gmap string A) (key : string) :
  inherited key = false ->
  getProp o key = match o !! key with Some a => Own a | None => Undefined end.
Proof. unfold getProp. now intros ->. Qed.

(** Without inherited names among the seller ids the aggregation raises
    nothing. *)
Lemma sellRecords_returns records sellerStats :
  Forall (fun record => inherited (seller_id record) = false) records ->
  exists sellerStats',
    sellRecords calcRevenue sellerIndex productIndex sellerStats records = Ok sellerStats'.
Proof.
  intros H. revert sellerStats.
  induction H as [| record records Hrecord _ IH]; intros sellerStats; simpl.
  - now exists sellerStats.
  - unfold sellRecord. rewrite (getProp_plain _ _ Hrecord).
    destruct (sellerIndex !! seller_id record); apply IH.
Qed.

End SkipFacts.

(** For valid data without inherited names among the seller ids, and with
    both strategies, the function returns a report. *)
Lemma analyzeSalesData_returns (d : Data) (o : Options) calcRevenue calcBonus :
  invalidInput (Some d) = false ->
  calculateRevenue o = Some calcRevenue ->
  calculateBonus o = Some calcBonus ->
  Forall (fun record => inherited (seller_id record) = false)
         (elements (purchase_records d)) ->
  exists rows, analyzeSalesData (Some d) (Some o) = Ok rows.
Proof.
  intros Hvalid Hr Hb Hids. unfold analyzeSalesData. rewrite Hvalid, Hr, Hb.
  destruct (sellRecords_returns calcRevenue
              (indexSellers (map newStat (elements (sellers d))))
              (indexProducts (elements (products d)))
              (elements (purchase_records d))
              (map newStat (elements (sellers d))) Hids) as [sellerStats' Hs].
  unfold aggregate. rewrite Hs. now eexists.
Qed.

(** C2: the claim holds of the intended behaviour, not of the code, which
    looks ids and SKUs up in plain objects.  The record of
    [Sample.inheritedSeller] names no seller, but its seller id
    [toString] is found in [sellerIndex] as an inherited method: the
    record is not skipped and the first item raises a [TypeError].  The
    second item of [Sample.inheritedSku] names no product, but its SKU
    [valueOf] is found in [productIndex]: it turns the seller's profit,
    10 without the item, into NaN, reported as 0, and appears among the
    top products. *)
Theorem analyzeSalesData_inherited_names :
  Forall (fun seller => seller_ident seller <> "toString"%string)
         (elements (sellers Sample.inheritedSeller))
  /\ analyzeSalesData (Some Sample.inheritedSeller) (Some referenceOptions)
     = Throw TypeError
  /\ Forall (fun product => product_sku product <> "valueOf"%string)
            (elements (products Sample.inheritedSku))
  /\ (exists row row',
        analyzeSalesData (Some Sample.single) (Some referenceOptions) = Ok [row]
        /\ analyzeSalesData (Some Sample.inheritedSku) (Some referenceOptions) = Ok [row']
        /\ row_profit row = 10
        /\ row_profit row' = 0
        /\ row_top_products row = [("pen", QNum 2)]%string
        /\ row_top_products row' = [("pen", QNum 2); ("valueOf", QText)]%string).
Proof.
  split; [ repeat constructor; discriminate | ].
  split; [ vm_compute; reflexivity | ].
  split; [ repeat constructor; discriminate | ].
  eexists. eexists.
  split; [ vm_compute; reflexivity | ].
  split; [ vm_compute; reflexivity | ].
  repeat split.
Qed.

(** ** The two indices *)

Lemma fromEntries_snoc {A : Type} (l : list (string * A)) (kv : string * A) :
  fromEntries (l ++ [kv]) = <[kv.1 := kv.2]> (fromEntries l).
Proof. unfold fromEntries. now rewrite foldl_app. Qed.

(** A key of the index is the key of an entry, with the value of that
    entry. *)
Lemma fromEntries_lookup_In {A : Type} (l : list (string * A)) (k : string) (v : A) :
  fromEntries l !! k = Some v -> In (k, v) l.
Proof.
  induction l as [| [k' v'] l IH] using rev_ind; [ discriminate | ].
  rewrite fromEntries_snoc, in_app_iff. simpl.
  destruct (decide (k' = k)) as [-> | Hne].
  - rewrite lookup_insert_eq. intros [= ->]. right. now left.
  - rewrite lookup_insert_ne by exact Hne. intros H. left. now apply IH.
Qed.

(** The key of every entry is a key of the index. *)
Lemma fromEntries_known {A : Type} (l : list (string * A)) (k : string) :
  In k (map fst l) -> exists v, fromEntries l !! k = Some v.
Proof.
  induction l as [| [k' v'] l IH] using rev_ind; [ intros [] | ].
  rewrite fromEntries_snoc, map_app, in_app_iff. simpl.
  destruct (decide (k' = k)) as [-> | Hne].
  - intros _. exists v'. apply lookup_insert_eq.
  - rewrite lookup_insert_ne by exact Hne. intros [H | [H | []]]; [ now apply IH | congruence ].
Qed.

Lemma imap_In {A B : Type} (f : nat -> A -> B) (l : list A) (b : B) :
  In b (imap f l) -> exists i a, l !! i = Some a /\ b = f i a.
Proof.
  revert f. induction l as [| a l IH]; intros f; simpl; [ intros [] | ].
  intros [<- | H].
  - now exists 0%nat, a.
  - destruct (IH _ H) as (i & a' & Hi & ->). now exists (S i), a'.
Qed.

Lemma imap_fst_id (g : nat -> nat) (sellerStats : list SellerStat) :
  map fst (imap (fun i seller => (id seller, g i)) sellerStats) = map id sellerStats.
Proof.
  revert g. induction sellerStats as [| s l IH]; intros g; [ reflexivity | ].
  simpl. f_equal. apply (IH (g ∘ S)).
Qed.

Lemma indexSellers_known (sellerStats : list SellerStat) (key : string) :
  In key (map id sellerStats) ->
  exists i seller,
    getProp (indexSellers sellerStats) key = Own i
    /\ sellerStats !! i = Some seller /\ id seller = key.
Proof.
  intros H. unfold indexSellers, getProp.
  rewrite <- (imap_fst_id (fun i => i)) in H.
  apply fromEntries_known in H as [i Hi]. rewrite Hi.
  apply fromEntries_lookup_In, imap_In in Hi as (j & seller & Hj & [= -> ->]).
  now exists j, seller.
Qed.

Lemma indexProducts_known (products : list Product) (key : string) :
  In key (map product_sku products) ->
  exists product,
    getProp (indexProducts products) key = Own product
    /\ In product products /\ product_sku product = key.
Proof.
  intros H. unfold indexProducts, getProp.
  assert (H' : In key (map fst (map (fun product => (product_sku product, product)) products)))
    by now rewrite map_map.
  apply fromEntries_known in H' as [product Hp]. rewrite Hp.
  apply fromEntries_lookup_In, in_map_iff in Hp as (p & [= <- <-] & Hin).
  now exists p.
Qed.

Lemma alter_lookup {A : Type} (f : A -> A) (i : nat) (l : list A) (x : A) :
  l !! i = Some x -> alter f i l = <[i := f x]> l.
Proof.
  revert i. induction l as [| y l IH]; intros [| i]; simpl; try discriminate.
  - now intros [= ->].
  - intros H. f_equal. now apply IH.
Qed.

Lemma lookup_same_ids (l l' : list SellerStat) (i : nat) (s : SellerStat) :
  map id l = map id l' -> l' !! i = Some s ->
  exists s', l !! i = Some s' /\ id s' = id s.
Proof.
  intros Hids Hi.
  assert (H : map id l !! i = Some (id s)) by (rewrite Hids, lookup_map, Hi; reflexivity).
  rewrite lookup_map in H. destruct (l !! i) as [s' |]; [ | discriminate ].
  injection H as H. now exists s'.
Qed.

(** ** The aggregation step *)

Section StepFacts.
Variable calcRevenue : Item -> productArg -> float.
Variable productIndex : gmap string Product.

Lemma sellItem_sales_count (seller : SellerStat) (item : Item) :
  sales_count (sellItem calcRevenue productIndex seller item) = sales_count seller.
Proof. unfold sellItem. now destruct (getProp productIndex (item_sku item)). Qed.

Lemma sellItem_revenue (seller : SellerStat) (item : Item) :
  revenue (sellItem calcRevenue productIndex seller item) = revenue seller.
Proof. unfold sellItem. now destruct (getProp productIndex (item_sku item)). Qed.

Lemma sellItems_sales_count (items : list Item) (seller : SellerStat) :
  sales_count (foldl (sellItem calcRevenue productIndex) seller items) = sales_count seller.
Proof.
  revert seller. induction items as [| item items IH]; intros seller; simpl;
    [ reflexivity | now rewrite IH, sellItem_sales_count ].
Qed.

Lemma sellItems_revenue (items : list Item) (seller : SellerStat) :
  revenue (foldl (sellItem calcRevenue productIndex) seller items) = revenue seller.
Proof.
  revert seller. induction items as [| item items IH]; intros seller; simpl;
    [ reflexivity | now rewrite IH, sellItem_revenue ].
Qed.

End StepFacts.

(** The value a counter is added to: the counter itself, or 0 when the
    counter is absent or falsy (zero or NaN). *)
Definition running (c : option counter) : float :=
  match c with
  | Some (QNum v) => if Num.falsy v then 0 else v
  | _ => 0
  end.

Lemma countSold_counter (ps : sold) (sku : string) (q : float) :
  inherited sku = false ->
  sold_get ps sku <> Some QText ->
  sold_get (countSold ps sku q) sku = Some (QNum (running (sold_get ps sku) + q))
  /\ forall sku', sku' <> sku -> sold_get (countSold ps sku q) sku' = sold_get ps sku'.
Proof.
  intros Hsku Htext. unfold countSold, running.
  destruct (sold_get ps sku) as [[v |] |]; [ | congruence | ].
  - simpl. split; [ | intros sku' Hne; now apply sold_get_set_ne ].
    rewrite sold_get_set_eq. now destruct (Num.falsy v).
  - rewrite Hsku. split; [ apply sold_get_set_eq | intros sku' Hne; now apply sold_get_set_ne ].
Qed.

(** C3, as stated, fails.  In [Sample.restart] the seller sells the same
    product twice, with the quantities NaN and 5: the counter is NaN after
    the first item, and the second item starts again from 0 instead of
    adding 5 to it.  In [Sample.inheritedProduct] the SKU of the product is
    [valueOf]: the counter is not initialised to 0 and becomes a string. *)
Lemma counter_not_added_to :
  (exists seller,
     aggregate calculateSimpleRevenue Sample.restart = Ok [seller]
     /\ products_sold seller = [("pen", QNum 5)]%string
     /\ Num.isNaN (0 + nan + 5) = true
     /\ Num.isNaN 5 = false)
  /\ (exists seller,
        aggregate calculateSimpleRevenue Sample.inheritedProduct = Ok [seller]
        /\ products_sold seller = [("valueOf", QText)]%string
        /\ products_sold seller <> [("valueOf", QNum (0 + 2))]%string).
Proof.
  split.
  - eexists. split; [ vm_compute; reflexivity | ]. repeat split.
  - eexists. split; [ vm_compute; reflexivity | ].
    split; [ reflexivity | discriminate ].
Qed.

(** C3 (amended): a record whose seller id is the id of a seller is
    counted on that seller's object ([sales_count] one more, [revenue]
    increased by [total_amount]), then its items are processed in input
    order, before the following records.  An item whose SKU is the SKU of
    a product adds [calculateRevenue(item, product) - purchase_price *
    quantity] to the profit; if the SKU is not a name inherited from
    [Object.prototype], the item sets the counter of the SKU to
    [c + quantity], where [c] is the counter, or 0 when the counter is
    absent, zero or NaN, and leaves the other counters as they are. *)
Theorem sellRecord_known_seller calcRevenue (sellerStats0 sellerStats : list SellerStat)
    (products : list Product) (record : PurchaseRecord) (records : list PurchaseRecord) :
  map id sellerStats = map id sellerStats0 ->
  In (seller_id record) (map id sellerStats0) ->
  let sellerIndex := indexSellers sellerStats0 in
  let productIndex := indexProducts products in
  exists i seller,
    sellerStats !! i = Some seller
    /\ id seller = seller_id record
    /\ let seller' := foldl (sellItem calcRevenue productIndex)
                            (countSale seller record) (items record) in
       sellRecord calcRevenue sellerIndex productIndex sellerStats record
       = Ok (<[i := seller']> sellerStats)
       /\ sellRecords calcRevenue sellerIndex productIndex sellerStats (record :: records)
          = sellRecords calcRevenue sellerIndex productIndex (<[i := seller']> sellerStats) records
       /\ sales_count seller' = (sales_count seller + 1)%nat
       /\ revenue seller' = revenue seller + total_amount record
       /\ forall (s : SellerStat) (item : Item),
            In (item_sku item) (map product_sku products) ->
            exists product,
              In product products
              /\ product_sku product = item_sku item
              /\ profit (sellItem calcRevenue productIndex s item)
                 = profit s + (calcRevenue item (ProductObj product)
                               - purchase_price product * quantity item)
              /\ (inherited (item_sku item) = false ->
                  sold_get (products_sold s) (item_sku item) <> Some QText ->
                  sold_get (products_sold (sellItem calcRevenue productIndex s item))
                           (item_sku item)
                  = Some (QNum (running (sold_get (products_sold s) (item_sku item))
                                + quantity item))
                  /\ forall sku', sku' <> item_sku item ->
                       sold_get (products_sold (sellItem calcRevenue productIndex s item)) sku'
                       = sold_get (products_sold s) sku').
Proof.
  intros Hids Hknown sellerIndex productIndex.
  destruct (indexSellers_known _ _ Hknown) as (i & seller0 & Hi & Hseller0 & Hid0).
  destruct (lookup_same_ids _ _ _ _ Hids Hseller0) as (seller & Hseller & Hid).
  exists i, seller. split; [ exact Hseller | ]. split; [ congruence | ].
  assert (Hrecord : sellRecord calcRevenue sellerIndex productIndex sellerStats record
                    = Ok (<[i := foldl (sellItem calcRevenue productIndex)
                                       (countSale seller record) (items record)]> sellerStats)).
  { unfold sellRecord. fold sellerIndex in Hi. rewrite Hi.
    now rewrite (alter_lookup _ _ _ _ Hseller). }
  cbv zeta. split; [ exact Hrecord | ].
  split; [ simpl; now rewrite Hrecord | ].
  split; [ now rewrite sellItems_sales_count | ].
  split; [ now rewrite sellItems_revenue | ].
  intros s item Hitem.
  destruct (indexProducts_known _ _ Hitem) as (product & Hp & Hin & Hsku).
  exists product. split; [ exact Hin | ]. split; [ exact Hsku | ].
  unfold sellItem. fold productIndex in Hp. rewrite Hp. simpl.
  split; [ reflexivity | ].
  intros Hplain Htext. now apply countSold_counter.
Qed.

Lemma sellRecord_known_seller_witness :
  let sellerStats := map newStat [Sample.ann; Sample.bob] in
  let record := mkRecord "s1" 9 [Sample.onePen] in
  exists i seller,
    sellerStats !! i = Some seller
    /\ id seller = "s1"%string
    /\ sellRecord calculateSimpleRevenue (indexSellers sellerStats)
                  (indexProducts [Sample.pen; Sample.ink]) sellerStats record
       = Ok (<[i := foldl (sellItem calculateSimpleRevenue
                                    (indexProducts [Sample.pen; Sample.ink]))
                          (countSale seller record) (items record)]> sellerStats).
Proof.
  intros sellerStats record.
  destruct (sellRecord_known_seller calculateSimpleRevenue sellerStats sellerStats
              [Sample.pen; Sample.ink] record [] eq_refl (or_introl eq_refl))
    as (i & seller & Hseller & Hid & Hrecord & _).
  exists i, seller. split; [ exact Hseller | ]. split; [ exact Hid | exact Hrecord ].
Defined.

(** ** The order of the rows *)

(** Every row is the row of the seller ranked at its position. *)
Lemma report_rows calcBonus (sellerStats : list SellerStat) (i : nat) (row : ReportRow) :
  report calcBonus sellerStats !! i = Some row ->
  exists seller,
    sort byProfit sellerStats !! i = Some seller
    /\ row = rowAt calcBonus (length sellerStats) i seller.
Proof.
  rewrite report_lookup. destruct (sort byProfit sellerStats !! i) as [seller |];
    [ | discriminate ].
  intros [= <-]. now exists seller.
Qed.

Lemma ranking_descending (sellerStats : list SellerStat) :
  Forall (fun seller => Num.isNaN (profit seller) = false) sellerStats ->
  Sorted (descending profit) (sort byProfit sellerStats).
Proof. apply (sort_descending profit). Qed.

Lemma analyzeSalesData_rows_sellers_witness :
  exists rows,
    analyzeSalesData (Some Sample.shop) (Some referenceOptions) = Ok rows
    /\ exists d, Some Sample.shop = Some d
         /\ length rows = length (elements (sellers d))
         /\ (list_to_set (map row_seller_id rows) : gset string)
            = list_to_set (map seller_ident (elements (sellers d))).
Proof.
  eexists. split; [ vm_compute; reflexivity | ].
  apply (analyzeSalesData_rows_sellers (Some Sample.shop) (Some referenceOptions)).
  vm_compute; reflexivity.
Defined.

(** ** The numbers of a row *)

(** [y] is [x] with two decimals: below [1e21] its value is that of the
    number nearest to [n / 100], where [n] is the integer nearest to a
    hundred times the value of [x] (the larger in magnitude of two equally
    near); from [1e21] on, where every number is an integer, it is the
    value of [x]. *)
Definition twoDecimals (x y : float) : Prop :=
  exists W : Z,
    NumFacts.value y = (Z.sgn (NumFacts.value x) * W)%Z
    /\ if (NumFacts.limit <=? Z.abs (NumFacts.value x))%Z
       then W = Z.abs (NumFacts.value x)
       else let n := NumFacts.hundredthsOf (Z.abs (NumFacts.value x)) in
            (n = 0%Z /\ W = 0%Z)
            \/ ((0 < n)%Z /\ exists m g : Z, W = (m * g)%Z /\ Rounding.nearest n m g).

Lemma ratio_nearest (n : Z) :
  (0 <= n <= 10 ^ 23)%Z ->
  (n = 0%Z /\ Rounding.ratio n = 0%Z)
  \/ ((0 < n)%Z /\ exists m g : Z, Rounding.ratio n = (m * g)%Z /\ Rounding.nearest n m g).
Proof.
  intros [L U]. destruct n as [| p | p]; try lia.
  - left. now split.
  - right. split; [ lia | ].
    destruct (Rounding.nearest_ratio_100 p U) as (m & e & m2 & g & Hres & _ & _ & Hval & Hnear).
    exists m2, g. split; [ | exact Hnear ].
    unfold Rounding.ratio. rewrite Hres. exact Hval.
Qed.

Lemma toFixed2_twoDecimals (x : float) :
  Num.isNaN x = false -> twoDecimals x (Num.toFixed2 x).
Proof.
  intros N. destruct (NumFacts.toFixed2_value x N) as (_ & Hv & _).
  unfold NumFacts.rounded, NumFacts.fixed in Hv.
  exists (NumFacts.fixed (Z.abs (NumFacts.value x))). split; [ exact Hv | ].
  unfold NumFacts.fixed.
  destruct (Z.leb_spec NumFacts.limit (Z.abs (NumFacts.value x))) as [L | L];
    [ reflexivity | ].
  apply ratio_nearest. split.
  - apply NumFacts.hundredthsOf_nonneg, Z.abs_nonneg.
  - now apply NumFacts.hundredthsOf_limit.
Qed.

(** What the formatter makes of an accumulated number. *)
Definition normalized (accumulated field : float) : Prop :=
  (Num.isNaN accumulated = true -> field = 0)
  /\ (Num.isNaN accumulated = false ->
      field = Num.toFixed2 accumulated /\ twoDecimals accumulated field)
  /\ Num.isNaN field = false
  /\ (Num.is_finite field = false -> Num.is_finite accumulated = false
      /\ Num.isNaN accumulated = false /\ field = accumulated).

Lemma toFixed2_infinite (x : float) :
  Num.isNaN x = false -> Num.is_finite x = false -> Num.toFixed2 x = x.
Proof.
  intros N F. unfold Num.toFixed2.
  destruct (Prim2SF x) as [s | s | | s m e] eqn:E; try reflexivity.
  - assert (H : Num.is_finite x = true) by (apply NumFacts.is_finite_spec; now rewrite E).
    congruence.
  - assert (H : Num.is_finite x = true) by (apply NumFacts.is_finite_spec; now rewrite E).
    congruence.
Qed.

Lemma normalize_normalized (x : float) : normalized x (normalize x).
Proof.
  unfold normalized, normalize. destruct (Num.isNaN x) eqn:N.
  - repeat split; try discriminate.
  - destruct (NumFacts.toFixed2_value x N) as (N' & _ & F).
    repeat split; try discriminate; try assumption.
    + now apply toFixed2_twoDecimals.
    + destruct (Num.is_finite x) eqn:Fx; [ | reflexivity ].
      unfold Num.is_finite in *. rewrite (F Fx) in H. discriminate.
    + apply toFixed2_infinite; [ exact N | ].
      destruct (Num.is_finite x) eqn:Fx; [ | reflexivity ].
      unfold Num.is_finite in *. rewrite (F Fx) in H. discriminate.
Qed.

(** The formatter keeps the order of two numbers. *)
Lemma normalize_mono (x y : float) :
  Num.isNaN x = false -> Num.isNaN y = false ->
  Num.geb x y = true -> Num.geb (normalize x) (normalize y) = true.
Proof.
  intros Nx Ny H. unfold normalize. rewrite Nx, Ny.
  now apply NumFacts.toFixed2_mono.
Qed.

Lemma Sorted_adjacent {A : Type} (R : A -> A -> Prop) (l : list A) (i : nat) (a b : A) :
  Sorted R l -> l !! i = Some a -> l !! S i = Some b -> R a b.
Proof.
  intros H. revert i. induction H as [| x l Hs IH Hd]; intros i Ha Hb; [ discriminate | ].
  destruct i as [| i].
  - injection Ha as ->. destruct Hd as [| y l Hxy]; [ discriminate | ].
    injection Hb as ->. exact Hxy.
  - apply (IH i); assumption.
Qed.

(** C6, as stated, fails: the profit of the second seller is
    [Infinity - Infinity], which is NaN; the comparator then returns NaN,
    the sort leaves the two sellers in place and the formatter writes 0 for
    NaN: the profits of the rows are -1 and 0. *)
Lemma rows_not_in_descending_order :
  invalidInput (Some Sample.overflow) = false
  /\ exists r1 r2,
       analyzeSalesData (Some Sample.overflow) (Some referenceOptions) = Ok [r1; r2]
       /\ Num.geb (row_profit r1) (row_profit r2) = false.
Proof. split; [ reflexivity | ]. eexists _, _. split; vm_compute; reflexivity. Qed.

(** C6 (amended): when no seller's accumulated profit is NaN, the profit
    of every row is at least the profit of the next row; the row at a
    position is the row of the seller that the sort has put there, and the
    sellers are in descending order of their accumulated profit. *)
Theorem analyzeSalesData_descending_profit (d : Data) (o : Options)
    calcRevenue calcBonus rows sellerStats :
  analyzeSalesData (Some d) (Some o) = Ok rows ->
  calculateRevenue o = Some calcRevenue ->
  calculateBonus o = Some calcBonus ->
  aggregate calcRevenue d = Ok sellerStats ->
  Forall (fun seller => Num.isNaN (profit seller) = false) sellerStats ->
  (forall i r1 r2, rows !! i = Some r1 -> rows !! S i = Some r2 ->
     Num.geb (row_profit r1) (row_profit r2) = true)
  /\ (forall i row, rows !! i = Some row ->
        exists seller,
          sort byProfit sellerStats !! i = Some seller
          /\ row = rowAt calcBonus (length sellerStats) i seller)
  /\ Sorted (descending profit) (sort byProfit sellerStats).
Proof.
  intros Hrows Hr Hb Hs Hnum.
  destruct (analyzeSalesData_ranked _ _ _ _ _ Hrows Hr Hb) as (sellerStats' & Hs' & ->).
  rewrite Hs in Hs'. injection Hs' as <-.
  pose proof (ranking_descending sellerStats Hnum) as Hsorted.
  assert (Hnum' : forall i seller, sort byProfit sellerStats !! i = Some seller ->
                    Num.isNaN (profit seller) = false).
  { intros i seller Hi. rewrite <- (sort_perm byProfit) in Hnum.
    rewrite List.Forall_forall in Hnum. apply Hnum.
    apply list_elem_of_In. now apply (list_elem_of_lookup_2 _ i). }
  split; [ | split; [ apply report_rows | exact Hsorted ] ].
  intros i r1 r2 H1 H2.
  apply report_rows in H1 as (s1 & Hs1 & ->). apply report_rows in H2 as (s2 & Hs2 & ->).
  cbn [rowAt toRow row_profit stat].
  apply normalize_mono; [ now apply (Hnum' i) | now apply (Hnum' (S i)) | ].
  apply (Sorted_adjacent _ _ i _ _ Hsorted Hs1 Hs2).
Qed.

Lemma analyzeSalesData_descending_profit_witness :
  exists rows,
    analyzeSalesData (Some Sample.shop) (Some referenceOptions) = Ok rows
    /\ exists sellerStats,
         aggregate calculateSimpleRevenue Sample.shop = Ok sellerStats
         /\ (forall i r1 r2, rows !! i = Some r1 -> rows !! S i = Some r2 ->
               Num.geb (row_profit r1) (row_profit r2) = true)
         /\ (forall i row, rows !! i = Some row ->
               exists seller,
                 sort byProfit sellerStats !! i = Some seller
                 /\ row = rowAt calculateBonusByProfit (length sellerStats) i seller)
         /\ Sorted (descending profit) (sort byProfit sellerStats).
Proof.
  eexists. split; [ vm_compute; reflexivity | ].
  eexists. split; [ vm_compute; reflexivity | ].
  apply (analyzeSalesData_descending_profit Sample.shop referenceOptions
           calculateSimpleRevenue calculateBonusByProfit).
  - vm_compute; reflexivity.
  - reflexivity.
  - reflexivity.
  - vm_compute; reflexivity.
  - repeat constructor.
Defined.

(** C8, as stated, fails: two amounts of 1e308 add up to [Infinity],
    which [toFixed] prints as such: the revenue of the row is not
    finite. *)
Lemma revenue_not_finite :
  invalidInput (Some Sample.hugeAmounts) = false
  /\ exists row,
       analyzeSalesData (Some Sample.hugeAmounts) (Some referenceOptions) = Ok [row]
       /\ Num.is_finite (row_revenue row) = false.
Proof. split; [ reflexivity | ]. eexists. split; vm_compute; reflexivity. Qed.

(** C8 (amended): in every row, each of the revenue, the profit and the
    bonus is 0 when the accumulated value is NaN and the accumulated value
    with two decimals otherwise; it is never NaN, and it is finite unless
    the accumulated value is an infinity, which the row then has. *)
Theorem analyzeSalesData_normalized (d : Data) (o : Options)
    calcRevenue calcBonus rows :
  analyzeSalesData (Some d) (Some o) = Ok rows ->
  calculateRevenue o = Some calcRevenue ->
  calculateBonus o = Some calcBonus ->
  exists sellerStats,
    aggregate calcRevenue d = Ok sellerStats
    /\ forall i row, rows !! i = Some row ->
       exists seller,
         sort byProfit sellerStats !! i = Some seller
         /\ normalized (revenue seller) (row_revenue row)
         /\ normalized (profit seller) (row_profit row)
         /\ normalized (calcBonus (Z.of_nat i) (Z.of_nat (length sellerStats)) seller)
                       (row_bonus row).
Proof.
  intros Hrows Hr Hb.
  destruct (analyzeSalesData_ranked _ _ _ _ _ Hrows Hr Hb) as (sellerStats & Hs & ->).
  exists sellerStats. split; [ exact Hs | ].
  intros i row (seller & Hseller & ->)%report_rows.
  exists seller. split; [ exact Hseller | ].
  cbn [rowAt toRow row_revenue row_profit row_bonus stat bonus].
  split; [ | split ]; apply normalize_normalized.
Qed.

Lemma analyzeSalesData_normalized_witness :
  exists rows,
    analyzeSalesData (Some Sample.shop) (Some referenceOptions) = Ok rows
    /\ exists sellerStats,
         aggregate calculateSimpleRevenue Sample.shop = Ok sellerStats
         /\ forall i row, rows !! i = Some row ->
            exists seller,
              sort byProfit sellerStats !! i = Some seller
              /\ normalized (revenue seller) (row_revenue row)
              /\ normalized (profit seller) (row_profit row)
              /\ normalized (calculateBonusByProfit (Z.of_nat i)
                               (Z.of_nat (length sellerStats)) seller)
                            (row_bonus row).
Proof.
  eexists. split; [ vm_compute; reflexivity | ].
  apply (analyzeSalesData_normalized Sample.shop referenceOptions
           calculateSimpleRevenue calculateBonusByProfit).
  - vm_compute; reflexivity.
  - reflexivity.
  - reflexivity.
Defined.

(** ** The store: what a call may change *)

Module StoreFacts.
Import Store.
Local Open Scope nat_scope.
Local Open Scope store_scope.

Section Frame.

(** The store before the call; its objects are at the locations below
    [length h0]. *)
Variable h0 : list object.

(** The assignments made to inherited objects before the call. *)
Variable r0 : list (string * string).

(** A property of the seller ids of the purchase records of the store. *)
Variable sellerId : string -> Prop.
Hypothesis records_h0 :
  forall l sid total itemsLoc added,
    h0 !! l = Some (CRecord sid total itemsLoc, added) -> sellerId sid.

Definition fresh (l : loc) : Prop := length h0 <= l.

(** The references in a new object that the program assigns through; no
    new object is a purchase record. *)
Definition closed (c : cell) : Prop :=
  match c with
  | CStat s => fresh (st_products_sold s)
  | CArray elems => Forall fresh elems
  | CRecord _ _ _ => False
  | _ => True
  end.

Definition indexFresh (m : gmap string loc) : Prop :=
  forall k l, m !! k = Some l -> fresh l.

(** [sellerIndex], once it exists, refers to new objects only. *)
Definition indexOk (sellerIndex : option loc) (h : list object) : Prop :=
  match sellerIndex with
  | None => True
  | Some i => exists m added, h !! i = Some (CIndex m, added) /\ indexFresh m
  end.

(** The assignments to inherited objects since the call began. *)
Definition tainted (r : list (string * string)) : Prop :=
  exists taints,
    r = taints ++ r0
    /\ Forall (fun kp => inherited kp.1 = true /\ sellerId kp.1) taints.

Record Inv (sellerIndex : option loc) (st : state) : Prop := mkInv {
  inv_frame : h0 `prefix_of` heap st;
  inv_closed : forall l c added, heap st !! l = Some (c, added) -> fresh l -> closed c;
  inv_index : indexOk sellerIndex (heap st);
  inv_realm : tainted (realm st) }.

Lemma Inv_weaken si st : Inv si st -> Inv None st.
Proof. intros [H1 H2 _ H4]. now constructor. Qed.

(** The purchase records of the store are those it had before the call. *)
Lemma Inv_records si st (l : loc) sid total itemsLoc added :
  Inv si st -> heap st !! l = Some (CRecord sid total itemsLoc, added) -> sellerId sid.
Proof.
  intros H Hl. destruct (le_lt_dec (length h0) l) as [Hfresh | Hold].
  - exact (False_ind _ (inv_closed _ _ H _ _ _ Hl Hfresh)).
  - destruct (inv_frame _ _ H) as [k Hk]. rewrite Hk, lookup_app_l in Hl by exact Hold.
    exact (records_h0 _ _ _ _ _ Hl).
Qed.

(** A computation that keeps the invariant, with a property of its
    result. *)
Definition hoare {A : Type} (P : state -> Prop) (c : M A) (Q : A -> state -> Prop) : Prop :=
  forall st, P st ->
    match c st with
    | (Ok a, st') => Q a st'
    | (Throw _, st') => Inv None st'
    end.

Definition triple (si : option loc) {A : Type} (c : M A) (Q : A -> Prop) : Prop :=
  hoare (Inv si) c (fun a st' => Q a /\ Inv si st').

Lemma hoare_bind {A B : Type} P (c : M A) Q (k : A -> M B) R :
  hoare P c Q -> (forall a, hoare (Q a) (k a) R) -> hoare P (bind c k) R.
Proof.
  intros Hc Hk st HP. unfold bind. specialize (Hc st HP).
  destruct (c st) as [[a | e] st']; [ now apply Hk | exact Hc ].
Qed.

Lemma hoare_pre {A : Type} (P P' : state -> Prop) (c : M A) Q :
  (forall st, P' st -> P st) -> hoare P c Q -> hoare P' c Q.
Proof. intros HP Hc st H. apply Hc, HP, H. Qed.

Lemma hoare_post {A : Type} P (c : M A) (Q Q' : A -> state -> Prop) :
  (forall a st, Q a st -> Q' a st) -> hoare P c Q -> hoare P c Q'.
Proof.
  intros HQ Hc st H. specialize (Hc st H).
  destruct (c st) as [[a | e] st']; [ now apply HQ | exact Hc ].
Qed.

Lemma triple_ret si {A : Type} (a : A) (Q : A -> Prop) : Q a -> triple si (ret a) Q.
Proof. intros HQ st H. now split. Qed.

Lemma triple_throw si {A : Type} (e : error) (Q : A -> Prop) : triple si (throw e) Q.
Proof. intros st H. simpl. now apply Inv_weaken in H. Qed.

Lemma triple_bind si {A B : Type} (c : M A) (Q : A -> Prop) (k : A -> M B) (R : B -> Prop) :
  triple si c Q -> (forall a, Q a -> triple si (k a) R) -> triple si (bind c k) R.
Proof.
  intros Hc Hk. apply (hoare_bind _ _ _ _ _ Hc).
  intros a st [HQ HI]. now apply Hk.
Qed.

Lemma triple_post si {A : Type} (c : M A) (Q Q' : A -> Prop) :
  (forall a, Q a -> Q' a) -> triple si c Q -> triple si c Q'.
Proof.
  intros HQ. apply hoare_post. intros a st [H1 H2]. split; [ now apply HQ | exact H2 ].
Qed.

(** *** The primitives *)

Lemma triple_read si (l : loc) : triple si (read l) (fun c => fresh l -> closed c).
Proof.
  intros st H. unfold read.
  destruct (heap st !! l) as [[c added] |] eqn:Hl; [ | now apply Inv_weaken in H ].
  split; [ | exact H ]. intros Hf. exact (inv_closed _ _ H _ _ _ Hl Hf).
Qed.

Lemma indexOk_app si (h : list object) (o : object) : indexOk si h -> indexOk si (h ++ [o]).
Proof.
  destruct si as [i |]; [ | trivial ]. intros (m & added & Hi & Hm).
  exists m, added. split; [ | exact Hm ]. now apply lookup_app_l_Some.
Qed.

Lemma triple_alloc si (c : cell) : closed c -> triple si (alloc c) fresh.
Proof.
  intros Hc st [H1 H2 H3 H4]. unfold alloc. split.
  - unfold fresh. now apply prefix_length.
  - constructor; simpl.
    + now apply prefix_app_r.
    + intros l c' added Hl Hf. apply lookup_app_Some in Hl as [Hl | [_ Hl]].
      * exact (H2 _ _ _ Hl Hf).
      * apply list_lookup_singleton_Some in Hl as [_ [= <- <-]]. exact Hc.
    + now apply indexOk_app.
    + exact H4.
Qed.

(** An update that keeps the references of an object and the contents of
    an index. *)
Definition keeps (f : object -> object) : Prop :=
  forall c added,
    (closed c -> closed (f (c, added)).1)
    /\ (forall m, c = CIndex m -> (f (c, added)).1 = CIndex m).

Lemma prefix_alter (f : object -> object) (l : loc) (h : list object) :
  fresh l -> h0 `prefix_of` h -> h0 `prefix_of` alter f l h.
Proof.
  intros Hl [k ->]. exists (alter f (l - length h0) k).
  unfold fresh in Hl. now rewrite alter_app_r_alt by lia.
Qed.

Lemma lookup_alter_Some {A : Type} (f : A -> A) (l l' : nat) (h : list A) (y : A) :
  alter f l h !! l' = Some y ->
  h !! l' = Some y \/ exists x, l = l' /\ h !! l' = Some x /\ y = f x.
Proof.
  destruct (decide (l = l')) as [<- | Hne].
  - rewrite list_lookup_alter_eq. destruct (h !! l) as [x |]; simpl; [ | discriminate ].
    intros [= <-]. right. now exists x.
  - rewrite list_lookup_alter_ne by exact Hne. now left.
Qed.

Lemma triple_modify si (l : loc) (f : object -> object) :
  fresh l -> keeps f -> triple si (modify l f) (fun _ => True).
Proof.
  intros Hl Hf st [H1 H2 H3 H4]. unfold modify. split; [ exact I | ].
  constructor; simpl; [ | | | exact H4 ].
  - now apply prefix_alter.
  - intros l' c added Hl' Hfresh.
    apply lookup_alter_Some in Hl' as [Hl' | ([c' added'] & _ & Hl' & Heq)].
    + exact (H2 _ _ _ Hl' Hfresh).
    + pose proof (proj1 (Hf c' added') (H2 _ _ _ Hl' Hfresh)) as Hc.
      rewrite <- Heq in Hc. exact Hc.
  - destruct si as [i |]; [ | exact I ]. destruct H3 as (m & added & Hi & Hm).
    destruct (decide (l = i)) as [-> | Hne].
    + pose proof (proj2 (Hf (CIndex m) added) m eq_refl) as Hk.
      destruct (f (CIndex m, added)) as [c' added'] eqn:Hfo. simpl in Hk. subst c'.
      exists m, added'. split; [ | exact Hm ].
      now rewrite list_lookup_alter_eq, Hi, <- Hfo.
    + exists m, added. split; [ | exact Hm ].
      now rewrite list_lookup_alter_ne.
Qed.

Lemma triple_taint si (key property : string) :
  inherited key = true -> sellerId key -> triple si (taint key property) (fun _ => True).
Proof.
  intros Hk Hid st [H1 H2 H3 (taints & H4 & H5)]. split; [ exact I | ].
  constructor; try assumption. simpl.
  exists ((key, property) :: taints). split; [ now rewrite H4 | now constructor ].
Qed.

Lemma triple_forEach si {A : Type} (l : list A) (f : A -> M unit) :
  (forall x, In x l -> triple si (f x) (fun _ => True)) ->
  triple si (forEach l f) (fun _ => True).
Proof.
  induction l as [| x l IH]; intros Hf; simpl.
  - now apply triple_ret.
  - apply (triple_bind si _ (fun _ => True)).
    + apply Hf. now left.
    + intros _ _. apply IH. intros y Hy. apply Hf. now right.
Qed.

Lemma triple_forEachIndexed si {A : Type} (l : list A) (index : nat) (f : A -> nat -> M unit) :
  (forall x i, In x l -> triple si (f x i) (fun _ => True)) ->
  triple si (forEachIndexed l index f) (fun _ => True).
Proof.
  revert index. induction l as [| x l IH]; intros index Hf; simpl.
  - now apply triple_ret.
  - apply (triple_bind si _ (fun _ => True)).
    + apply Hf. now left.
    + intros _ _. apply IH. intros y i Hy. apply Hf. now right.
Qed.

Lemma triple_mapM si {A B : Type} (l : list A) (f : A -> M B) (Q : B -> Prop) :
  (forall x, In x l -> triple si (f x) Q) ->
  triple si (mapM l f) (Forall Q).
Proof.
  induction l as [| x l IH]; intros Hf; simpl.
  - apply triple_ret. constructor.
  - apply (triple_bind si _ Q); [ apply Hf; now left | ].
    intros y Hy. apply (triple_bind si _ (Forall Q)).
    + apply IH. intros z Hz. apply Hf. now right.
    + intros ys Hys. apply triple_ret. now constructor.
Qed.

(** *** The reads *)

Ltac typed_read :=
  let c := fresh "c" in
  let Hc := fresh "Hc" in
  unfold readData, readArray, readSeller, readProduct, readItem, readRecord,
         readOptions, readStat, readSold, readIndex;
  eapply triple_bind; [ apply triple_read | ];
  intros c Hc; destruct c; try apply triple_throw; apply triple_ret.

Lemma triple_readData si l : triple si (readData l) (fun _ => True).
Proof. typed_read. exact I. Qed.

Lemma triple_readArray si l : triple si (readArray l) (fun elems => fresh l -> Forall fresh elems).
Proof. typed_read. exact Hc. Qed.

Lemma triple_readSeller si l : triple si (readSeller l) (fun _ => True).
Proof. typed_read. exact I. Qed.

Lemma triple_readProduct si l : triple si (readProduct l) (fun _ => True).
Proof. typed_read. exact I. Qed.

Lemma triple_readItem si l : triple si (readItem l) (fun _ => True).
Proof. typed_read. exact I. Qed.

Lemma triple_readRecord si l :
  triple si (readRecord l) (fun record => sellerId record.1.1).
Proof.
  intros st H. unfold readRecord, bind, read.
  destruct (heap st !! l) as [[c added] |] eqn:Hl; [ | now apply Inv_weaken in H ].
  destruct c; try (now apply Inv_weaken in H).
  split; [ | exact H ]. exact (Inv_records _ _ _ _ _ _ _ H Hl).
Qed.

Lemma triple_readOptions si l : triple si (readOptions l) (fun _ => True).
Proof. typed_read. exact I. Qed.

Lemma triple_readStat si l :
  triple si (readStat l) (fun s => fresh l -> fresh (st_products_sold s)).
Proof. typed_read. exact Hc. Qed.

Lemma triple_isArrayAt si field : triple si (isArrayAt field) (fun _ => True).
Proof.
  destruct field as [l |]; simpl; [ | now apply triple_ret ].
  eapply triple_bind; [ apply triple_read | ]. intros c _. now apply triple_ret.
Qed.

(** What [sellerIndex[key]] finds is a new object. *)
Definition freshFound (v : found loc) : Prop :=
  (forall l, v = Own l -> fresh l)
  /\ (forall key, v = Inherited key -> inherited key = true /\ sellerId key).

Lemma triple_lookupIndex_sellers (i : loc) (key : string) :
  sellerId key -> triple (Some i) (lookupIndex i key) freshFound.
Proof.
  intros Hid st H. destruct (inv_index _ _ H) as (m & added & Hi & Hm).
  unfold lookupIndex, readIndex, bind, read. rewrite Hi. simpl.
  split; [ | exact H ]. unfold getProp. split.
  - intros l Hl. destruct (m !! key) as [l' |] eqn:Hk.
    + injection Hl as ->. exact (Hm _ _ Hk).
    + destruct (inherited key); discriminate.
  - intros key' Hl. destruct (m !! key) as [l' |]; [ discriminate | ].
    destruct (inherited key) eqn:Hk; [ | discriminate ]. now injection Hl as <-.
Qed.

Lemma triple_lookupIndex si (i : loc) (key : string) :
  triple si (lookupIndex i key) (fun _ => True).
Proof.
  unfold lookupIndex. eapply triple_bind with (Q := fun _ => True).
  - typed_read. exact I.
  - intros m _. now apply triple_ret.
Qed.

(** *** The assignments *)

Lemma triple_assign si (l : loc) (property : string) (f : StatObject -> StatObject) :
  fresh l -> (forall s, st_products_sold (f s) = st_products_sold s) ->
  triple si (assign l property f) (fun _ => True).
Proof.
  intros Hl Hf. apply triple_modify; [ exact Hl | ].
  intros c added. split.
  - destruct c; simpl; try trivial. now rewrite Hf.
  - now intros m ->.
Qed.

Lemma triple_assignFound si (seller : found loc) (property : string)
    (f : StatObject -> StatObject) :
  freshFound seller -> (forall s, st_products_sold (f s) = st_products_sold s) ->
  triple si (assignFound seller property f) (fun _ => True).
Proof.
  intros [Hs Hk] Hf. destruct seller as [l | key |]; simpl.
  - apply triple_assign; [ now apply Hs | exact Hf ].
  - apply triple_taint; now apply Hk.
  - apply triple_throw.
Qed.

Lemma triple_productsSoldOf si (seller : found loc) :
  freshFound seller ->
  triple si (productsSoldOf seller) (fun ps => forall l, ps = Some l -> fresh l).
Proof.
  intros [Hs _]. destruct seller as [l | key |]; simpl.
  - eapply triple_bind; [ apply triple_read | ].
    intros c Hc. apply triple_ret. intros l' Hl'.
    destruct c; try discriminate. injection Hl' as <-. apply Hc. now apply Hs.
  - now apply triple_ret.
  - now apply triple_ret.
Qed.

Lemma triple_countSoldAt si (ps : option loc) (sku : string) (q : float) :
  (forall l, ps = Some l -> fresh l) ->
  triple si (countSoldAt ps sku q) (fun _ => True).
Proof.
  intros Hps. destruct ps as [l |]; simpl; [ | apply triple_throw ].
  apply triple_modify; [ now apply Hps | ].
  intros c added. split.
  - now destruct c.
  - now intros m ->.
Qed.

Lemma triple_productArgOf si (product : found loc) :
  triple si (productArgOf product) (fun _ => True).
Proof.
  destruct product as [l | key |]; simpl.
  - eapply triple_bind; [ apply triple_readProduct | ]. intros p _. now apply triple_ret.
  - now apply triple_ret.
  - apply triple_throw.
Qed.

Lemma triple_newStatObject si (sellerLoc : loc) : triple si (newStatObject sellerLoc) fresh.
Proof.
  unfold newStatObject.
  eapply triple_bind; [ apply triple_readSeller | ]. intros seller _.
  eapply triple_bind; [ now apply triple_alloc | ]. intros ps Hps.
  apply triple_alloc. exact Hps.
Qed.

(** *** The aggregation *)

Section AggregateFacts.
Variable calcRevenue : Item -> productArg -> float.
Variable sellerIndex productIndex : loc.

Lemma triple_sellItem (seller : found loc) (itemLoc : loc) :
  freshFound seller ->
  triple (Some sellerIndex) (sellItem calcRevenue productIndex seller itemLoc) (fun _ => True).
Proof.
  intros Hs. unfold sellItem.
  eapply triple_bind; [ apply triple_readItem | ]. intros item _.
  eapply triple_bind; [ apply triple_lookupIndex | ]. intros product _.
  destruct (truthy product); [ | now apply triple_ret ].
  eapply triple_bind; [ apply triple_productArgOf | ]. intros arg _.
  eapply triple_bind; [ now apply triple_assignFound | ]. intros _ _.
  eapply triple_bind; [ now apply triple_productsSoldOf | ]. intros ps Hps.
  now apply triple_countSoldAt.
Qed.

Lemma triple_sellRecord (recordLoc : loc) :
  triple (Some sellerIndex) (sellRecord calcRevenue sellerIndex productIndex recordLoc)
         (fun _ => True).
Proof.
  unfold sellRecord.
  eapply triple_bind; [ apply triple_readRecord | ]. intros [[sid total] itemsLoc] Hsid.
  eapply triple_bind; [ now apply triple_lookupIndex_sellers | ]. intros seller Hs.
  destruct (truthy seller); [ | now apply triple_ret ].
  eapply triple_bind; [ now apply triple_assignFound | ]. intros _ _.
  eapply triple_bind; [ now apply triple_assignFound | ]. intros _ _.
  eapply triple_bind with (Q := fun _ => True).
  - eapply triple_post; [ | apply triple_readArray ]. trivial.
  - intros items _. apply triple_forEach. intros itemLoc _. now apply triple_sellItem.
Qed.

End AggregateFacts.

(** *** The ranking and the rows *)

Lemma triple_snapshot si (l : loc) : triple si (snapshot l) (fun _ => True).
Proof. intros st H. now split. Qed.

Lemma triple_sortByProfit si (array : loc) :
  fresh array -> triple si (sortByProfit array) (fun _ => True).
Proof.
  intros Ha. unfold sortByProfit.
  eapply triple_bind; [ apply triple_readArray | ]. intros elems Helems.
  intros st H.
  apply (triple_modify si array
           (fun o =>
              match o with
              | (CArray _, added) =>
                  (CArray (sort (fun a b => byProfit (statAt (heap st) a) (statAt (heap st) b))
                                elems), added)
              | (c, added) => (c, "0"%string :: added)
              end));
    [ exact Ha | | exact H ].
  intros c added. split.
  - destruct c; simpl; trivial. intros _. rewrite sort_perm. now apply Helems.
  - now intros m ->.
Qed.

Lemma triple_assignBonus si calcBonus (total : nat) (sellerLoc : loc) (index : nat) :
  fresh sellerLoc ->
  triple si (assignBonus calcBonus total sellerLoc index) (fun _ => True).
Proof.
  intros Hl. unfold assignBonus.
  eapply triple_bind; [ apply triple_snapshot | ]. intros seller _.
  eapply triple_bind; [ now apply triple_assign | ]. intros _ _.
  eapply triple_bind.
  { apply triple_mapM with (Q := fresh). intros kv _. now apply triple_alloc. }
  intros entries Hentries.
  eapply triple_bind; [ now apply triple_alloc | ]. intros top _.
  now apply triple_assign.
Qed.

Lemma triple_formatRow si (sellerLoc : loc) : triple si (formatRow sellerLoc) fresh.
Proof.
  unfold formatRow.
  eapply triple_bind with (Q := fun _ => True).
  { eapply triple_post; [ | apply triple_readStat ]. trivial. }
  intros s _.
  eapply triple_bind with (Q := fun _ => True).
  { destruct (st_top_products s) as [l |].
    - eapply triple_post; [ | apply triple_readArray ]. trivial.
    - now apply triple_ret. }
  intros top _. now apply triple_alloc.
Qed.

(** *** The function *)

Lemma indexFresh_fromEntries (entries : list (string * loc)) :
  Forall (fun kv => fresh kv.2) entries -> indexFresh (fromEntries entries).
Proof.
  intros H k l Hk. apply fromEntries_lookup_In in Hk.
  rewrite List.Forall_forall in H. exact (H _ Hk).
Qed.

(** From the creation of [sellerIndex] on, the index is part of the
    invariant. *)
Lemma hoare_alloc_index (m : gmap string loc) :
  indexFresh m ->
  hoare (Inv None) (alloc (CIndex m)) (fun l st' => Inv (Some l) st').
Proof.
  intros Hm st H. pose proof (triple_alloc None (CIndex m) I st H) as Ha.
  unfold alloc in *. destruct Ha as [_ [H1 H2 _ H4]]. constructor; try assumption.
  simpl. exists m, []. split; [ | exact Hm ]. apply list_lookup_middle. reflexivity.
Qed.

Lemma hoare_afterSellers calcRevenue calcBonus (products records statLocs : list loc) :
  Forall fresh statLocs ->
  hoare (Inv None) (afterSellers calcRevenue calcBonus products records statLocs)
        (fun _ st' => Inv None st').
Proof.
  intros Hstats. unfold afterSellers.
  eapply hoare_bind; [ now apply (triple_alloc None) | ].
  intros sellerStats. apply hoare_pre with (P := fun st => fresh sellerStats /\ Inv None st);
    [ trivial | ].
  intros st0 [Harr H0]. revert st0 H0.
  eapply hoare_bind.
  { apply triple_mapM with (Q := fun kv : string * loc => fresh kv.2).
    intros l Hl. eapply triple_bind with (Q := fun _ => True).
    - eapply triple_post; [ | apply triple_readStat ]. trivial.
    - intros s _. apply triple_ret. simpl.
      rewrite List.Forall_forall in Hstats. now apply Hstats. }
  intros sellerEntries st1 [Hentries H1]. revert st1 H1.
  eapply hoare_bind; [ now apply hoare_alloc_index, indexFresh_fromEntries | ].
  intros sellerIndex.
  apply hoare_post with (Q := fun _ st' => True /\ Inv (Some sellerIndex) st');
    [ intros a st [_ H]; now apply Inv_weaken in H | ].
  change (triple (Some sellerIndex)
            (productEntries <- mapM products (fun l =>
                                 p <- readProduct l ;; ret (product_sku p, l)) ;;
             productIndex <- alloc (CIndex (fromEntries productEntries)) ;;
             forEach records (sellRecord calcRevenue sellerIndex productIndex) ;;;
             sortByProfit sellerStats ;;;
             ranked <- readArray sellerStats ;;
             forEachIndexed ranked 0%nat (assignBonus calcBonus (length ranked)) ;;;
             rows <- mapM ranked formatRow ;;
             alloc (CArray rows))
            (fun _ => True)).
  eapply triple_bind with (Q := fun _ => True).
  { eapply triple_post; [ | apply triple_mapM with (Q := fun _ => True) ]; [ trivial | ].
    intros l _. eapply triple_bind; [ apply triple_readProduct | ].
    intros p _. now apply triple_ret. }
  intros productEntries _.
  eapply triple_bind; [ now apply triple_alloc | ]. intros productIndex _.
  eapply triple_bind.
  { apply triple_forEach. intros recordLoc _. apply triple_sellRecord. }
  intros _ _.
  eapply triple_bind; [ now apply triple_sortByProfit | ]. intros _ _.
  eapply triple_bind; [ apply triple_readArray | ]. intros ranked Hranked.
  specialize (Hranked Harr).
  eapply triple_bind.
  { apply triple_forEachIndexed. intros l i Hl. apply triple_assignBonus.
    rewrite List.Forall_forall in Hranked. now apply Hranked. }
  intros _ _.
  eapply triple_bind.
  { apply triple_mapM with (Q := fresh). intros l _. apply triple_formatRow. }
  intros rows Hrows.
  eapply triple_post; [ | now apply triple_alloc ]. trivial.
Qed.

Lemma analyzeSalesData_afterSellers (data options : option loc) :
  hoare (Inv None) (analyzeSalesData data options) (fun _ st' => Inv None st').
Proof.
  assert (Hthrow : forall e, hoare (Inv None) (throw e : M loc) (fun _ st' => Inv None st')).
  { intros e st H. exact H. }
  destruct data as [dataLoc |]; simpl; [ | apply Hthrow ].
  eapply hoare_bind; [ apply (triple_readData None) | ].
  intros [[sellersField productsField] recordsField] st0 [_ H0]. revert st0 H0.
  eapply hoare_bind; [ apply (triple_isArrayAt None) | ]. intros a1 st0 [_ H0]. revert st0 H0.
  eapply hoare_bind; [ apply (triple_isArrayAt None) | ]. intros a2 st0 [_ H0]. revert st0 H0.
  eapply hoare_bind; [ apply (triple_isArrayAt None) | ]. intros a3 st0 [_ H0]. revert st0 H0.
  destruct sellersField as [sellersLoc |]; [ | apply Hthrow ].
  destruct productsField as [productsLoc |]; [ | apply Hthrow ].
  destruct recordsField as [recordsLoc |]; [ | apply Hthrow ].
  destruct (negb a1 || negb a2 || negb a3); [ apply Hthrow | ].
  eapply hoare_bind; [ apply (triple_readArray None) | ]. intros sellers st0 [_ H0]. revert st0 H0.
  eapply hoare_bind; [ apply (triple_readArray None) | ]. intros products st0 [_ H0]. revert st0 H0.
  eapply hoare_bind; [ apply (triple_readArray None) | ]. intros records st0 [_ H0]. revert st0 H0.
  destruct (isEmpty sellers || isEmpty products || isEmpty records); [ apply Hthrow | ].
  destruct options as [optionsLoc |]; [ | apply Hthrow ].
  eapply hoare_bind; [ apply (triple_readOptions None) | ]. intros o st0 [_ H0]. revert st0 H0.
  destruct (calculateRevenue o) as [calcRevenue |]; [ | apply Hthrow ].
  destruct (calculateBonus o) as [calcBonus |]; [ | apply Hthrow ].
  eapply hoare_bind.
  { apply (triple_mapM None) with (Q := fresh). intros l _. apply triple_newStatObject. }
  intros statLocs st0 [Hstats H0]. revert st0 H0.
  now apply hoare_afterSellers.
Qed.

End Frame.

Lemma Inv_initial (sellerId : string -> Prop) (st : state) :
  Inv (heap st) (realm st) sellerId None st.
Proof.
  constructor; [ reflexivity | | exact I | ].
  - intros l c added Hl Hf. apply lookup_lt_Some in Hl. unfold fresh in Hf. lia.
  - exists []. split; [ reflexivity | constructor ].
Qed.

(** The effect of a call on the store and on the inherited objects, given
    a property of the seller ids of the purchase records of the store. *)
Lemma analyzeSalesData_effect_on (sellerId : string -> Prop)
    (data options : option loc) (st : state) :
  (forall l sid total itemsLoc added,
     heap st !! l = Some (CRecord sid total itemsLoc, added) -> sellerId sid) ->
  let st' := (Store.analyzeSalesData data options st).2 in
  heap st `prefix_of` heap st'
  /\ exists taints,
       realm st' = taints ++ realm st
       /\ Forall (fun kp => inherited kp.1 = true /\ sellerId kp.1) taints.
Proof.
  intros Hrecords.
  pose proof (analyzeSalesData_afterSellers (heap st) (realm st) sellerId Hrecords
                data options st (Inv_initial sellerId st)) as H.
  destruct (Store.analyzeSalesData data options st) as [[l | e] st']; simpl;
    destruct H as [H1 _ _ H4]; now split.
Qed.

Lemma analyzeSalesData_effect (data options : option loc) (st : state) :
  let st' := (Store.analyzeSalesData data options st).2 in
  heap st `prefix_of` heap st'
  /\ exists taints,
       realm st' = taints ++ realm st
       /\ Forall (fun kp => inherited kp.1 = true) taints.
Proof.
  destruct (analyzeSalesData_effect_on (fun _ => True) data options st)
    as (Hheap & taints & Hrealm & Htaints); [ trivial | ].
  split; [ exact Hheap | ]. exists taints. split; [ exact Hrealm | ].
  eapply List.Forall_impl; [ | exact Htaints ]. now intros kp [H _].
Qed.

(** When no purchase record of the store has a seller id that is a name
    every object inherits, a call assigns to no inherited object. *)
Lemma analyzeSalesData_realm (data options : option loc) (st : state) :
  (forall l sid total itemsLoc added,
     heap st !! l = Some (CRecord sid total itemsLoc, added) -> inherited sid = false) ->
  realm (Store.analyzeSalesData data options st).2 = realm st.
Proof.
  intros Hrecords.
  destruct (analyzeSalesData_effect_on (fun sid => inherited sid = false)
              data options st Hrecords) as (_ & taints & Hrealm & Htaints).
  cbv zeta in Hrealm. rewrite Hrealm.
  destruct taints as [| kp taints]; [ reflexivity | ].
  apply List.Forall_inv in Htaints as [H1 H2]. congruence.
Qed.

(** *** Storing the arguments *)

Section Stored.
Variable sellerId : string -> Prop.

Definition recordsOk (st : state) : Prop :=
  forall l sid total itemsLoc added,
    heap st !! l = Some (CRecord sid total itemsLoc, added) -> sellerId sid.

(** A computation that stores no purchase record but those with such a
    seller id, and assigns to no inherited object. *)
Definition stores {A : Type} (c : M A) : Prop :=
  forall st, recordsOk st -> recordsOk (c st).2 /\ realm (c st).2 = realm st.

Lemma stores_ret {A : Type} (a : A) : stores (ret a).
Proof. intros st H. now split. Qed.

Lemma stores_bind {A B : Type} (c : M A) (k : A -> M B) :
  stores c -> (forall a, stores (k a)) -> stores (bind c k).
Proof.
  intros Hc Hk st H. unfold bind. destruct (Hc st H) as [H1 H2].
  destruct (c st) as [[a | e] st1]; cbn [snd] in *.
  - destruct (Hk a st1 H1) as [H3 H4]. split; [ exact H3 | congruence ].
  - now split.
Qed.

Lemma stores_alloc (c : cell) :
  (forall sid total itemsLoc, c = CRecord sid total itemsLoc -> sellerId sid) ->
  stores (alloc c).
Proof.
  intros Hc st H. unfold alloc. cbn [snd heap realm]. split; [ | reflexivity ].
  intros l sid total itemsLoc added Hl.
  apply lookup_app_Some in Hl as [Hl | [_ Hl]].
  - exact (H _ _ _ _ _ Hl).
  - apply list_lookup_singleton_Some in Hl as [_ [= -> <-]]. now apply (Hc sid total itemsLoc).
Qed.

Lemma stores_mapM {A B : Type} (l : list A) (f : A -> M B) :
  (forall x, In x l -> stores (f x)) -> stores (mapM l f).
Proof.
  induction l as [| x l IH]; intros Hf; cbn [mapM].
  - apply stores_ret.
  - apply stores_bind; [ apply Hf; now left | ]. intros y.
    apply stores_bind; [ apply IH; intros z Hz; apply Hf; now right | ].
    intros ys. apply stores_ret.
Qed.

Lemma stores_storeArray {A : Type} (store1 : A -> M loc) (l : list A) :
  (forall x, In x l -> stores (store1 x)) -> stores (storeArray store1 l).
Proof.
  intros H. unfold storeArray. apply stores_bind; [ now apply stores_mapM | ].
  intros elems. apply stores_alloc. discriminate.
Qed.

Lemma stores_storeField {A : Type} (store1 : A -> M loc) (f : field A) :
  (forall x, In x (elements f) -> stores (store1 x)) -> stores (storeField store1 f).
Proof.
  intros H. destruct f as [| l]; cbn [storeField]; [ apply stores_ret | ].
  apply stores_bind; [ now apply stores_storeArray | ]. intros a. apply stores_ret.
Qed.

Lemma stores_storeRecord (r : PurchaseRecord) : sellerId (seller_id r) -> stores (storeRecord r).
Proof.
  intros H. unfold storeRecord. apply stores_bind.
  - apply stores_storeArray. intros i _. apply stores_alloc. discriminate.
  - intros itemsLoc. apply stores_alloc. now intros sid total l [= <- _ _].
Qed.

Lemma stores_storeData (d : Data) :
  Forall (fun record => sellerId (seller_id record)) (elements (purchase_records d)) ->
  stores (storeData d).
Proof.
  intros H. unfold storeData.
  apply stores_bind.
  { apply stores_storeField. intros x _. apply stores_alloc. discriminate. }
  intros s. apply stores_bind.
  { apply stores_storeField. intros x _. apply stores_alloc. discriminate. }
  intros p. apply stores_bind.
  { apply stores_storeField. intros r Hr. apply stores_storeRecord.
    rewrite List.Forall_forall in H. now apply H. }
  intros r. apply stores_alloc. discriminate.
Qed.

End Stored.

(** A call on stored arguments whose records have no inherited name as a
    seller id: the objects of the store are kept, and no inherited object
    is assigned to. *)
Lemma run_effect (d : Data) (options : option Options) :
  Forall (fun record => inherited (seller_id record) = false)
         (elements (purchase_records d)) ->
  heap (run (Some d) options).1.2 `prefix_of` heap (run (Some d) options).2
  /\ realm (run (Some d) options).2 = [].
Proof.
  intros Hplain. unfold run.
  set (P := fun sid => inherited sid = false).
  assert (Hstore : stores P
            (d' <- storeOptional storeData (Some d) ;;
             o' <- storeOptional (fun o => alloc (COptions o)) options ;;
             ret (d', o'))).
  { apply stores_bind.
    - cbn [storeOptional]. apply stores_bind; [ now apply stores_storeData | ].
      intros l. apply stores_ret.
    - intros d'. apply stores_bind; [ | intros o'; apply stores_ret ].
      destruct options as [o |]; cbn [storeOptional]; [ | apply stores_ret ].
      apply stores_bind; [ apply stores_alloc; discriminate | ].
      intros l. apply stores_ret. }
  destruct (Hstore {| heap := []; realm := [] |}) as [Hrecords Hrealm].
  { intros l sid total itemsLoc added Hl. discriminate Hl. }
  destruct ((d' <- storeOptional storeData (Some d) ;;
             o' <- storeOptional (fun o => alloc (COptions o)) options ;;
             ret (d', o')) {| heap := []; realm := [] |}) as [[[d' o'] | e] st];
    cbn [snd realm] in Hrecords, Hrealm.
  - pose proof (analyzeSalesData_effect d' o' st) as [Hheap _].
    pose proof (analyzeSalesData_realm d' o' st Hrecords) as Hquiet.
    cbv zeta in Hheap.
    destruct (Store.analyzeSalesData d' o' st) as [[l | e] st']; cbn [fst snd] in *.
    + split; [ exact Hheap | congruence ].
    + split; [ exact Hheap | congruence ].
  - cbn [fst snd]. split; [ reflexivity | exact Hrealm ].
Qed.

End StoreFacts.

(** The two models agree on the sample inputs. *)
Lemma run_samples :
  Forall (fun d => (Store.run (Some d) (Some referenceOptions)).1.1
                   = analyzeSalesData (Some d) (Some referenceOptions))
         [ Sample.single; Sample.shop; Sample.inheritedSeller; Sample.inheritedSku;
           Sample.inheritedProduct; Sample.restart; Sample.overflow;
           Sample.hugeAmounts; Sample.numberedSkus ].
Proof. repeat constructor; vm_compute; reflexivity. Qed.

(** A call leaves every object of the store as it was: the data
    object, the three arrays, their elements, the arrays of items and the
    items, and the options object are at their locations with their own
    contents after the call, whether it returns or throws.  The objects of
    the store that the function assigns to are objects it has created,
    which follow the objects of the store before the call. *)
Theorem analyzeSalesData_keeps_arguments (data options : option Store.loc)
    (st : Store.state) :
  let st' := (Store.analyzeSalesData data options st).2 in
  (forall l o, Store.heap st !! l = Some o -> Store.heap st' !! l = Some o)
  /\ exists created, Store.heap st' = Store.heap st ++ created.
Proof.
  destruct (StoreFacts.analyzeSalesData_effect data options st) as [[created H] _].
  cbv zeta. rewrite H. split.
  - intros l o Hl. now apply lookup_app_l_Some.
  - now exists created.
Qed.

(** A record without items whose seller id is [__proto__]; no seller has
    this id. *)
Definition strayProto : Data :=
  mkData (IsArray [Sample.ann]) (IsArray [Sample.pen])
         (IsArray [mkRecord "__proto__" 30 []]).

(** C10: the claim holds of the intended behaviour, not of the code.  The
    record of [strayProto] names no seller and should be skipped, but
    [sellerIndex["__proto__"]] is [Object.prototype]: the two statements
    [seller.sales_count += 1] and [seller.revenue += record.total_amount]
    assign to [Object.prototype], an object that the function has not
    created and that every object, the arguments included, inherits from.
    The call returns its report as if the record were skipped. *)
Theorem analyzeSalesData_writes_inherited :
  Forall (fun seller => seller_ident seller <> "__proto__"%string)
         (elements (sellers strayProto))
  /\ (exists rows,
        (Store.run (Some strayProto) (Some referenceOptions)).1.1 = Ok rows
        /\ analyzeSalesData (Some strayProto) (Some referenceOptions) = Ok rows)
  /\ Store.realm (Store.run (Some strayProto) (Some referenceOptions)).1.2 = []
  /\ Store.realm (Store.run (Some strayProto) (Some referenceOptions)).2
     = [("__proto__", "revenue"); ("__proto__", "sales_count")]%string.
Proof.
  split; [ repeat constructor; discriminate | ].
  split; [ eexists; split; vm_compute; reflexivity | ].
  split; vm_compute; reflexivity.
Qed.

(** When no purchase record has a seller id that is a name every object
    inherits, all accumulation happens in objects that the call creates:
    the objects of the store before the call are kept as they are and no
    inherited object is assigned to. *)
Theorem analyzeSalesData_accumulates_in_new_objects (d : Data) (options : option Options) :
  Forall (fun record => inherited (seller_id record) = false)
         (elements (purchase_records d)) ->
  (forall l o, Store.heap (Store.run (Some d) options).1.2 !! l = Some o ->
               Store.heap (Store.run (Some d) options).2 !! l = Some o)
  /\ Store.realm (Store.run (Some d) options).2 = [].
Proof.
  intros Hplain. destruct (StoreFacts.run_effect d options Hplain) as [[created H] Hrealm].
  split; [ | exact Hrealm ].
  intros l o Hl. rewrite H. now apply lookup_app_l_Some.
Qed.

Lemma analyzeSalesData_accumulates_in_new_objects_witness :
  (forall l o,
     Store.heap (Store.run (Some Sample.shop) (Some referenceOptions)).1.2 !! l = Some o ->
     Store.heap (Store.run (Some Sample.shop) (Some referenceOptions)).2 !! l = Some o)
  /\ Store.realm (Store.run (Some Sample.shop) (Some referenceOptions)).2 = [].
Proof.
  apply (analyzeSalesData_accumulates_in_new_objects Sample.shop (Some referenceOptions)).
  repeat constructor.
Defined.

(** * Further properties *)

(** ** The errors of [analyzeSalesData] *)

Lemma aggregate_throws calcRevenue (d : Data) (e : error) :
  aggregate calcRevenue d = Throw e -> e = TypeError.
Proof. unfold aggregate. apply sellRecords_throws. Qed.

(** The error for missing strategies is thrown for valid data only (the
    check of the data comes first), and exactly when one of the two
    strategies is missing from the options. *)
Theorem analyzeSalesData_MissingStrategyError (data : option Data)
    (options : option Options) :
  analyzeSalesData data options = Throw MissingStrategyError
  <-> invalidInput data = false
      /\ exists o, options = Some o
           /\ (calculateRevenue o = None \/ calculateBonus o = None).
Proof.
  unfold analyzeSalesData. destruct (invalidInput data) eqn:Hinv.
  - split; [ discriminate | now intros [? _] ].
  - destruct data as [d |]; [ | discriminate ].
    destruct options as [o |].
    + destruct (calculateRevenue o) as [calcRevenue |] eqn:Hr.
      * destruct (calculateBonus o) as [calcBonus |] eqn:Hb.
        -- split.
           ++ destruct (aggregate calcRevenue d) eqn:Hs; [ discriminate | ].
              apply aggregate_throws in Hs. now subst.
           ++ intros (_ & o' & [= <-] & [H | H]); congruence.
        -- split; [ | reflexivity ]. intros _. split; [ reflexivity | ].
           exists o. auto.
      * split; [ | reflexivity ]. intros _. split; [ reflexivity | ].
        exists o. auto.
    + split; [ discriminate | ]. now intros (_ & o & [=] & _).
Qed.

(** A record that the outer callback cannot process: its seller id is no
    seller's id but a name that every object inherits, and one of its
    items has a SKU that is a product's or an inherited name. *)
Definition strayRecord (d : Data) (record : PurchaseRecord) : Prop :=
  ~ In (seller_id record) (map seller_ident (elements (sellers d)))
  /\ inherited (seller_id record) = true
  /\ Exists (fun item =>
               In (item_sku item) (map product_sku (elements (products d)))
               \/ inherited (item_sku item) = true)
            (items record).

Lemma fromEntries_None {A : Type} (l : list (string * A)) (k : string) :
  fromEntries l !! k = None <-> ~ In k (map fst l).
Proof.
  split.
  - intros H Hin. apply fromEntries_known in Hin as [v Hv]. congruence.
  - intros H. destruct (fromEntries l !! k) as [v |] eqn:E; [ | reflexivity ].
    apply fromEntries_lookup_In in E. elim H. apply in_map_iff. now exists (k, v).
Qed.

Lemma getProp_Inherited {A : Type} (o : gmap string A) (key : string) :
  (exists key', getProp o key = Inherited key')
  <-> o !! key = None /\ inherited key = true.
Proof.
  unfold getProp. destruct (o !! key) as [a |].
  - split; [ now intros [? [=]] | now intros [[=] _] ].
  - destruct (inherited key).
    + split; [ auto | intros _; now exists key ].
    + split; [ now intros [? [=]] | now intros [_ [=]] ].
Qed.

Lemma truthy_getProp {A : Type} (o : gmap string A) (key : string) :
  truthy (getProp o key) = true <-> o !! key <> None \/ inherited key = true.
Proof.
  unfold getProp. destruct (o !! key) as [a |].
  - cbn. split; [ now left | reflexivity ].
  - destruct (inherited key); cbn.
    + split; [ now right | reflexivity ].
    + split; [ discriminate | now intros [H | H] ].
Qed.

Lemma indexSellers_None (sellers : list Seller) (key : string) :
  indexSellers (map newStat sellers) !! key = None
  <-> ~ In key (map seller_ident sellers).
Proof.
  unfold indexSellers. rewrite fromEntries_None, (imap_fst_id (fun i => i)).
  now rewrite List.map_map.
Qed.

Lemma indexProducts_None (products : list Product) (key : string) :
  indexProducts products !! key = None <-> ~ In key (map product_sku products).
Proof.
  unfold indexProducts. rewrite fromEntries_None. now rewrite List.map_map.
Qed.

Section Throws.
Variable calcRevenue : Item -> productArg -> float.
Variable sellerIndex : gmap string nat.
Variable productIndex : gmap string Product.

(** Whether the outer callback throws depends on the record only. *)
Definition throwing (record : PurchaseRecord) : Prop :=
  (exists key, getProp sellerIndex (seller_id record) = Inherited key)
  /\ existsb (fun item => truthy (getProp productIndex (item_sku item)))
             (items record) = true.

Lemma sellRecord_Throw sellerStats record e :
  sellRecord calcRevenue sellerIndex productIndex sellerStats record = Throw e
  <-> e = TypeError /\ throwing record.
Proof.
  unfold sellRecord, throwing.
  destruct (getProp sellerIndex (seller_id record)) as [i | key |].
  - split; [ discriminate | now intros (_ & [? [=]] & _) ].
  - destruct (existsb _ _).
    + split; [ intros [= <-]; eauto | now intros [-> _] ].
    + split; [ discriminate | now intros (_ & _ & [=]) ].
  - split; [ discriminate | now intros (_ & [? [=]] & _) ].
Qed.

Lemma sellRecords_Throw records sellerStats e :
  sellRecords calcRevenue sellerIndex productIndex sellerStats records = Throw e
  <-> e = TypeError /\ Exists throwing records.
Proof.
  revert sellerStats. induction records as [| record records IH]; intros sellerStats;
    cbn [sellRecords].
  - split; [ discriminate | intros [_ H]; inversion H ].
  - destruct (sellRecord calcRevenue sellerIndex productIndex sellerStats record)
      as [sellerStats' | e'] eqn:E.
    + rewrite IH. split.
      * intros [-> H]. split; [ reflexivity | now right ].
      * intros [-> H]. split; [ reflexivity | ].
        inversion H as [? ? Hthrow | ? ? Hrest]; subst; [ | exact Hrest ].
        assert (Hs : sellRecord calcRevenue sellerIndex productIndex sellerStats record
                     = Throw TypeError) by now apply sellRecord_Throw.
        congruence.
    + apply sellRecord_Throw in E as [-> Hthrow]. split.
      * intros [= <-]. split; [ reflexivity | now left ].
      * now intros [-> _].
Qed.
End Throws.

Lemma strayRecord_throwing (d : Data) (record : PurchaseRecord) :
  strayRecord d record
  <-> throwing (indexSellers (map newStat (elements (sellers d))))
               (indexProducts (elements (products d))) record.
Proof.
  unfold strayRecord, throwing.
  rewrite getProp_Inherited, indexSellers_None, existsb_exists, List.Exists_exists.
  split.
  - intros (Hid & Hinh & item & Hin & Hitem). split; [ now split | ].
    exists item. split; [ exact Hin | ]. apply truthy_getProp.
    destruct Hitem as [H | H]; [ left | now right ].
    intros E. now apply indexProducts_None in E.
  - intros ((Hid & Hinh) & item & Hin & Hitem). split; [ exact Hid | ].
    split; [ exact Hinh | ]. exists item. split; [ exact Hin | ].
    apply truthy_getProp in Hitem as [H | H]; [ left | now right ].
    destruct (in_dec string_dec (item_sku item)
                (map product_sku (elements (products d)))) as [Hin' | Hout];
      [ exact Hin' | ].
    now apply indexProducts_None in Hout.
Qed.

(** A [TypeError] is thrown for valid data only, and exactly when the
    options are missing, or both strategies are given and some record has
    a seller id that is no seller's but an inherited name, and an item
    whose SKU is a product's or an inherited name. *)
Theorem analyzeSalesData_TypeError (data : option Data) (options : option Options) :
  analyzeSalesData data options = Throw TypeError
  <-> exists d,
        data = Some d /\ invalidInput data = false
        /\ (options = None
            \/ exists o, options = Some o
                 /\ calculateRevenue o <> None /\ calculateBonus o <> None
                 /\ Exists (strayRecord d) (elements (purchase_records d))).
Proof.
  unfold analyzeSalesData. destruct (invalidInput data) eqn:Hinv.
  - split; [ discriminate | now intros (d & _ & [=] & _) ].
  - destruct data as [d |]; [ | discriminate ].
    destruct options as [o |].
    + destruct (calculateRevenue o) as [calcRevenue |] eqn:Hr,
               (calculateBonus o) as [calcBonus |] eqn:Hb.
      * assert (Hthrow : aggregate calcRevenue d = Throw TypeError
                         <-> Exists (strayRecord d) (elements (purchase_records d))).
        { unfold aggregate. rewrite sellRecords_Throw. split.
          - intros [_ H]. eapply List.Exists_impl; [ | exact H ].
            intros record. apply strayRecord_throwing.
          - intros H. split; [ reflexivity | ].
            eapply List.Exists_impl; [ | exact H ].
            intros record. apply strayRecord_throwing. }
        split.
        -- destruct (aggregate calcRevenue d) as [stats | e] eqn:Hs; [ discriminate | ].
           intros [= ->]. exists d. repeat split. right. exists o.
           rewrite Hr, Hb. repeat split; try discriminate. now apply Hthrow.
        -- intros (d' & [= <-] & _ & [[=] | (o' & [= <-] & _ & _ & H)]).
           apply Hthrow in H. now rewrite H.
      * split; [ discriminate | ].
        intros (d' & _ & _ & [[=] | (o' & [= <-] & _ & H & _)]). congruence.
      * split; [ discriminate | ].
        intros (d' & _ & _ & [[=] | (o' & [= <-] & H & _ & _)]). congruence.
      * split; [ discriminate | ].
        intros (d' & _ & _ & [[=] | (o' & [= <-] & H & _ & _)]). congruence.
    + split; [ | reflexivity ]. intros _. exists d. auto.
Qed.

(** ** More inputs *)

Module Cases.

(** Two sellers, the second one without sales. *)
Definition idleShop : Data :=
  mkData (IsArray [Sample.ann; Sample.bob]) (IsArray [Sample.pen])
         (IsArray [mkRecord "s1" 30 [Sample.twoPens]]).

(** Two sellers with the same id. *)
Definition twins : Data :=
  mkData (IsArray [Sample.ann; mkSeller "s1" "Al" "Roe"]) (IsArray [Sample.pen])
         (IsArray [mkRecord "s1" 30 [Sample.twoPens]]).

End Cases.

Ltac distinct := apply (bool_decide_unpack _); vm_compute; exact I.

(** ** The statistics of one seller *)

Lemma indexSellers_snoc (l : list SellerStat) (s : SellerStat) :
  indexSellers (l ++ [s]) = <[id s := length l]> (indexSellers l).
Proof.
  unfold indexSellers. rewrite imap_app. cbn [imap]. rewrite fromEntries_snoc.
  cbn [fst snd]. now rewrite Nat.add_0_r.
Qed.

(** [Object.fromEntries] keeps the last entry of a key: the seller that an
    id finds has this id, and no later seller has it. *)
Lemma indexSellers_lookup (l : list SellerStat) (key : string) (i : nat) :
  indexSellers l !! key = Some i ->
  (exists s, l !! i = Some s /\ id s = key)
  /\ forall j s, (i < j)%nat -> l !! j = Some s -> id s <> key.
Proof.
  revert i. induction l as [| s l IH] using rev_ind; intros i.
  - unfold indexSellers, fromEntries. cbn. now rewrite lookup_empty.
  - rewrite indexSellers_snoc. destruct (decide (id s = key)) as [E | NE].
    + rewrite E, lookup_insert_eq. intros [= <-]. split.
      * exists s. split; [ | exact E ]. now rewrite list_lookup_middle.
      * intros j s' Hj Hs'. apply lookup_lt_Some in Hs'.
        rewrite length_app in Hs'. cbn in Hs'. lia.
    + rewrite lookup_insert_ne by exact NE. intros H.
      destruct (IH i H) as [(s0 & Hs0 & Hid) Hlater]. split.
      * exists s0. split; [ | exact Hid ]. now apply lookup_app_l_Some.
      * intros j s' Hj Hs'. apply lookup_app_Some in Hs' as [Hs' | [Hlen Hs']].
        -- now apply (Hlater j).
        -- destruct (j - length l)%nat; [ | discriminate ].
           cbn in Hs'. now injection Hs' as <-.
Qed.

Lemma indexSellers_NoDup (l : list SellerStat) (i : nat) (s : SellerStat) :
  NoDup (map id l) -> l !! i = Some s -> indexSellers l !! id s = Some i.
Proof.
  intros Hnodup Hs.
  destruct (indexSellers_known l (id s)) as (i' & s' & Hget & Hs' & Hid).
  { apply in_map. apply list_elem_of_In. now apply (list_elem_of_lookup_2 _ i). }
  assert (i' = i).
  { apply (NoDup_lookup (map id l) i' i (id s)); [ exact Hnodup | | ].
    - now rewrite list_lookup_fmap, Hs', <- Hid.
    - now rewrite list_lookup_fmap, Hs. }
  subst i'. unfold getProp in Hget.
  destruct (indexSellers l !! id s) as [n |]; [ congruence | ].
  now destruct (inherited (id s)).
Qed.

Section Seller.
Variable calcRevenue : Item -> productArg -> float.
Variable sellerIndex : gmap string nat.
Variable productIndex : gmap string Product.

(** What the outer callback does to the object of the record's seller. *)
Definition sale (seller : SellerStat) (record : PurchaseRecord) : SellerStat :=
  foldl (sellItem calcRevenue productIndex) (countSale seller record) (items record).

(** The records whose seller id finds the seller at position [i]. *)
Definition recordsAt (i : nat) (records : list PurchaseRecord) : list PurchaseRecord :=
  List.filter (fun record => bool_decide (sellerIndex !! seller_id record = Some i))
              records.

Lemma sellRecord_lookup sellerStats record sellerStats' (i : nat) :
  sellRecord calcRevenue sellerIndex productIndex sellerStats record = Ok sellerStats' ->
  sellerStats' !! i
  = (fun seller => foldl sale seller (recordsAt i [record])) <$> sellerStats !! i.
Proof.
  unfold sellRecord, getProp, recordsAt. cbn [List.filter].
  destruct (sellerIndex !! seller_id record) as [j |] eqn:E.
  - intros [= <-]. destruct (decide (j = i)) as [-> | NE].
    + rewrite bool_decide_eq_true_2 by reflexivity.
      now rewrite list_lookup_alter_eq.
    + rewrite bool_decide_eq_false_2 by congruence.
      rewrite list_lookup_alter_ne by exact NE.
      now destruct (sellerStats !! i).
  - rewrite bool_decide_eq_false_2 by discriminate.
    destruct (inherited (seller_id record)).
    + destruct (existsb _ _); [ discriminate | ]. intros [= <-].
      now destruct (sellerStats !! i).
    + intros [= <-]. now destruct (sellerStats !! i).
Qed.

(** After the aggregation, the object of a seller is what the records that
    find it have made of it, one after the other in the order of the
    input. *)
Lemma sellRecords_lookup records sellerStats sellerStats' (i : nat) :
  sellRecords calcRevenue sellerIndex productIndex sellerStats records = Ok sellerStats' ->
  sellerStats' !! i
  = (fun seller => foldl sale seller (recordsAt i records)) <$> sellerStats !! i.
Proof.
  revert sellerStats. induction records as [| record records IH]; intros sellerStats;
    cbn [sellRecords].
  - intros [= <-]. cbn. now destruct (sellerStats !! i).
  - destruct (sellRecord calcRevenue sellerIndex productIndex sellerStats record)
      as [sellerStats1 | e] eqn:E; [ | discriminate ].
    intros H. rewrite (IH _ H), (sellRecord_lookup _ _ _ i E).
    destruct (sellerStats !! i) as [seller |]; [ | reflexivity ].
    cbn [fmap option_fmap option_map]. f_equal.
    unfold recordsAt. cbn [List.filter].
    now destruct (bool_decide (sellerIndex !! seller_id record = Some i)).
Qed.

Lemma sale_sales_count (seller : SellerStat) (record : PurchaseRecord) :
  sales_count (sale seller record) = (sales_count seller + 1)%nat.
Proof. unfold sale. now rewrite sellItems_sales_count. Qed.

Lemma sale_revenue (seller : SellerStat) (record : PurchaseRecord) :
  revenue (sale seller record) = revenue seller + total_amount record.
Proof. unfold sale. now rewrite sellItems_revenue. Qed.

Lemma sales_sales_count (records : list PurchaseRecord) (seller : SellerStat) :
  sales_count (foldl sale seller records) = (sales_count seller + length records)%nat.
Proof.
  revert seller. induction records as [| record records IH]; intros seller; cbn.
  - lia.
  - rewrite IH, sale_sales_count. lia.
Qed.

Lemma sales_revenue (records : list PurchaseRecord) (seller : SellerStat) :
  revenue (foldl sale seller records)
  = foldl (fun total record => total + total_amount record) (revenue seller) records.
Proof.
  revert seller. induction records as [| record records IH]; intros seller; cbn.
  - reflexivity.
  - now rewrite IH, sale_revenue.
Qed.

Lemma sellItems_name (items : list Item) (seller : SellerStat) :
  name (foldl (sellItem calcRevenue productIndex) seller items) = name seller.
Proof.
  revert seller. induction items as [| item items IH]; intros seller; cbn.
  - reflexivity.
  - rewrite IH. unfold sellItem. now destruct (getProp productIndex (item_sku item)).
Qed.

Lemma sales_id (records : list PurchaseRecord) (seller : SellerStat) :
  id (foldl sale seller records) = id seller
  /\ name (foldl sale seller records) = name seller.
Proof.
  revert seller. induction records as [| record records IH]; intros seller; cbn.
  - now split.
  - destruct (IH (sale seller record)) as [-> ->]. unfold sale.
    now rewrite sellItems_id, sellItems_name.
Qed.
End Seller.

(** The row of a seller: every row is the row of one of the sellers, made
    from a new object by the records that find this seller; and every
    seller has such a row. *)
Definition statOf calcRevenue (d : Data) (i : nat) (s : Seller) : SellerStat :=
  foldl (sale calcRevenue (indexProducts (elements (products d)))) (newStat s)
        (recordsAt (indexSellers (map newStat (elements (sellers d)))) i
                   (elements (purchase_records d))).

Lemma aggregate_lookup calcRevenue (d : Data) sellerStats (i : nat) :
  aggregate calcRevenue d = Ok sellerStats ->
  sellerStats !! i = statOf calcRevenue d i <$> elements (sellers d) !! i.
Proof.
  unfold aggregate. intros H. rewrite (sellRecords_lookup _ _ _ _ _ _ i H).
  rewrite list_lookup_fmap. now destruct (elements (sellers d) !! i).
Qed.

Lemma aggregate_length calcRevenue (d : Data) sellerStats :
  aggregate calcRevenue d = Ok sellerStats ->
  length sellerStats = length (elements (sellers d)).
Proof.
  intros H. apply aggregate_ids in H.
  apply (f_equal (@length string)) in H. now rewrite !length_map in H.
Qed.

Lemma analyzeSalesData_row (d : Data) (o : Options) calcRevenue calcBonus rows
    (k : nat) (row : ReportRow) :
  analyzeSalesData (Some d) (Some o) = Ok rows ->
  calculateRevenue o = Some calcRevenue ->
  calculateBonus o = Some calcBonus ->
  rows !! k = Some row ->
  exists i s,
    elements (sellers d) !! i = Some s
    /\ row = rowAt calcBonus (length (elements (sellers d))) k (statOf calcRevenue d i s).
Proof.
  intros Hrows Hr Hb Hk.
  destruct (analyzeSalesData_ranked _ _ _ _ _ Hrows Hr Hb) as (sellerStats & Hs & ->).
  apply report_rows in Hk as (seller & Hseller & ->).
  rewrite (aggregate_length _ _ _ Hs).
  apply list_elem_of_lookup_2 in Hseller. rewrite (sort_perm byProfit) in Hseller.
  apply list_elem_of_lookup_1 in Hseller as [i Hi].
  rewrite (aggregate_lookup _ _ _ i Hs) in Hi.
  destruct (elements (sellers d) !! i) as [s |] eqn:Es; [ | discriminate ].
  injection Hi as <-. now exists i, s.
Qed.

Lemma analyzeSalesData_seller (d : Data) (o : Options) calcRevenue calcBonus rows
    (i : nat) (s : Seller) :
  analyzeSalesData (Some d) (Some o) = Ok rows ->
  calculateRevenue o = Some calcRevenue ->
  calculateBonus o = Some calcBonus ->
  elements (sellers d) !! i = Some s ->
  exists k,
    rows !! k
    = Some (rowAt calcBonus (length (elements (sellers d))) k (statOf calcRevenue d i s)).
Proof.
  intros Hrows Hr Hb Hi.
  destruct (analyzeSalesData_ranked _ _ _ _ _ Hrows Hr Hb) as (sellerStats & Hs & ->).
  assert (Hstat : sellerStats !! i = Some (statOf calcRevenue d i s)).
  { now rewrite (aggregate_lookup _ _ _ i Hs), Hi. }
  apply list_elem_of_lookup_2 in Hstat. rewrite <- (sort_perm byProfit) in Hstat.
  apply list_elem_of_lookup_1 in Hstat as [k Hk].
  exists k. now rewrite report_lookup, Hk, (aggregate_length _ _ _ Hs).
Qed.

Lemma statOf_id calcRevenue (d : Data) (i : nat) (s : Seller) :
  id (statOf calcRevenue d i s) = seller_ident s
  /\ name (statOf calcRevenue d i s) = first_name s +:+ " " +:+ last_name s.
Proof. unfold statOf. now destruct (sales_id calcRevenue (indexProducts (elements (products d))) (recordsAt (indexSellers (map newStat (elements (sellers d)))) i (elements (purchase_records d))) (newStat s)) as [-> ->]. Qed.

(** The records of a seller, by its id. *)
Definition recordsOf (key : string) (records : list PurchaseRecord) : list PurchaseRecord :=
  List.filter (fun record => String.eqb (seller_id record) key) records.

Lemma recordsAt_NoDup (sellers : list Seller) (i : nat) (s : Seller)
    (records : list PurchaseRecord) :
  NoDup (map seller_ident sellers) -> sellers !! i = Some s ->
  recordsAt (indexSellers (map newStat sellers)) i records
  = recordsOf (seller_ident s) records.
Proof.
  intros Hnodup Hs. unfold recordsAt, recordsOf. apply List.filter_ext. intros record.
  assert (Hi : map newStat sellers !! i = Some (newStat s)).
  { now rewrite list_lookup_fmap, Hs. }
  destruct (String.eqb_spec (seller_id record) (seller_ident s)) as [E | NE].
  - apply bool_decide_eq_true_2. rewrite E.
    apply (indexSellers_NoDup _ i (newStat s)); [ | exact Hi ].
    now rewrite List.map_map.
  - apply bool_decide_eq_false_2. intros H.
    apply indexSellers_lookup in H as [(s' & Hs' & Hid) _].
    rewrite Hi in Hs'. injection Hs' as <-. now elim NE.
Qed.

(** When the sellers' ids are distinct, the number of sales in a row is
    the number of records with the row's seller id. *)
Theorem analyzeSalesData_sales_count (d : Data) (options : option Options) rows
    (k : nat) (row : ReportRow) :
  analyzeSalesData (Some d) options = Ok rows ->
  NoDup (map seller_ident (elements (sellers d))) ->
  rows !! k = Some row ->
  row_sales_count row
  = length (recordsOf (row_seller_id row) (elements (purchase_records d))).
Proof.
  intros Hrows Hnodup Hk.
  pose proof Hrows as (d' & o & calcRevenue & calcBonus & sellerStats
                       & [= <-] & _ & -> & Hr & Hb & _)%analyzeSalesData_Ok.
  destruct (analyzeSalesData_row _ _ _ _ _ _ _ Hrows Hr Hb Hk) as (i & s & Hs & ->).
  cbn [rowAt toRow row_sales_count row_seller_id stat].
  rewrite orZero_id, orEmpty_id. destruct (statOf_id calcRevenue d i s) as [-> _].
  unfold statOf. rewrite sales_sales_count.
  now rewrite (recordsAt_NoDup _ i s _ Hnodup Hs).
Qed.

Lemma analyzeSalesData_sales_count_witness :
  exists rows row,
    analyzeSalesData (Some Sample.shop) (Some referenceOptions) = Ok rows
    /\ rows !! 0%nat = Some row
    /\ row_sales_count row
       = length (recordsOf (row_seller_id row) (elements (purchase_records Sample.shop))).
Proof.
  eexists _, _. split; [ vm_compute; reflexivity | ]. split; [ reflexivity | ].
  eapply (analyzeSalesData_sales_count Sample.shop (Some referenceOptions) _ 0).
  - vm_compute; reflexivity.
  - distinct.
  - reflexivity.
Defined.

(** ... and the revenue of the row is the sum of their amounts, added one
    after the other in the order of the input, as the formatter prints
    it. *)
Theorem analyzeSalesData_revenue (d : Data) (options : option Options) rows
    (k : nat) (row : ReportRow) :
  analyzeSalesData (Some d) options = Ok rows ->
  NoDup (map seller_ident (elements (sellers d))) ->
  rows !! k = Some row ->
  row_revenue row
  = normalize (foldl (fun total record => total + total_amount record) 0
                     (recordsOf (row_seller_id row) (elements (purchase_records d)))).
Proof.
  intros Hrows Hnodup Hk.
  pose proof Hrows as (d' & o & calcRevenue & calcBonus & sellerStats
                       & [= <-] & _ & -> & Hr & Hb & _)%analyzeSalesData_Ok.
  destruct (analyzeSalesData_row _ _ _ _ _ _ _ Hrows Hr Hb Hk) as (i & s & Hs & ->).
  cbn [rowAt toRow row_revenue row_seller_id stat].
  rewrite orEmpty_id. destruct (statOf_id calcRevenue d i s) as [-> _].
  unfold statOf. rewrite sales_revenue.
  now rewrite (recordsAt_NoDup _ i s _ Hnodup Hs).
Qed.

Lemma analyzeSalesData_revenue_witness :
  exists rows row,
    analyzeSalesData (Some Sample.shop) (Some referenceOptions) = Ok rows
    /\ rows !! 0%nat = Some row
    /\ row_revenue row
       = normalize (foldl (fun total record => total + total_amount record) 0
                          (recordsOf (row_seller_id row)
                                     (elements (purchase_records Sample.shop)))).
Proof.
  eexists _, _. split; [ vm_compute; reflexivity | ]. split; [ reflexivity | ].
  eapply (analyzeSalesData_revenue Sample.shop (Some referenceOptions) _ 0).
  - vm_compute; reflexivity.
  - distinct.
  - reflexivity.
Defined.

(** Every row has the id of a seller and its first and last name, with a
    space between them. *)
Theorem analyzeSalesData_names (d : Data) (options : option Options) rows
    (k : nat) (row : ReportRow) :
  analyzeSalesData (Some d) options = Ok rows ->
  rows !! k = Some row ->
  exists s,
    In s (elements (sellers d))
    /\ row_seller_id row = seller_ident s
    /\ row_name row = (first_name s +:+ " " +:+ last_name s)%string.
Proof.
  intros Hrows Hk.
  pose proof Hrows as (d' & o & calcRevenue & calcBonus & sellerStats
                       & [= <-] & _ & -> & Hr & Hb & _)%analyzeSalesData_Ok.
  destruct (analyzeSalesData_row _ _ _ _ _ _ _ Hrows Hr Hb Hk) as (i & s & Hs & ->).
  exists s. split.
  - apply list_elem_of_In. now apply (list_elem_of_lookup_2 _ i).
  - cbn [rowAt toRow row_seller_id row_name stat]. rewrite !orEmpty_id.
    apply statOf_id.
Qed.

Lemma analyzeSalesData_names_witness :
  exists rows row,
    analyzeSalesData (Some Sample.shop) (Some referenceOptions) = Ok rows
    /\ rows !! 1%nat = Some row
    /\ exists s,
         In s (elements (sellers Sample.shop))
         /\ row_seller_id row = seller_ident s
         /\ row_name row = (first_name s +:+ " " +:+ last_name s)%string.
Proof.
  eexists _, _. split; [ vm_compute; reflexivity | ]. split; [ reflexivity | ].
  eapply (analyzeSalesData_names Sample.shop (Some referenceOptions) _ 1).
  - vm_compute; reflexivity.
  - reflexivity.
Defined.

(** ** Sellers without sales *)

(** The row of a seller that no record has reached. *)
Definition idleRow (s : Seller) (row : ReportRow) : Prop :=
  row_seller_id row = seller_ident s
  /\ row_name row = (first_name s +:+ " " +:+ last_name s)%string
  /\ row_revenue row = 0
  /\ row_profit row = 0
  /\ row_sales_count row = 0%nat
  /\ row_top_products row = [].

Lemma filter_none {A : Type} (f : A -> bool) (l : list A) :
  (forall x, In x l -> f x = false) -> List.filter f l = [].
Proof.
  induction l as [| x l IH]; intros H; cbn; [ reflexivity | ].
  rewrite (H x) by now left. apply IH. intros y Hy. apply H. now right.
Qed.

Lemma idle_row (d : Data) (options : option Options) rows (i : nat) (s : Seller) :
  analyzeSalesData (Some d) options = Ok rows ->
  elements (sellers d) !! i = Some s ->
  recordsAt (indexSellers (map newStat (elements (sellers d)))) i
            (elements (purchase_records d)) = [] ->
  exists k row, rows !! k = Some row /\ idleRow s row.
Proof.
  intros Hrows Hs Hnone.
  pose proof Hrows as (d' & o & calcRevenue & calcBonus & sellerStats
                       & [= <-] & _ & -> & Hr & Hb & _)%analyzeSalesData_Ok.
  destruct (analyzeSalesData_seller _ _ _ _ _ i s Hrows Hr Hb Hs) as [k Hk].
  exists k. eexists. split; [ exact Hk | ].
  unfold statOf. rewrite Hnone. cbn [foldl].
  unfold idleRow. cbn [rowAt toRow newStat row_seller_id row_name row_revenue row_profit
                       row_sales_count row_top_products stat id name revenue profit
                       sales_count products_sold top_products].
  now rewrite !orEmpty_id.
Qed.

(** A seller whose id no record has is in the report, with no sale, zero
    revenue and profit and no top product. *)
Theorem analyzeSalesData_no_sales (d : Data) (options : option Options) rows (s : Seller) :
  analyzeSalesData (Some d) options = Ok rows ->
  In s (elements (sellers d)) ->
  (forall record, In record (elements (purchase_records d)) ->
     seller_id record <> seller_ident s) ->
  exists k row, rows !! k = Some row /\ idleRow s row.
Proof.
  intros Hrows Hs Hnone.
  apply list_elem_of_In, list_elem_of_lookup_1 in Hs as [i Hi].
  apply (idle_row d options rows i s Hrows Hi).
  apply filter_none. intros record Hrecord. apply bool_decide_eq_false_2. intros H.
  apply indexSellers_lookup in H as [(s' & Hs' & Hid) _].
  rewrite list_lookup_fmap, Hi in Hs'. injection Hs' as <-.
  now elim (Hnone record Hrecord).
Qed.

Lemma analyzeSalesData_no_sales_witness :
  exists rows,
    analyzeSalesData (Some Cases.idleShop) (Some referenceOptions) = Ok rows
    /\ exists k row, rows !! k = Some row /\ idleRow Sample.bob row.
Proof.
  eexists. split; [ vm_compute; reflexivity | ].
  eapply (analyzeSalesData_no_sales Cases.idleShop (Some referenceOptions) _ Sample.bob).
  - vm_compute; reflexivity.
  - right. now left.
  - intros record [<- | []]. discriminate.
Defined.

(** [Object.fromEntries] keeps the last seller of an id: when two sellers
    have the same id, the records with this id count for the later one,
    and the earlier one is in the report as a seller without sales. *)
Theorem analyzeSalesData_duplicate_id (d : Data) (options : option Options) rows
    (i j : nat) (s s' : Seller) :
  analyzeSalesData (Some d) options = Ok rows ->
  elements (sellers d) !! i = Some s ->
  elements (sellers d) !! j = Some s' ->
  (i < j)%nat ->
  seller_ident s' = seller_ident s ->
  exists k row, rows !! k = Some row /\ idleRow s row.
Proof.
  intros Hrows Hi Hj Hlt Hid.
  apply (idle_row d options rows i s Hrows Hi).
  apply filter_none. intros record Hrecord. apply bool_decide_eq_false_2. intros H.
  apply indexSellers_lookup in H as [(s0 & Hs0 & Hid0) Hlater].
  rewrite list_lookup_fmap, Hi in Hs0. injection Hs0 as <-.
  apply (Hlater j (newStat s') Hlt).
  - now rewrite list_lookup_fmap, Hj.
  - cbn. now rewrite Hid.
Qed.

Lemma analyzeSalesData_duplicate_id_witness :
  exists rows,
    analyzeSalesData (Some Cases.twins) (Some referenceOptions) = Ok rows
    /\ exists k row, rows !! k = Some row /\ idleRow Sample.ann row.
Proof.
  eexists. split; [ vm_compute; reflexivity | ].
  eapply (analyzeSalesData_duplicate_id Cases.twins (Some referenceOptions) _ 0 1
           Sample.ann (mkSeller "s1" "Al" "Roe")).
  - vm_compute; reflexivity.
  - reflexivity.
  - reflexivity.
  - lia.
  - reflexivity.
Defined.

(** ** The top products of a row *)

Lemma sold_get_None (ps : sold) (sku : string) :
  sold_get ps sku = None <-> ~ In sku (map fst ps).
Proof.
  induction ps as [| [k v] ps IH]; cbn.
  - tauto.
  - destruct (String.eqb_spec k sku) as [-> | NE].
    + split; [ discriminate | intros H; elim H; now left ].
    + rewrite IH. tauto.
Qed.

Lemma sold_set_NoDup (ps : sold) (sku : string) (v : counter) :
  NoDup (map fst ps) -> NoDup (map fst (sold_set ps sku v)).
Proof.
  intros H. rewrite sold_set_keys. destruct (sold_get ps sku) as [c |] eqn:E;
    [ exact H | ].
  apply sold_get_None in E. apply NoDup_app. split; [ exact H | ]. split.
  - intros x Hx [-> | []]%list_elem_of_In. apply E. now apply list_elem_of_In.
  - apply NoDup_singleton.
Qed.

(** [products_sold] has one property for a SKU. *)
Lemma countSold_NoDup (ps : sold) (sku : string) (q : float) :
  NoDup (map fst ps) -> NoDup (map fst (countSold ps sku q)).
Proof.
  intros H. unfold countSold. destruct (sold_get ps sku) as [c |].
  - now apply sold_set_NoDup.
  - destruct (inherited sku); [ | now apply sold_set_NoDup ].
    destruct (String.eqb sku "__proto__"); [ exact H | now apply sold_set_NoDup ].
Qed.

Lemma sellItem_NoDup calcRevenue productIndex (seller : SellerStat) (item : Item) :
  NoDup (map fst (products_sold seller)) ->
  NoDup (map fst (products_sold (sellItem calcRevenue productIndex seller item))).
Proof.
  intros H. unfold sellItem.
  destruct (getProp productIndex (item_sku item)); cbn [account products_sold];
    try exact H; now apply countSold_NoDup.
Qed.

Lemma sales_NoDup calcRevenue productIndex (records : list PurchaseRecord)
    (seller : SellerStat) :
  NoDup (map fst (products_sold seller)) ->
  NoDup (map fst (products_sold (foldl (sale calcRevenue productIndex) seller records))).
Proof.
  revert seller. induction records as [| record records IH]; intros seller H; cbn.
  - exact H.
  - apply IH. unfold sale.
    assert (H0 : NoDup (map fst (products_sold (countSale seller record)))) by exact H.
    revert H0. generalize (countSale seller record).
    induction (items record) as [| item l IHl]; intros s0 H0; cbn.
    + exact H0.
    + apply IHl. now apply sellItem_NoDup.
Qed.

Lemma topProducts_NoDup (ps : sold) :
  NoDup (map fst ps) -> NoDup (map fst (topProducts ps)).
Proof.
  intros H. unfold topProducts.
  assert (P : sort byQuantity (entries ps) ≡ₚ ps).
  { now rewrite sort_perm, entries_perm. }
  apply (sublist_NoDup (map fst (take 10 (sort byQuantity (entries ps))))
                       (map fst (sort byQuantity (entries ps)))).
  - now rewrite P.
  - apply (fmap_sublist fst), sublist_take.
Qed.

(** No SKU is twice among the top products of a row. *)
Theorem analyzeSalesData_top_products_distinct (d : Data) (options : option Options)
    rows (k : nat) (row : ReportRow) :
  analyzeSalesData (Some d) options = Ok rows ->
  rows !! k = Some row ->
  NoDup (map fst (row_top_products row)).
Proof.
  intros Hrows Hk.
  pose proof Hrows as (d' & o & calcRevenue & calcBonus & sellerStats
                       & [= <-] & _ & -> & Hr & Hb & _)%analyzeSalesData_Ok.
  destruct (analyzeSalesData_row _ _ _ _ _ _ _ Hrows Hr Hb Hk) as (i & s & Hs & ->).
  cbn [rowAt toRow row_top_products top_products].
  apply topProducts_NoDup. unfold statOf. apply sales_NoDup. cbn. apply NoDup_nil_2.
Qed.

Lemma analyzeSalesData_top_products_distinct_witness :
  exists rows row,
    analyzeSalesData (Some Sample.shop) (Some referenceOptions) = Ok rows
    /\ rows !! 0%nat = Some row
    /\ NoDup (map fst (row_top_products row)).
Proof.
  eexists _, _. split; [ vm_compute; reflexivity | ]. split; [ reflexivity | ].
  eapply (analyzeSalesData_top_products_distinct Sample.shop (Some referenceOptions) _ 0).
  - vm_compute; reflexivity.
  - reflexivity.
Defined.

(** ** The profit of a row *)

(** The profit of the records of a seller: every item whose SKU is a
    product's adds its revenue less the cost of its quantity. *)
Definition profitOf calcRevenue (products : list Product)
    (records : list PurchaseRecord) : float :=
  foldl (fun total record =>
           foldl (fun total item =>
                    match indexProducts products !! item_sku item with
                    | Some p =>
                        total + (calcRevenue item (ProductObj p)
                                 - purchase_price p * quantity item)
                    | None => total
                    end)
                 total (items record))
        0 records.

Definition plainSkus (records : list PurchaseRecord) : Prop :=
  forall record item,
    In record records -> In item (items record) -> inherited (item_sku item) = false.

Lemma sellItems_profit calcRevenue (products : list Product) (l : list Item)
    (seller : SellerStat) :
  (forall item, In item l -> inherited (item_sku item) = false) ->
  profit (foldl (sellItem calcRevenue (indexProducts products)) seller l)
  = foldl (fun total item =>
             match indexProducts products !! item_sku item with
             | Some p =>
                 total + (calcRevenue item (ProductObj p)
                          - purchase_price p * quantity item)
             | None => total
             end)
          (profit seller) l.
Proof.
  revert seller. induction l as [| item l IH]; intros seller H; cbn [foldl].
  - reflexivity.
  - rewrite IH by (intros x Hx; apply H; now right). f_equal.
    unfold sellItem. rewrite getProp_plain by (apply H; now left).
    now destruct (indexProducts products !! item_sku item).
Qed.

Lemma sales_profit calcRevenue (products : list Product) (records : list PurchaseRecord)
    (seller : SellerStat) :
  plainSkus records ->
  profit (foldl (sale calcRevenue (indexProducts products)) seller records)
  = foldl (fun total record =>
             foldl (fun total item =>
                      match indexProducts products !! item_sku item with
                      | Some p =>
                          total + (calcRevenue item (ProductObj p)
                                   - purchase_price p * quantity item)
                      | None => total
                      end)
                   total (items record))
          (profit seller) records.
Proof.
  revert seller. induction records as [| record records IH]; intros seller H;
    cbn [foldl].
  - reflexivity.
  - rewrite IH by (intros r x Hr Hx; apply (H r x); [ now right | exact Hx ]).
    f_equal. unfold sale. rewrite sellItems_profit; [ reflexivity | ].
    intros item Hitem. apply (H record item); [ now left | exact Hitem ].
Qed.

Lemma recordsOf_In (key : string) (records : list PurchaseRecord) (record : PurchaseRecord) :
  In record (recordsOf key records) -> In record records.
Proof. unfold recordsOf. rewrite List.filter_In. tauto. Qed.

(** When the sellers' ids are distinct and no SKU of an item is an
    inherited name, the profit of a row is the profit of the records with
    the row's seller id, added item by item in the order of the input, as
    the formatter prints it. *)
Theorem analyzeSalesData_profit (d : Data) (o : Options) calcRevenue rows
    (k : nat) (row : ReportRow) :
  analyzeSalesData (Some d) (Some o) = Ok rows ->
  calculateRevenue o = Some calcRevenue ->
  NoDup (map seller_ident (elements (sellers d))) ->
  plainSkus (elements (purchase_records d)) ->
  rows !! k = Some row ->
  row_profit row
  = normalize (profitOf calcRevenue (elements (products d))
                 (recordsOf (row_seller_id row) (elements (purchase_records d)))).
Proof.
  intros Hrows Hr Hnodup Hplain Hk.
  pose proof Hrows as (d' & o' & calcRevenue' & calcBonus & sellerStats
                       & [= <-] & _ & [= <-] & Hr' & Hb & _)%analyzeSalesData_Ok.
  destruct (analyzeSalesData_row _ _ _ _ _ _ _ Hrows Hr Hb Hk) as (i & s & Hs & ->).
  cbn [rowAt toRow row_profit row_seller_id stat].
  rewrite orEmpty_id. destruct (statOf_id calcRevenue d i s) as [-> _].
  unfold statOf, profitOf. rewrite (recordsAt_NoDup _ i s _ Hnodup Hs).
  rewrite sales_profit; [ reflexivity | ].
  intros record item Hrecord Hitem.
  apply (Hplain record item); [ now apply recordsOf_In in Hrecord | exact Hitem ].
Qed.

Lemma analyzeSalesData_profit_witness :
  exists rows row,
    analyzeSalesData (Some Sample.shop) (Some referenceOptions) = Ok rows
    /\ rows !! 0%nat = Some row
    /\ row_profit row
       = normalize (profitOf calculateSimpleRevenue (elements (products Sample.shop))
                      (recordsOf (row_seller_id row)
                                 (elements (purchase_records Sample.shop)))).
Proof.
  eexists _, _. split; [ vm_compute; reflexivity | ]. split; [ reflexivity | ].
  eapply (analyzeSalesData_profit Sample.shop referenceOptions calculateSimpleRevenue _ 0).
  - vm_compute; reflexivity.
  - reflexivity.
  - distinct.
  - intros record item Hrecord Hitem. cbn in Hrecord.
    repeat (destruct Hrecord as [<- | Hrecord]; [ cbn in Hitem;
      repeat (destruct Hitem as [<- | Hitem]; [ reflexivity | ]); elim Hitem | ]).
    elim Hrecord.
  - reflexivity.
Defined.

(** ** The two reference strategies *)

Module MulFacts.
Import SF Rounding.
Local Open Scope Z_scope.

(** Multiplying by a power of two that the exponent can take back leaves
    the mantissa as it is. *)
Lemma binary_round_aux_exact (s : bool) (m : positive) (e : Z) (p : positive) :
  bounded prec emax m e = true ->
  binary_round_aux prec emax s (Zpos m * 2 ^ Zpos p) (e - Zpos p) loc_Exact
  = S754_finite s m e.
Proof.
  intros B. unfold bounded in B. apply andb_true_iff in B as [C He].
  apply Z.leb_le in He. pose proof C as Hcan.
  unfold canonical_mantissa in C. apply Z.eqb_eq in C.
  assert (P : 0 < 2 ^ Zpos p) by (apply Z.pow_pos_nonneg; lia).
  set (N := Zpos m * 2 ^ Zpos p).
  assert (HN : 0 < N) by (unfold N; lia).
  destruct N as [| n | n] eqn:EN; try lia.
  assert (Hd : Zpos (digits2_pos n) = Zpos (digits2_pos m) + Zpos p).
  { apply digits2_unique. pose proof (digits2_bounds m) as [L U].
    rewrite <- EN.
    replace (Zpos (digits2_pos m) + Zpos p - 1)
      with ((Zpos (digits2_pos m) - 1) + Zpos p) by lia.
    rewrite !Z.pow_add_r by lia. unfold N. split.
    - apply Z.mul_le_mono_nonneg_r; lia.
    - apply Z.mul_lt_mono_pos_r; lia. }
  assert (Hloc : located (shr_record_of_loc (Zpos n) loc_Exact) (Zpos n) 1).
  { unfold located. cbn [shr_record_of_loc shr_m shr_r shr_s].
    rewrite Z.div_1_r, Z.mod_1_r.
    repeat split; try discriminate; try lia; try (intros [H _]; now elim H). }
  destruct (located_shift (Zpos p) _ (e - Zpos p) (Zpos n) 1 ltac:(lia) ltac:(lia)
              ltac:(lia) Hloc) as [(Hm & Hr & Hs) Hexp].
  rewrite Z.mul_1_l in Hm, Hr, Hs.
  assert (Ediv : Zpos n / 2 ^ Zpos p = Zpos m).
  { rewrite <- EN. unfold N. apply Z.div_mul. lia. }
  assert (Emod : Zpos n mod 2 ^ Zpos p = 0).
  { rewrite <- EN. unfold N. apply Z.mod_mul. lia. }
  rewrite Ediv in Hm. rewrite Emod in Hr, Hs.
  unfold binary_round_aux.
  assert (Hfirst : shr_fexp prec emax (Zpos n) (e - Zpos p) loc_Exact
                   = shr (shr_record_of_loc (Zpos n) loc_Exact) (e - Zpos p) (Zpos p)).
  { unfold shr_fexp, Zdigits2. rewrite Hd. f_equal.
    replace (Zpos (digits2_pos m) + Zpos p + (e - Zpos p))
      with (Zpos (digits2_pos m) + e) by lia.
    rewrite C. lia. }
  rewrite Hfirst.
  destruct (shr (shr_record_of_loc (Zpos n) loc_Exact) (e - Zpos p) (Zpos p))
    as [[m1 r1 s1] e1].
  cbn [fst snd shr_m shr_r shr_s] in Hm, Hr, Hs, Hexp. subst m1 e1.
  assert (r1 = false) by (destruct r1; [ assert (2 ^ Zpos p <= 2 * 0) by now apply Hr | ]; [ lia | reflexivity ]).
  assert (s1 = false) by (destruct s1; [ assert (0 <> 0 /\ 2 * 0 <> 2 ^ Zpos p) as [H0 _] by now apply Hs | ]; [ now elim H0 | reflexivity ]).
  subst r1 s1. cbn [loc_of_shr_record round_nearest_even shr_m].
  replace (e - Zpos p + Zpos p) with e by lia.
  unfold shr_fexp, Zdigits2. rewrite C, Z.sub_diag.
  cbn [shr shr_record_of_loc shr_m].
  now destruct (Z.leb_spec e (emax - prec)); [ | lia ].
Qed.

Lemma SFmul_one (x : spec_float) :
  valid_binary x = true -> SFmul prec emax x (Prim2SF 1) = x.
Proof.
  intros V. change (Prim2SF 1) with (S754_finite false 4503599627370496 (-52)).
  destruct x as [s | s | | s m e]; cbn [SFmul]; rewrite ?xorb_false_r; try reflexivity.
  unfold valid_binary in V. cbn [SpecFloat.valid_binary] in V.
  change (Zpos (m * 4503599627370496)) with (Zpos m * 2 ^ 52).
  change (e + -52) with (e - 52).
  now apply (binary_round_aux_exact s m e 52).
Qed.

Lemma shr_1_nonneg (mrs : shr_record) : 0 <= shr_m mrs -> 0 <= shr_m (shr_1 mrs).
Proof.
  destruct mrs as [[| [q | q |] | q] r s]; cbn; intros H; try lia.
Qed.

Lemma shr_nonneg (mrs : shr_record) (e n : Z) :
  0 <= shr_m mrs -> 0 <= shr_m (fst (shr mrs e n)).
Proof.
  intros H. unfold shr. destruct n as [| p | p]; cbn [fst]; try exact H.
  revert mrs H. induction p as [p IH | p IH |]; intros mrs H; cbn [SpecFloat.iter_pos].
  - apply IH, IH, shr_1_nonneg, H.
  - apply IH, IH, H.
  - now apply shr_1_nonneg.
Qed.

(** A rounded number with a positive sign is not below zero, and is no
    NaN. *)
Lemma binary_round_aux_nonneg (m : positive) (e : Z) (l : location) :
  SFleb (S754_zero false) (binary_round_aux prec emax false (Zpos m) e l) = true.
Proof.
  unfold binary_round_aux, shr_fexp.
  pose proof (shr_nonneg (shr_record_of_loc (Zpos m) l) e
                (fexp (Zdigits2 (Zpos m) + e) - e)) as H1.
  rewrite shr_record_of_loc_m in H1. specialize (H1 ltac:(lia)).
  destruct (shr (shr_record_of_loc (Zpos m) l) e _) as [mrs1 e1]. cbn [fst] in H1.
  set (m2 := round_nearest_even (shr_m mrs1) (loc_of_shr_record mrs1)).
  assert (H2 : 0 <= m2).
  { unfold m2, round_nearest_even. destruct (loc_of_shr_record mrs1) as [| []]; try lia.
    destruct (Z.even (shr_m mrs1)); lia. }
  pose proof (shr_nonneg (shr_record_of_loc m2 loc_Exact) e1
                (fexp (Zdigits2 m2 + e1) - e1)) as H3.
  rewrite shr_record_of_loc_m in H3. specialize (H3 H2).
  destruct (shr (shr_record_of_loc m2 loc_Exact) e1 _) as [mrs3 e3]. cbn [fst] in H3.
  destruct (shr_m mrs3) as [| m3 | m3]; try lia; try reflexivity.
  now destruct (e3 <=? emax - prec).
Qed.

Lemma SFmul_nonneg (x : spec_float) (m : positive) (e : Z) :
  SFleb (S754_zero false) x = true ->
  SFleb (S754_zero false) (SFmul prec emax x (S754_finite false m e)) = true.
Proof.
  destruct x as [s | [] | | [] mx ex]; cbn [SFmul xorb]; try discriminate;
    try reflexivity.
  intros _. apply binary_round_aux_nonneg.
Qed.

Lemma SFmul_zero (x : spec_float) (s : bool) :
  SFmul prec emax x (S754_zero s)
  = match x with
    | S754_zero sx | S754_finite sx _ _ => S754_zero (xorb sx s)
    | _ => S754_nan
    end.
Proof. now destruct x. Qed.

End MulFacts.

Lemma mul_one (x : float) : x * 1 = x.
Proof.
  apply Prim2SF_inj. rewrite mul_spec. apply MulFacts.SFmul_one, Prim2SF_valid.
Qed.

Lemma eqb_zero (x : float) : (x =? 0) = true -> x = 0 \/ x = -0.
Proof.
  rewrite FloatAxioms.eqb_spec. change (Prim2SF 0) with (S754_zero false).
  destruct (Prim2SF x) as [[] | [] | | [] m e] eqn:E; try discriminate; intros _.
  - right. apply Prim2SF_inj. now rewrite E.
  - left. apply Prim2SF_inj. now rewrite E.
Qed.

(** Without a discount the revenue of an item is its price times its
    quantity. *)
Theorem calculateSimpleRevenue_no_discount (purchase : Item) (product : productArg) :
  (discount purchase =? 0) = true ->
  calculateSimpleRevenue purchase product = sale_price purchase * quantity purchase.
Proof.
  intros H. unfold calculateSimpleRevenue. cbv zeta.
  apply eqb_zero in H as [-> | ->].
  - change (1 - 0 / 100) with 1. apply mul_one.
  - change (1 - -0 / 100) with 1. apply mul_one.
Qed.

Lemma calculateSimpleRevenue_no_discount_witness :
  calculateSimpleRevenue Sample.twoPens (ProductObj Sample.pen)
  = sale_price Sample.twoPens * quantity Sample.twoPens.
Proof.
  apply (calculateSimpleRevenue_no_discount Sample.twoPens (ProductObj Sample.pen)).
  reflexivity.
Defined.

(** With a discount of 100 the revenue is zero when price times quantity is
    a finite number, and NaN when it is not. *)
Theorem calculateSimpleRevenue_full_discount (purchase : Item) (product : productArg) :
  discount purchase = 100 ->
  if Num.is_finite (sale_price purchase * quantity purchase)
  then (calculateSimpleRevenue purchase product =? 0) = true
  else Num.isNaN (calculateSimpleRevenue purchase product) = true.
Proof.
  intros H. unfold calculateSimpleRevenue. cbv zeta. rewrite H.
  change (1 - 100 / 100) with 0.
  set (x := sale_price purchase * quantity purchase).
  destruct (Num.is_finite x) eqn:F.
  - apply NumFacts.is_finite_spec in F.
    rewrite FloatAxioms.eqb_spec, mul_spec.
    change (Prim2SF 0) with (S754_zero false). rewrite MulFacts.SFmul_zero.
    destruct (Prim2SF x) as [s | s | | s m e]; try contradiction; now destruct s.
  - apply NumFacts.isNaN_spec. rewrite mul_spec.
    change (Prim2SF 0) with (S754_zero false). rewrite MulFacts.SFmul_zero.
    destruct (Prim2SF x) as [s | s | | s m e] eqn:E; try reflexivity;
      assert (F' : Num.is_finite x = true)
        by (apply NumFacts.is_finite_spec; now rewrite E); congruence.
Qed.

Lemma calculateSimpleRevenue_full_discount_witness :
  if Num.is_finite (sale_price (mkItem "pen" 2 100 15) * quantity (mkItem "pen" 2 100 15))
  then (calculateSimpleRevenue (mkItem "pen" 2 100 15) (ProductObj Sample.pen) =? 0) = true
  else Num.isNaN (calculateSimpleRevenue (mkItem "pen" 2 100 15) (ProductObj Sample.pen))
       = true.
Proof.
  apply (calculateSimpleRevenue_full_discount (mkItem "pen" 2 100 15)
           (ProductObj Sample.pen)).
  reflexivity.
Defined.

Lemma mul_nonneg_finite (x y : float) (m : positive) (e : Z) :
  Prim2SF y = S754_finite false m e ->
  (0 <=? x) = true -> (0 <=? x * y) = true.
Proof.
  intros Hy. rewrite !FloatAxioms.leb_spec, mul_spec, Hy.
  apply MulFacts.SFmul_nonneg.
Qed.

(** A profit that is not negative gives a bonus that is not negative, at
    every rank. *)
Theorem calculateBonusByProfit_nonneg (index total : Z) (seller : SellerStat) :
  (0 <=? profit seller) = true ->
  (0 <=? calculateBonusByProfit index total seller) = true.
Proof.
  intros H. unfold calculateBonusByProfit.
  destruct (index =? 0)%Z.
  - now apply (mul_nonneg_finite _ 0.15 5404319552844595 (-55)).
  - destruct ((index =? 1) || (index =? 2))%Z.
    + now apply (mul_nonneg_finite _ 0.10 7205759403792794 (-56)).
    + destruct (index =? total - 1)%Z; [ reflexivity | ].
      now apply (mul_nonneg_finite _ 0.05 7205759403792794 (-57)).
Qed.

Lemma calculateBonusByProfit_nonneg_witness :
  (0 <=? calculateBonusByProfit 3 5 (Sample.aSeller 10)) = true.
Proof.
  apply (calculateBonusByProfit_nonneg 3 5 (Sample.aSeller 10)). reflexivity.
Defined.

(** ** Where the top products come from *)

Lemma countSold_keys (ps : sold) (sku : string) (q : float) (key : string) :
  In key (map fst (countSold ps sku q)) -> In key (map fst ps) \/ key = sku.
Proof.
  assert (Hset : forall v, In key (map fst (sold_set ps sku v)) ->
                           In key (map fst ps) \/ key = sku).
  { intros v. rewrite sold_set_keys. destruct (sold_get ps sku); [ now left | ].
    rewrite in_app_iff. cbn. intuition. }
  unfold countSold. destruct (sold_get ps sku) as [c |]; [ apply Hset | ].
  destruct (inherited sku); [ | apply Hset ].
  destruct (String.eqb sku "__proto__"); [ now left | apply Hset ].
Qed.

Section Keys.
Variable calcRevenue : Item -> productArg -> float.
Variable productIndex : gmap string Product.

(** An item that the inner callback counts: its SKU finds a product or an
    inherited object. *)
Definition counted (key : string) (item : Item) : Prop :=
  item_sku item = key /\ truthy (getProp productIndex key) = true.

Lemma sellItem_keys (seller : SellerStat) (item : Item) (key : string) :
  In key (map fst (products_sold (sellItem calcRevenue productIndex seller item))) ->
  In key (map fst (products_sold seller)) \/ counted key item.
Proof.
  unfold sellItem, counted.
  destruct (getProp productIndex (item_sku item)) as [p | k |] eqn:E;
    cbn [account products_sold]; [ | | now left ];
    intros [H | ->]%countSold_keys; auto; right; now rewrite E.
Qed.

Lemma sellItems_keys (l : list Item) (seller : SellerStat) (key : string) :
  In key (map fst (products_sold (foldl (sellItem calcRevenue productIndex) seller l))) ->
  In key (map fst (products_sold seller)) \/ Exists (counted key) l.
Proof.
  revert seller. induction l as [| item l IH]; intros seller; cbn [foldl].
  - now left.
  - intros [[H | H]%sellItem_keys | H]%IH; auto.
Qed.

Lemma sales_keys (records : list PurchaseRecord) (seller : SellerStat) (key : string) :
  In key (map fst (products_sold (foldl (sale calcRevenue productIndex) seller records))) ->
  In key (map fst (products_sold seller))
  \/ Exists (fun record => Exists (counted key) (items record)) records.
Proof.
  revert seller. induction records as [| record records IH]; intros seller; cbn [foldl].
  - now left.
  - intros [H | H]%IH; [ | now right; right ].
    unfold sale in H. apply sellItems_keys in H as [H | H]; [ now left | ].
    right. now left.
Qed.
End Keys.

Lemma topProducts_In (ps : sold) (kv : string * counter) :
  In kv (topProducts ps) -> In kv ps.
Proof.
  unfold topProducts. intros H. apply list_elem_of_In in H.
  apply elem_of_take in H as (i & H & _). apply list_elem_of_lookup_2 in H.
  rewrite sort_perm, entries_perm in H. now apply list_elem_of_In.
Qed.

(** A top product of a row has been sold by the seller of the row: its SKU
    is the SKU of an item of a record with the row's seller id, and it is
    the SKU of a product or a name that every object inherits. *)
Theorem analyzeSalesData_top_products_sold (d : Data) (options : option Options) rows
    (k : nat) (row : ReportRow) (sku : string) :
  analyzeSalesData (Some d) options = Ok rows ->
  rows !! k = Some row ->
  In sku (map fst (row_top_products row)) ->
  (exists record item,
     In record (elements (purchase_records d))
     /\ seller_id record = row_seller_id row
     /\ In item (items record) /\ item_sku item = sku)
  /\ (In sku (map product_sku (elements (products d))) \/ inherited sku = true).
Proof.
  intros Hrows Hk Hsku.
  pose proof Hrows as (d' & o & calcRevenue & calcBonus & sellerStats
                       & [= <-] & _ & -> & Hr & Hb & _)%analyzeSalesData_Ok.
  destruct (analyzeSalesData_row _ _ _ _ _ _ _ Hrows Hr Hb Hk) as (i & s & Hs & ->).
  cbn [rowAt toRow row_top_products row_seller_id top_products stat] in *.
  rewrite orEmpty_id. destruct (statOf_id calcRevenue d i s) as [-> _].
  apply in_map_iff in Hsku as ([sku' c] & <- & Hin). apply topProducts_In in Hin.
  assert (Hkey : In sku' (map fst (products_sold (statOf calcRevenue d i s)))).
  { apply in_map_iff. now exists (sku', c). }
  unfold statOf in Hkey. apply sales_keys in Hkey as [[] | Hex].
  apply List.Exists_exists in Hex as (record & Hrecord & Hitems).
  apply List.Exists_exists in Hitems as (item & Hitem & Hsku & Htruthy).
  unfold recordsAt in Hrecord. apply List.filter_In in Hrecord as [Hrecord Hfound].
  apply bool_decide_eq_true_1 in Hfound.
  apply indexSellers_lookup in Hfound as [(s' & Hs' & Hid) _].
  rewrite list_lookup_fmap, Hs in Hs'. injection Hs' as <-.
  split.
  - exists record, item. cbn in Hid. auto.
  - cbn [fst]. apply truthy_getProp in Htruthy as [H | H]; [ left | now right ].
    destruct (in_dec string_dec sku' (map product_sku (elements (products d))))
      as [Hin' | Hout]; [ exact Hin' | ].
    now apply indexProducts_None in Hout.
Qed.

Lemma analyzeSalesData_top_products_sold_witness :
  exists rows row,
    analyzeSalesData (Some Sample.shop) (Some referenceOptions) = Ok rows
    /\ rows !! 0%nat = Some row
    /\ (exists record item,
          In record (elements (purchase_records Sample.shop))
          /\ seller_id record = row_seller_id row
          /\ In item (items record) /\ item_sku item = "ink"%string)
    /\ (In "ink"%string (map product_sku (elements (products Sample.shop)))
        \/ inherited "ink" = true).
Proof.
  eexists _, _. split; [ vm_compute; reflexivity | ]. split; [ reflexivity | ].
  eapply (analyzeSalesData_top_products_sold Sample.shop (Some referenceOptions) _ 0).
  - vm_compute; reflexivity.
  - reflexivity.
  - cbn. auto.
Defined.

(** ** Sellers with the same profit *)

(** The sort is stable: when no accumulated profit is NaN, the sellers are
    in the report in descending order of their profit, and those with the
    same profit in the order they have in the input. *)
Theorem analyzeSalesData_ties (d : Data) (o : Options) calcRevenue calcBonus rows
    sellerStats :
  analyzeSalesData (Some d) (Some o) = Ok rows ->
  calculateRevenue o = Some calcRevenue ->
  calculateBonus o = Some calcBonus ->
  aggregate calcRevenue d = Ok sellerStats ->
  Forall (fun seller => Num.isNaN (profit seller) = false) sellerStats ->
  map id sellerStats = map seller_ident (elements (sellers d))
  /\ map row_seller_id rows = map id (sort byProfit sellerStats)
  /\ Sorted (descending profit) (sort byProfit sellerStats)
  /\ forall v,
       List.filter (fun seller => profit seller =? v) (sort byProfit sellerStats)
       = List.filter (fun seller => profit seller =? v) sellerStats.
Proof.
  intros Hrows Hr Hb Hs Hnum.
  destruct (analyzeSalesData_ranked _ _ _ _ _ Hrows Hr Hb) as (sellerStats' & Hs' & ->).
  rewrite Hs in Hs'. injection Hs' as <-.
  split; [ now apply aggregate_ids in Hs | ].
  split; [ | split ].
  - apply list_eq. intros k. rewrite !list_lookup_fmap, report_lookup.
    destruct (sort byProfit sellerStats !! k) as [seller |]; [ | reflexivity ].
    cbn. now rewrite orEmpty_id.
  - now apply ranking_descending.
  - intros v. apply (sort_stable profit).
Qed.

Lemma analyzeSalesData_ties_witness :
  exists rows sellerStats,
    analyzeSalesData (Some Sample.shop) (Some referenceOptions) = Ok rows
    /\ aggregate calculateSimpleRevenue Sample.shop = Ok sellerStats
    /\ map id sellerStats = map seller_ident (elements (sellers Sample.shop))
    /\ map row_seller_id rows = map id (sort byProfit sellerStats)
    /\ Sorted (descending profit) (sort byProfit sellerStats)
    /\ forall v,
         List.filter (fun seller => profit seller =? v) (sort byProfit sellerStats)
         = List.filter (fun seller => profit seller =? v) sellerStats.
Proof.
  eexists _, _. split; [ vm_compute; reflexivity | ].
  split; [ vm_compute; reflexivity | ].
  apply (analyzeSalesData_ties Sample.shop referenceOptions calculateSimpleRevenue
           calculateBonusByProfit).
  - vm_compute; reflexivity.
  - reflexivity.
  - reflexivity.
  - vm_compute; reflexivity.
  - repeat constructor.
Defined.

(** ** When a report is returned *)

Lemma analyzeSalesData_returns_witness :
  exists rows, analyzeSalesData (Some Sample.shop) (Some referenceOptions) = Ok rows.
Proof.
  apply (analyzeSalesData_returns Sample.shop referenceOptions calculateSimpleRevenue
           calculateBonusByProfit).
  - reflexivity.
  - reflexivity.
  - reflexivity.
  - repeat constructor.
Defined.

(** ** All the products a seller has sold *)

Lemma countSold_keys_mono (ps : sold) (sku : string) (q : float) (key : string) :
  In key (map fst ps) -> In key (map fst (countSold ps sku q)).
Proof.
  intros H.
  assert (Hset : forall v, In key (map fst (sold_set ps sku v))).
  { intros v. rewrite sold_set_keys. destruct (sold_get ps sku); [ exact H | ].
    apply in_app_iff. now left. }
  unfold countSold. destruct (sold_get ps sku) as [c |]; [ apply Hset | ].
  destruct (inherited sku); [ | apply Hset ].
  destruct (String.eqb sku "__proto__"); [ exact H | apply Hset ].
Qed.

Lemma countSold_key (ps : sold) (sku : string) (q : float) :
  inherited sku = false -> In sku (map fst (countSold ps sku q)).
Proof.
  intros Hplain. unfold countSold. rewrite Hplain.
  destruct (sold_get ps sku) as [c |] eqn:E; rewrite sold_set_keys, E.
  - apply sold_get_In in E. apply in_map_iff. now exists (sku, c).
  - apply in_app_iff. right. now left.
Qed.

Section Sold.
Variable calcRevenue : Item -> productArg -> float.
Variable productIndex : gmap string Product.

Lemma sellItem_keys_mono (seller : SellerStat) (item : Item) (key : string) :
  In key (map fst (products_sold seller)) ->
  In key (map fst (products_sold (sellItem calcRevenue productIndex seller item))).
Proof.
  intros H. unfold sellItem.
  destruct (getProp productIndex (item_sku item)); cbn [account products_sold];
    try exact H; now apply countSold_keys_mono.
Qed.

Lemma sellItems_keys_mono (l : list Item) (seller : SellerStat) (key : string) :
  In key (map fst (products_sold seller)) ->
  In key (map fst (products_sold (foldl (sellItem calcRevenue productIndex) seller l))).
Proof.
  revert seller. induction l as [| item l IH]; intros seller H; cbn [foldl].
  - exact H.
  - now apply IH, sellItem_keys_mono.
Qed.

Lemma sellItems_key (l : list Item) (seller : SellerStat) (item : Item) :
  In item l ->
  productIndex !! item_sku item <> None ->
  inherited (item_sku item) = false ->
  In (item_sku item)
     (map fst (products_sold (foldl (sellItem calcRevenue productIndex) seller l))).
Proof.
  revert seller. induction l as [| x l IH]; intros seller Hin Hfound Hplain;
    cbn [foldl]; [ now elim Hin | ].
  destruct Hin as [-> | Hin]; [ | now apply IH ].
  apply sellItems_keys_mono. unfold sellItem, getProp.
  destruct (productIndex !! item_sku item) as [p |]; [ | now elim Hfound ].
  cbn [account products_sold]. now apply countSold_key.
Qed.

Lemma sales_keys_mono (records : list PurchaseRecord) (seller : SellerStat) (key : string) :
  In key (map fst (products_sold seller)) ->
  In key (map fst (products_sold (foldl (sale calcRevenue productIndex) seller records))).
Proof.
  revert seller. induction records as [| record records IH]; intros seller H; cbn [foldl].
  - exact H.
  - apply IH. unfold sale. now apply sellItems_keys_mono.
Qed.

Lemma sales_key (records : list PurchaseRecord) (seller : SellerStat)
    (record : PurchaseRecord) (item : Item) :
  In record records -> In item (items record) ->
  productIndex !! item_sku item <> None ->
  inherited (item_sku item) = false ->
  In (item_sku item)
     (map fst (products_sold (foldl (sale calcRevenue productIndex) seller records))).
Proof.
  revert seller. induction records as [| x records IH];
    intros seller Hrecord Hitem Hfound Hplain; cbn [foldl]; [ now elim Hrecord | ].
  destruct Hrecord as [-> | Hrecord]; [ | now apply IH ].
  apply sales_keys_mono. unfold sale. now apply sellItems_key.
Qed.
End Sold.

Lemma topProducts_all (ps : sold) (kv : string * counter) :
  (length (topProducts ps) < 10)%nat -> In kv ps -> In kv (topProducts ps).
Proof.
  unfold topProducts. intros Hlen Hin.
  rewrite length_take in Hlen.
  rewrite take_ge by lia.
  apply list_elem_of_In. rewrite sort_perm, entries_perm. now apply list_elem_of_In.
Qed.

(** When a row has fewer than ten top products, they are all the products
    that the seller has sold: every item of a record with the row's seller
    id whose SKU is a product's (and no inherited name) has its SKU among
    them. *)
Theorem analyzeSalesData_top_products_complete (d : Data) (options : option Options)
    rows (k : nat) (row : ReportRow) (record : PurchaseRecord) (item : Item) :
  analyzeSalesData (Some d) options = Ok rows ->
  NoDup (map seller_ident (elements (sellers d))) ->
  rows !! k = Some row ->
  (length (row_top_products row) < 10)%nat ->
  In record (elements (purchase_records d)) ->
  seller_id record = row_seller_id row ->
  In item (items record) ->
  In (item_sku item) (map product_sku (elements (products d))) ->
  inherited (item_sku item) = false ->
  In (item_sku item) (map fst (row_top_products row)).
Proof.
  intros Hrows Hnodup Hk Hlen Hrecord Hid Hitem Hsku Hplain.
  pose proof Hrows as (d' & o & calcRevenue & calcBonus & sellerStats
                       & [= <-] & _ & -> & Hr & Hb & _)%analyzeSalesData_Ok.
  destruct (analyzeSalesData_row _ _ _ _ _ _ _ Hrows Hr Hb Hk) as (i & s & Hs & ->).
  cbn [rowAt toRow row_top_products row_seller_id top_products stat] in *.
  rewrite orEmpty_id in Hid. destruct (statOf_id calcRevenue d i s) as [Hstat _].
  rewrite Hstat in Hid.
  assert (Hkey : In (item_sku item) (map fst (products_sold (statOf calcRevenue d i s)))).
  { unfold statOf. rewrite (recordsAt_NoDup _ i s _ Hnodup Hs).
    apply (sales_key _ _ _ _ record item); try assumption.
    - unfold recordsOf. apply List.filter_In. split; [ exact Hrecord | ].
      now apply String.eqb_eq.
    - intros E. now apply indexProducts_None in E. }
  apply in_map_iff in Hkey as ([sku c] & Hfst & Hin).
  apply in_map_iff. exists (sku, c). split; [ exact Hfst | ].
  now apply topProducts_all.
Qed.

Lemma analyzeSalesData_top_products_complete_witness :
  exists rows row,
    analyzeSalesData (Some Sample.shop) (Some referenceOptions) = Ok rows
    /\ rows !! 0%nat = Some row
    /\ In (item_sku Sample.threeInks) (map fst (row_top_products row)).
Proof.
  eexists _, _. split; [ vm_compute; reflexivity | ]. split; [ reflexivity | ].
  eapply (analyzeSalesData_top_products_complete Sample.shop (Some referenceOptions) _ 0 _
            (mkRecord "s2" 46.2 [Sample.twoPens; Sample.threeInks]) Sample.threeInks).
  - vm_compute; reflexivity.
  - distinct.
  - reflexivity.
  - cbn. lia.
  - right. now left.
  - reflexivity.
  - right. now left.
  - right. now left.
  - reflexivity.
Defined.

(** ** The order of the products *)

Lemma fromEntries_NoDup {A : Type} (l : list (string * A)) (k : string) (v : A) :
  NoDup (map fst l) -> In (k, v) l -> fromEntries l !! k = Some v.
Proof.
  intros Hnodup Hin.
  destruct (fromEntries_known l k) as [v' Hv'].
  { apply in_map_iff. now exists (k, v). }
  rewrite Hv'. f_equal. apply fromEntries_lookup_In in Hv'.
  apply list_elem_of_In, list_elem_of_lookup_1 in Hin as [i Hi].
  apply list_elem_of_In, list_elem_of_lookup_1 in Hv' as [j Hj].
  assert (i = j).
  { apply (NoDup_lookup (map fst l) i j k Hnodup).
    - now rewrite list_lookup_fmap, Hi.
    - now rewrite list_lookup_fmap, Hj. }
  subst j. congruence.
Qed.

Lemma fromEntries_perm {A : Type} (l l' : list (string * A)) :
  NoDup (map fst l) -> l ≡ₚ l' -> fromEntries l = fromEntries l'.
Proof.
  intros Hnodup Hperm.
  assert (Hnodup' : NoDup (map fst l')) by now rewrite <- Hperm.
  apply map_eq. intros k. apply option_eq. intros v. split; intros H.
  - apply fromEntries_NoDup; [ exact Hnodup' | ].
    apply fromEntries_lookup_In in H. apply list_elem_of_In.
    rewrite <- Hperm. now apply list_elem_of_In.
  - apply fromEntries_NoDup; [ exact Hnodup | ].
    apply fromEntries_lookup_In in H. apply list_elem_of_In.
    rewrite Hperm. now apply list_elem_of_In.
Qed.

(** When the SKUs of the products are distinct, the report does not depend
    on the order of the products. *)
Theorem analyzeSalesData_products_order (d d' : Data) (options : option Options)
    (ps ps' : list Product) :
  sellers d' = sellers d ->
  purchase_records d' = purchase_records d ->
  products d = IsArray ps ->
  products d' = IsArray ps' ->
  ps ≡ₚ ps' ->
  NoDup (map product_sku ps) ->
  analyzeSalesData (Some d') options = analyzeSalesData (Some d) options.
Proof.
  intros Hsellers Hrecords Hps Hps' Hperm Hnodup.
  assert (Hindex : indexProducts ps' = indexProducts ps).
  { unfold indexProducts. symmetry. apply fromEntries_perm.
    - now rewrite List.map_map.
    - now apply fmap_Permutation. }
  assert (Hinv : invalidInput (Some d') = invalidInput (Some d)).
  { unfold invalidInput. rewrite Hsellers, Hrecords, Hps, Hps'. cbn [isArray elements].
    now rewrite (Permutation_length Hperm). }
  unfold analyzeSalesData. rewrite Hinv.
  destruct (invalidInput (Some d)); [ reflexivity | ].
  destruct options as [o |]; [ | reflexivity ].
  destruct (calculateRevenue o) as [calcRevenue |]; [ | reflexivity ].
  destruct (calculateBonus o) as [calcBonus |]; [ | reflexivity ].
  assert (Hagg : aggregate calcRevenue d' = aggregate calcRevenue d).
  { unfold aggregate. rewrite Hsellers, Hrecords, Hps, Hps'. cbn [elements].
    now rewrite Hindex. }
  now rewrite Hagg.
Qed.

Lemma analyzeSalesData_products_order_witness :
  analyzeSalesData
    (Some (mkData (sellers Sample.shop) (IsArray [Sample.ink; Sample.pen])
                  (purchase_records Sample.shop)))
    (Some referenceOptions)
  = analyzeSalesData (Some Sample.shop) (Some referenceOptions).
Proof.
  apply (analyzeSalesData_products_order Sample.shop _ (Some referenceOptions)
           [Sample.pen; Sample.ink] [Sample.ink; Sample.pen]).
  - reflexivity.
  - reflexivity.
  - reflexivity.
  - reflexivity.
  - apply perm_swap.
  - distinct.
Defined.

(** ** Formatting a formatted number *)

Module FixedFacts.
Import Rounding NumFacts.
Local Open Scope Z_scope.

Lemma hundredthsOf_spec (V n : Z) :
  hundredthsOf V = n <-> - one <= 200 * V - 2 * n * one < one.
Proof.
  pose proof one_pos as P. unfold hundredthsOf. split.
  - intros <-. pose proof (Z.mul_div_le (200 * V + one) (2 * one) ltac:(lia)).
    pose proof (Z.mul_succ_div_gt (200 * V + one) (2 * one) ltac:(lia)). lia.
  - intros H. symmetry. apply (Z.div_unique_pos _ _ _ (200 * V + one - 2 * one * n)); lia.
Qed.

(** A hundred units are never [one], which is a power of two. *)
Lemma unit_cases (j : Z) : 0 <= j -> 128 * 2 ^ j <= one \/ one <= 64 * 2 ^ j.
Proof.
  intros Hj. unfold one.
  change (- emin) with 1074. destruct (Z.le_gt_cases j 1067) as [H | H].
  - left. change 128 with (2 ^ 7). rewrite <- Z.pow_add_r by lia.
    apply Z.pow_le_mono_r; lia.
  - right. change 64 with (2 ^ 6). rewrite <- Z.pow_add_r by lia.
    apply Z.pow_le_mono_r; lia.
Qed.

Lemma pow2_multiple (i j : Z) : 0 <= j <= i -> 2 ^ i = 2 ^ (i - j) * 2 ^ j.
Proof. intros H. rewrite <- Z.pow_add_r by lia. f_equal; lia. Qed.

(** The number nearest to [n / 100] has [n] hundredths again, when [n] is
    the number of hundredths of some number. *)
Lemma hundredthsOf_nearest (M i n m g : Z) :
  0 <= i -> 0 < M < 2 ^ prec ->
  hundredthsOf (M * 2 ^ i) = n -> nearest n m g ->
  hundredthsOf (m * g) = n.
Proof.
  intros Hi HM Hn (Hm & (j & Hj & ->) & Hnear & Hmag).
  apply hundredthsOf_spec in Hn. apply hundredthsOf_spec.
  pose proof one_pos as P1.
  assert (Pg : 0 < 2 ^ j) by (apply Z.pow_pos_nonneg; lia).
  assert (Pu : 0 < 2 ^ i) by (apply Z.pow_pos_nonneg; lia).
  assert (E : 2 ^ prec = 2 * 2 ^ (prec - 1)) by reflexivity.
  assert (P : 0 < 2 ^ (prec - 1)) by reflexivity.
  rewrite E in *. set (h := 2 ^ (prec - 1)) in *.
  destruct (unit_cases j Hj) as [Hsmall | Hlarge].
  - (* the unit is below a hundredth *)
    set (g := 2 ^ j) in *. lia.
  - destruct (Z.le_gt_cases j i) as [Hle | Hgt].
    + (* the number is a multiple of the unit: it is the nearest one *)
      rewrite (pow2_multiple i j) in Hn by lia.
      set (t := 2 ^ (i - j)) in *. set (g := 2 ^ j) in *.
      assert (Hclose : - (100 * g) < 100 * g * (M * t - m) < 100 * g) by lia.
      assert (M * t - m = 0) by nia.
      replace (m * g) with (M * (t * g)) by nia. exact Hn.
    + (* the number is below the least number of the unit *)
      pose proof (pow2_double i j ltac:(lia)) as Hu.
      set (u := 2 ^ i) in *. set (g := 2 ^ j) in *.
      assert (HV : M * u < h * g) by nia.
      assert (Hm1 : 100 * g * (m - h) < 100 * g) by lia.
      assert (m - h < 1) by nia.
      assert (m = h) by lia. subst m. lia.
Qed.

Lemma fixed_idempotent (M i : Z) :
  0 <= i -> 0 <= M < 2 ^ prec -> fixed (fixed (M * 2 ^ i)) = fixed (M * 2 ^ i).
Proof.
  intros Hi HM. set (V := M * 2 ^ i).
  assert (HV : 0 <= V) by (unfold V; apply Z.mul_nonneg_nonneg; [ lia | apply Z.pow_nonneg; lia ]).
  unfold fixed at 2 3. destruct (Z.leb_spec limit V) as [L | L].
  - unfold fixed. destruct (Z.leb_spec limit V); [ reflexivity | lia ].
  - assert (Hn : 0 <= hundredthsOf V <= 10 ^ 23).
    { split; [ now apply hundredthsOf_nonneg | now apply hundredthsOf_limit ]. }
    destruct (hundredthsOf V) as [| n | n] eqn:En; try lia.
    + change (ratio 0) with 0. reflexivity.
    + destruct (nearest_ratio_100 n ltac:(lia)) as (m & e & m2 & g & Hres & _ & _ & Hval & Hnear).
      assert (Hratio : ratio (Zpos n) = m2 * g).
      { unfold ratio. rewrite Hres. exact Hval. }
      rewrite Hratio. unfold fixed.
      destruct (Z.leb_spec limit (m2 * g)); [ reflexivity | ].
      assert (M <> 0).
      { intros ->. unfold V in En. rewrite Z.mul_0_l in En.
        assert (E0 : hundredthsOf 0 = 0) by (vm_compute; reflexivity).
        rewrite E0 in En. discriminate En. }
      rewrite (hundredthsOf_nearest M i (Zpos n) m2 g Hi ltac:(lia) En Hnear).
      exact Hratio.
Qed.

Lemma rounded_idempotent (s : bool) (M i : Z) :
  0 <= i -> 0 <= M < 2 ^ prec ->
  rounded (rounded (cond_Zopp s (M * 2 ^ i))) = rounded (cond_Zopp s (M * 2 ^ i)).
Proof.
  intros Hi HM. pose proof (fixed_idempotent M i Hi HM) as Hfix.
  set (V := M * 2 ^ i) in *.
  assert (HV : 0 <= V) by (unfold V; apply Z.mul_nonneg_nonneg; [ lia | apply Z.pow_nonneg; lia ]).
  pose proof (fixed_nonneg V HV) as HF.
  assert (Hr : rounded (cond_Zopp s V) = cond_Zopp s (fixed V)).
  { destruct (Z.eq_dec V 0) as [-> | NE].
    - unfold rounded. destruct s; cbn [cond_Zopp]; change (fixed (Z.abs 0)) with 0;
        change (fixed (Z.abs (- 0))) with 0; change (fixed 0) with 0; reflexivity.
    - apply rounded_signed. lia. }
  rewrite Hr. destruct (Z.eq_dec (fixed V) 0) as [E0 | NE].
  - rewrite E0. unfold rounded. destruct s; reflexivity.
  - rewrite rounded_signed by lia. now rewrite Hfix.
Qed.

End FixedFacts.

Lemma eqb_value (x y : float) :
  PrimFloat.is_nan x = false -> PrimFloat.is_nan y = false ->
  (x =? y) = (NumFacts.value x =? NumFacts.value y)%Z.
Proof.
  intros Nx Ny. rewrite FloatAxioms.eqb_spec. unfold SFeqb, NumFacts.value.
  rewrite (Rounding.SFcompare_val (Prim2SF x) (Prim2SF y));
    try apply Prim2SF_valid; try now apply NumFacts.isNaN_false.
  destruct (Z.compare_spec (Rounding.val (Prim2SF x)) (Rounding.val (Prim2SF y)))
    as [E | L | L]; symmetry.
  - now apply Z.eqb_eq.
  - apply Z.eqb_neq. lia.
  - apply Z.eqb_neq. lia.
Qed.

(** The value of a number is a mantissa of fewer than [2 ^ prec] times a
    power of two, with a sign. *)
Lemma value_mantissa (x : float) :
  exists (s : bool) (M i : Z),
    (0 <= i)%Z /\ (0 <= M < 2 ^ prec)%Z
    /\ NumFacts.value x = cond_Zopp s (M * 2 ^ i)%Z.
Proof.
  unfold NumFacts.value. pose proof (Prim2SF_valid x) as V.
  destruct (Prim2SF x) as [s | s | | s m e].
  - exists s, 0%Z, 0%Z. repeat split; try lia. now destruct s.
  - exists s, 1%Z, (emax - emin)%Z. split; [ discriminate | ].
    split; [ split; [ lia | reflexivity ] | ].
    cbn [Rounding.val]. now rewrite Z.mul_1_l.
  - exists false, 0%Z, 0%Z. repeat split; lia.
  - unfold valid_binary in V. cbn [SpecFloat.valid_binary] in V.
    apply andb_true_iff in V as [C _]. apply SF.canonical_bounds in C as (He & Hd & _).
    exists s, (Zpos m), (e - emin)%Z. repeat split; try lia.
    pose proof (SF.digits2_bounds m) as [_ B].
    eapply Z.lt_le_trans; [ exact B | ]. apply Z.pow_le_mono_r; lia.
Qed.

(** Formatting a formatted number changes nothing (but the sign of a
    negative zero). *)
Theorem normalize_idempotent (x : float) :
  (normalize (normalize x) =? normalize x) = true.
Proof.
  unfold normalize at 2 3. destruct (Num.isNaN x) eqn:N; [ reflexivity | ].
  destruct (NumFacts.toFixed2_value x N) as (N1 & V1 & _).
  unfold normalize. unfold Num.isNaN. rewrite N1.
  destruct (NumFacts.toFixed2_value _ N1) as (N2 & V2 & _).
  rewrite eqb_value by assumption. rewrite V2, V1.
  destruct (value_mantissa x) as (s & M & i & Hi & HM & ->).
  rewrite FixedFacts.rounded_idempotent by assumption. apply Z.eqb_refl.
Qed.
